(** * IVX: text-to-flowchart compiler — segmenter, grammar, graph builder,
      parser driver and arity validator, embedded from the TypeScript sources
      (grammar.ts, valid.ts, the parser driver and the validator). *)

From Stdlib Require Import NArith List Bool Arith Lia String Ascii.
From Stdlib Require Import DecimalString.
From Stdlib Require Import DecimalNat Permutation Sorted.
From stdpp Require Import base gmap.
Import ListNotations.

Local Open Scope nat_scope.

(** ** JavaScript strings

    A JavaScript string is a sequence of UTF-16 code units.  A code unit is
    modelled by its number, so that the Unicode white space recognised by
    [String.prototype.trim] and by the regular-expression class [\s] can be
    written out. *)

Abbreviation jsstring := (list N).

Definition lit (s : string) : jsstring :=
  List.map N_of_ascii (list_ascii_of_string s).
Arguments lit s%_string.

Module Ch.
Definition tab : N := 9.
Definition lf : N := 10.
Definition cr : N := 13.
Definition space : N := 32.
Definition bang : N := 33.
Definition dquote : N := 34.
Definition hash : N := 35.
Definition squote : N := 39.
Definition comma : N := 44.
Definition colon : N := 58.
Definition at_sign : N := 64.
Definition backslash : N := 92.
Definition rbrace : N := 125.
Definition ge_sign : N := 8805.
Definition le_sign : N := 8804.
End Ch.

(** [\s] and the characters stripped by [trim]: WhiteSpace and
    LineTerminator of ECMAScript. *)
Definition isWhiteSpace (c : N) : bool :=
  (N.leb 9 c && N.leb c 13) || N.eqb c 32 || N.eqb c 160 || N.eqb c 5760
  || (N.leb 8192 c && N.leb c 8202) || N.eqb c 8232 || N.eqb c 8233
  || N.eqb c 8239 || N.eqb c 8287 || N.eqb c 12288 || N.eqb c 65279.

Definition isSpaceOrTab (c : N) : bool := N.eqb c Ch.space || N.eqb c Ch.tab.

Fixpoint dropWhile {A} (p : A -> bool) (l : list A) : list A :=
  match l with
  | [] => []
  | x :: r => if p x then dropWhile p r else l
  end.

Fixpoint takeWhile {A} (p : A -> bool) (l : list A) : list A :=
  match l with
  | [] => []
  | x :: r => if p x then x :: takeWhile p r else []
  end.

Definition trimStart (s : jsstring) : jsstring := dropWhile isWhiteSpace s.
Definition trimEnd (s : jsstring) : jsstring :=
  List.rev (dropWhile isWhiteSpace (List.rev s)).
Definition trim (s : jsstring) : jsstring := trimEnd (trimStart s).

Definition str_eqb (a b : jsstring) : bool := bool_decide (a = b).

Fixpoint startsWith (p s : jsstring) : bool :=
  match p, s with
  | [], _ => true
  | _ :: _, [] => false
  | a :: p', b :: s' => N.eqb a b && startsWith p' s'
  end.

(** [s.includes(p)] *)
Fixpoint includes (p s : jsstring) : bool :=
  startsWith p s ||
  match s with
  | [] => false
  | _ :: s' => includes p s'
  end.

(** [l.join(sep)] *)
Fixpoint join (sep : jsstring) (l : list jsstring) : jsstring :=
  match l with
  | [] => []
  | [x] => x
  | x :: r => x ++ sep ++ join sep r
  end.

(** [s.split(sep)] for a one-character separator: every occurrence of the
    separator ends the current piece; the last piece is always emitted. *)
Fixpoint splitOn (sep : N) (cur s : jsstring) : list jsstring :=
  match s with
  | [] => [cur]
  | c :: r => if N.eqb c sep then cur :: splitOn sep [] r
              else splitOn sep (cur ++ [c]) r
  end.

(** [s.split(/\r?\n/)]: the separator is a line feed, together with the
    carriage return just before it when there is one. *)
Fixpoint splitLines (cur s : jsstring) : list jsstring :=
  match s with
  | [] => [cur]
  | c :: r =>
      if N.eqb c Ch.lf then cur :: splitLines [] r
      else
        match r with
        | c' :: r' =>
            if N.eqb c Ch.cr && N.eqb c' Ch.lf then cur :: splitLines [] r'
            else splitLines (cur ++ [c]) r
        | [] => splitLines (cur ++ [c]) r
        end
  end.

(** [s.split(/\s+/)]: pieces are separated by maximal runs of white space. *)
Fixpoint splitWs (cur s : jsstring) : list jsstring :=
  match s with
  | [] => [cur]
  | c :: r =>
      if isWhiteSpace c then
        match r with
        | c' :: _ => if isWhiteSpace c' then splitWs cur r
                     else cur :: splitWs [] r
        | [] => cur :: splitWs [] r
        end
      else splitWs (cur ++ [c]) r
  end.

(** Decimal rendering of a number, as [Number.prototype.toString] gives for
    a non-negative integer. *)
Definition toString (n : nat) : jsstring :=
  lit (NilZero.string_of_uint (Nat.to_uint n)).

(** [s.padStart(n)] with the default filler, a space. *)
Definition padStart (n : nat) (s : jsstring) : jsstring :=
  List.repeat Ch.space (n - length s) ++ s.

(** ** grammar.ts *)

Module Seg.
Record t := mk {
  physicalLine : nat;
  segmentIndex : nat;
  indent : nat;
  raw : jsstring;
  code : jsstring;
  comment : jsstring
}.
End Seg.
Abbreviation LogicalSegment := Seg.t.

Record Grammar := mkGram {
  speckey : option jsstring;
  nodekey : option jsstring;
  linekey : list jsstring;
  trimmedCode : jsstring
}.

Definition SPEC_KEYS : list jsstring := [lit "else"; lit "then"].
Definition NODE_KEYS : list jsstring :=
  [lit "dec"; lit "ii"; lit "end"; lit "do"; lit "fun"; lit "im"; lit "ex"].
Definition INLINE_KEYS : list jsstring :=
  [lit "if"; lit "of"; lit "loop"; lit "next"].

(** [set.has(x)] *)
Definition has (set : list jsstring) (x : jsstring) : bool :=
  existsb (str_eqb x) set.

Definition normalizeIvxToken (t : jsstring) : jsstring :=
  if startsWith [Ch.at_sign] t then List.skipn 1 t else t.

(** The scanning loop of [splitCodeAndComment]: [code] is the text built so
    far, [inSingle] and [inDouble] the two quote toggles.  On the first
    hash sign outside quotes the inner loop copies everything after it into
    the comment and the scan stops. *)
Fixpoint splitLoop (raw code : jsstring) (inSingle inDouble : bool)
  : jsstring * jsstring :=
  match raw with
  | [] => (code, [])
  | ch :: rest =>
      if N.eqb ch Ch.squote && negb inDouble then
        splitLoop rest (code ++ [ch]) (negb inSingle) inDouble
      else if N.eqb ch Ch.dquote && negb inSingle then
        splitLoop rest (code ++ [ch]) inSingle (negb inDouble)
      else if N.eqb ch Ch.hash && negb inSingle && negb inDouble then
        (code, rest)
      else splitLoop rest (code ++ [ch]) inSingle inDouble
  end.

Definition splitCodeAndComment (raw : jsstring) : jsstring * jsstring :=
  splitLoop raw [] false false.

Definition computeIndentStep (st : nat * nat) (ch : N) : nat * nat :=
  let '(ind, spaceCount) := st in
  if N.eqb ch Ch.tab then (S ind, 0)
  else if N.eqb ch Ch.space then
    if Nat.eqb (S spaceCount) 4 then (S ind, 0) else (ind, S spaceCount)
  else (ind, spaceCount).

Definition computeIndent (indentString : jsstring) : nat :=
  fst (List.fold_left computeIndentStep indentString (0, 0)).

(** [l.forEach((x, i) => ...)] visits the elements with their indices. *)
Fixpoint indexedFrom {A} (k : nat) (l : list A) : list (nat * A) :=
  match l with
  | [] => []
  | x :: r => (k, x) :: indexedFrom (S k) r
  end.

Definition indexed {A} (l : list A) : list (nat * A) := indexedFrom 0 l.

(** The body of the inner [forEach] of [collectSegments]: one piece of a
    line gives at most one segment. *)
Definition segmentOfPiece (lineIndex segIndex : nat) (segText : jsstring)
  : list LogicalSegment :=
  if forallb isWhiteSpace segText then []
  else
    let indentString := takeWhile isSpaceOrTab segText in
    let ind := computeIndent indentString in
    let raw' := dropWhile isSpaceOrTab segText in
    let '(c, cm) := splitCodeAndComment raw' in
    [ {| Seg.physicalLine := lineIndex; Seg.segmentIndex := segIndex;
         Seg.indent := ind; Seg.raw := raw'; Seg.code := c;
         Seg.comment := cm |} ].

Definition segmentsOfLine (lineIndex : nat) (line : jsstring)
  : list LogicalSegment :=
  List.flat_map (fun '(segIndex, segText) => segmentOfPiece lineIndex segIndex segText)
    (indexed (splitOn Ch.colon [] line)).

Definition collectSegments (text : jsstring) : list LogicalSegment :=
  List.flat_map (fun '(lineIndex, line) => segmentsOfLine lineIndex line)
    (indexed (splitLines [] text)).

(** [/^\\+$/.test(s)] *)
Definition onlyBackslashes (s : jsstring) : bool :=
  negb (Nat.eqb (length s) 0) && forallb (N.eqb Ch.backslash) s.

(** [tokens.splice(i, 0, x)] *)
Definition spliceIn {A} (i : nat) (x : A) (l : list A) : list A :=
  List.firstn i l ++ x :: List.skipn i l.

(** The last loop of [SegGram], over the tokens from index [i] on: the
    inline keys go to [linekey], the other tokens to the label. *)
Definition inlineKeysOf (rest : list jsstring) : list jsstring :=
  List.map normalizeIvxToken
    (List.filter (fun t => has INLINE_KEYS (normalizeIvxToken t)) rest).

Definition labelOf (rest : list jsstring) : jsstring :=
  let userTokens :=
    List.filter (fun t => negb (has INLINE_KEYS (normalizeIvxToken t))) rest in
  trim (join [Ch.space] userTokens).

(** The part of [SegGram] that follows tokenisation. *)
Definition SegGramTokens (tokens0 : list jsstring) : Grammar :=
  let i := 0 in
  let '(speckey1, nodekey1, i, tokens) :=
    match List.nth_error tokens0 i with
    | Some t0 =>
        let norm0 := normalizeIvxToken t0 in
        let collapsedBang :=
          str_eqb norm0 (lit "fun!") || str_eqb norm0 (lit "fun!{") in
        let first := if collapsedBang then lit "fun" else norm0 in
        if has SPEC_KEYS first then (Some first, None, S i, tokens0)
        else if has NODE_KEYS first then
          (None, Some first, S i,
           if collapsedBang then spliceIn (S i) (lit "!") tokens0 else tokens0)
        else (None, None, i, tokens0)
    | None => (None, None, i, tokens0)
    end in
  let '(speckey2, i) :=
    match List.nth_error tokens i with
    | Some t =>
        let norm := normalizeIvxToken t in
        if has SPEC_KEYS norm then (Some norm, S i) else (speckey1, i)
    | None => (speckey1, i)
    end in
  let '(nodekey2, i) :=
    match List.nth_error tokens i with
    | Some t =>
        let norm := normalizeIvxToken t in
        if has NODE_KEYS norm then (Some norm, S i) else (nodekey1, i)
    | None => (nodekey1, i)
    end in
  let rest := List.skipn i tokens in
  {| speckey := speckey2; nodekey := nodekey2; linekey := inlineKeysOf rest;
     trimmedCode := labelOf rest |}.

Definition SegGram (seg : LogicalSegment) : option Grammar :=
  let trimmed := trim (Seg.code seg) in
  if Nat.eqb (length trimmed) 0 || onlyBackslashes trimmed then None
  else Some (SegGramTokens (splitWs [] trimmed)).

Definition isElseOrThen (s : option jsstring) : bool :=
  match s with
  | Some k => str_eqb k (lit "else") || str_eqb k (lit "then")
  | None => false
  end.

(** [text.split(/\s*,\s*/)]: a separator is a comma with the white space
    around it.  [pending] holds white space read after the current piece
    whose fate is not yet known; [afterSep] says that white space is being
    skipped right after a comma. *)
Fixpoint splitCommaLoop (s cur pending : jsstring) (afterSep : bool)
  : list jsstring :=
  match s with
  | [] => [cur ++ pending]
  | c :: r =>
      if N.eqb c Ch.comma then cur :: splitCommaLoop r [] [] true
      else if isWhiteSpace c then
        if afterSep then splitCommaLoop r cur pending true
        else splitCommaLoop r cur (pending ++ [c]) false
      else splitCommaLoop r (cur ++ pending ++ [c]) [] false
  end.

Definition splitDecisionLabels (text : jsstring) : list jsstring :=
  List.filter (fun l => negb (Nat.eqb (length l) 0))
    (List.map trim (splitCommaLoop text [] [] false)).

(** ** graph.ts *)

Inductive NodeKind := Start | End | Process | Decision | Connector | Input | Output.

Module Node.
Record t := mk {
  id : nat;
  kind : NodeKind;
  line : nat;
  segmentIndex : nat;
  indent : nat;
  text : jsstring;
  meta : option jsstring
}.
End Node.
Abbreviation Node := Node.t.

Module Edge.
Record t := mk {
  from : nat;
  to : nat;
  label : option jsstring
}.
End Edge.
Abbreviation Edge := Edge.t.

Module Graph.
Record t := mk {
  nodes : list Node;
  edges : list Edge;
  startNodeId : option nat;
  endNodeId : option nat
}.
End Graph.
Abbreviation Graph := Graph.t.

Definition kindName (k : NodeKind) : jsstring :=
  match k with
  | Start => lit "Start"
  | End => lit "End"
  | Process => lit "Process"
  | Decision => lit "Decision"
  | Connector => lit "Connector"
  | Input => lit "Input"
  | Output => lit "Output"
  end.

Definition kind_eqb (a b : NodeKind) : bool :=
  match a, b with
  | Start, Start | End, End | Process, Process | Decision, Decision
  | Connector, Connector | Input, Input | Output, Output => true
  | _, _ => false
  end.

(** One row of [NODE_ARITY_RULES]; [None] stands for [Infinity]. *)
Record Arity := mkArity {
  minIn : nat;
  maxIn : option nat;
  minOut : nat;
  maxOut : option nat
}.

Definition NODE_ARITY_RULES (k : NodeKind) : Arity :=
  match k with
  | Start => mkArity 0 (Some 0) 1 (Some 1)
  | End => mkArity 1 (Some 1) 0 (Some 0)
  | Process => mkArity 1 (Some 1) 1 (Some 1)
  | Decision => mkArity 1 None 2 None
  | Connector => mkArity 1 None 1 (Some 1)
  | Input => mkArity 1 (Some 1) 1 (Some 1)
  | Output => mkArity 1 (Some 1) 1 (Some 1)
  end.

(** The first loop of [validNodeIO]: one edge bumps the out-degree of its
    source and the in-degree of its target. *)
Definition degreeStep (io : gmap nat nat * gmap nat nat) (e : Edge)
  : gmap nat nat * gmap nat nat :=
  let '(inDegree, outDegree) := io in
  let outDegree' :=
    <[Edge.from e := default 0 (outDegree !! Edge.from e) + 1]> outDegree in
  let inDegree' :=
    <[Edge.to e := default 0 (inDegree !! Edge.to e) + 1]> inDegree in
  (inDegree', outDegree').

Definition degrees (edges : list Edge) : gmap nat nat * gmap nat nat :=
  List.fold_left degreeStep edges (∅, ∅).

Definition isFunBodyMember (n : Node) : bool :=
  match Node.meta n with
  | Some m => includes (lit "fun-body-of=") m
  | None => false
  end.

Definition nodeInfo (n : Node) : jsstring :=
  lit "N" ++ padStart 3 (toString (Node.id n)) ++ lit " [" ++ kindName (Node.kind n)
  ++ lit "] L" ++ toString (Node.line n + 1).

Definition tooFew (info : jsstring) (count : nat) (what : jsstring) (bound : nat)
  : jsstring :=
  info ++ lit " has " ++ toString count ++ lit " " ++ what ++ lit " (expected "
  ++ [Ch.ge_sign] ++ toString bound ++ lit ")".

Definition tooMany (info : jsstring) (count : nat) (what : jsstring) (bound : nat)
  : jsstring :=
  info ++ lit " has " ++ toString count ++ lit " " ++ what ++ lit " (expected "
  ++ [Ch.le_sign] ++ toString bound ++ lit ")".

(** The messages one node contributes, in the order of the four tests. *)
Definition nodeErrors (inDegree outDegree : gmap nat nat) (n : Node)
  : list jsstring :=
  if isFunBodyMember n then []
  else
    let inCount := default 0 (inDegree !! Node.id n) in
    let outCount := default 0 (outDegree !! Node.id n) in
    let rules := NODE_ARITY_RULES (Node.kind n) in
    let info := nodeInfo n in
    (if inCount <? minIn rules then [tooFew info inCount (lit "inputs") (minIn rules)]
     else [])
    ++ (match maxIn rules with
        | Some m => if m <? inCount then [tooMany info inCount (lit "inputs") m] else []
        | None => []
        end)
    ++ (if outCount <? minOut rules
        then [tooFew info outCount (lit "outputs") (minOut rules)] else [])
    ++ (match maxOut rules with
        | Some m => if m <? outCount then [tooMany info outCount (lit "outputs") m] else []
        | None => []
        end).

Definition validNodeIO (nodes : list Node) (edges : list Edge) : list jsstring :=
  let '(inDegree, outDegree) := degrees edges in
  List.fold_left (fun errors n => errors ++ nodeErrors inDegree outDegree n) nodes [].

(** ** valid.ts *)

Definition isNonSentinel (n : Node) : bool :=
  negb (kind_eqb (Node.kind n) Start) && negb (kind_eqb (Node.kind n) End).

(** [label ?? ''] *)
Definition labelOr (l : option jsstring) : jsstring := default [] l.

Definition hasEdge (edges : list Edge) (from to : nat) (label : option jsstring)
  : bool :=
  existsb (fun e => (Edge.from e =? from) && (Edge.to e =? to)
                    && str_eqb (labelOr (Edge.label e)) (labelOr label)) edges.

(** A [Node] held in a variable, a context or a list other than the arena
    is the very object the arena holds under the same id.  Every field
    except [meta] is written once, at creation, so such a reference is
    modelled by a copy of the node; [meta], the one field that is
    reassigned, is always read from and written to the arena entry with
    the id of the reference. *)
Definition metaOf (nodes : list Node) (id : nat) : option jsstring :=
  match List.find (fun n => Node.id n =? id) nodes with
  | Some n => Node.meta n
  | None => None
  end.

Definition setMeta (n : Node) (m : option jsstring) : Node :=
  Node.mk (Node.id n) (Node.kind n) (Node.line n) (Node.segmentIndex n)
    (Node.indent n) (Node.text n) m.

(** [node.meta = (node.meta ? node.meta + ' ' : '') + extra] *)
Definition appendedMeta (m : option jsstring) (extra : jsstring) : jsstring :=
  match m with
  | Some (c :: r) => (c :: r) ++ [Ch.space] ++ extra
  | _ => extra
  end.

Definition updateMeta (f : option jsstring -> option jsstring) (id : nat)
  (nodes : list Node) : list Node :=
  List.map (fun n => if Node.id n =? id then setMeta n (f (Node.meta n)) else n) nodes.

Definition appendMeta (id : nat) (extra : jsstring) (nodes : list Node) : list Node :=
  updateMeta (fun m => Some (appendedMeta m extra)) id nodes.

Definition findIndex {A} (p : A -> bool) (l : list A) : option nat :=
  option_map fst (List.find (fun x => p (snd x)) (indexed l)).

Definition findPrevSequentialCandidate (nodes : list Node) (startNode : Node)
  : option Node :=
  match findIndex (fun n => Node.id n =? Node.id startNode) nodes with
  | None => None
  | Some idx => List.find isNonSentinel (List.rev (List.firstn idx nodes))
  end.

Definition findLastNonSentinel (nodes : list Node) : option Node :=
  List.find isNonSentinel (List.rev nodes).

Definition metaIsLoopOrNext (m : option jsstring) : bool :=
  includes (lit "inline-loop") (labelOr m) || includes (lit "inline-next") (labelOr m).

(** [isLoopOrNextNode(node)], the node being looked up in the arena. *)
Definition isLoopOrNextNode (nodes : list Node) (node : option Node) : bool :=
  match node with
  | Some n => metaIsLoopOrNext (metaOf nodes (Node.id n))
  | None => metaIsLoopOrNext None
  end.

Definition findNextConnector (nodes : list Node) (node : Node) : option Node :=
  List.fold_left
    (fun best cand =>
       if negb (kind_eqb (Node.kind cand) Connector) then best
       else if Node.line cand <=? Node.line node then best
       else match best with
            | None => Some cand
            | Some b => if Node.line cand <? Node.line b then Some cand else best
            end)
    nodes None.

Module GB.
Record t := mk {
  nodes : list Node;
  edges : list Edge;
  endNodeId : option nat;
  nextId : nat;
  lastExecutableNode : option Node;
  lastConnectorLikeNode : option Node;
  pendingNextNodes : list Node
}.

Definition with_nodes (ns : list Node) (g : t) : t :=
  mk ns (edges g) (endNodeId g) (nextId g) (lastExecutableNode g)
    (lastConnectorLikeNode g) (pendingNextNodes g).
Definition with_edges (es : list Edge) (g : t) : t :=
  mk (nodes g) es (endNodeId g) (nextId g) (lastExecutableNode g)
    (lastConnectorLikeNode g) (pendingNextNodes g).
Definition with_endNodeId (e : option nat) (g : t) : t :=
  mk (nodes g) (edges g) e (nextId g) (lastExecutableNode g)
    (lastConnectorLikeNode g) (pendingNextNodes g).
Definition with_nextId (i : nat) (g : t) : t :=
  mk (nodes g) (edges g) (endNodeId g) i (lastExecutableNode g)
    (lastConnectorLikeNode g) (pendingNextNodes g).
Definition with_lastExecutableNode (n : option Node) (g : t) : t :=
  mk (nodes g) (edges g) (endNodeId g) (nextId g) n
    (lastConnectorLikeNode g) (pendingNextNodes g).
Definition with_lastConnectorLikeNode (n : option Node) (g : t) : t :=
  mk (nodes g) (edges g) (endNodeId g) (nextId g) (lastExecutableNode g)
    n (pendingNextNodes g).
Definition with_pendingNextNodes (l : list Node) (g : t) : t :=
  mk (nodes g) (edges g) (endNodeId g) (nextId g) (lastExecutableNode g)
    (lastConnectorLikeNode g) l.
End GB.
Abbreviation GraphBuilder := GB.t.

Definition startNode : Node :=
  Node.mk 0 Start 0 0 0 [] (Some (lit "implicit start")).

(** The constructor of [GraphBuilder]. *)
Definition newGraphBuilder : GraphBuilder :=
  GB.mk [startNode] [] None 1 None None [].

Definition pushEdge (edge : Edge) (gb : GraphBuilder) : GraphBuilder :=
  if hasEdge (GB.edges gb) (Edge.from edge) (Edge.to edge) (Edge.label edge) then gb
  else GB.with_edges (GB.edges gb ++ [edge]) gb.

Definition edge (from to : nat) : Edge := Edge.mk from to None.

(** [x || undefined] on a string: the empty string is falsy. *)
Definition nonEmpty (s : jsstring) : option jsstring :=
  match s with
  | [] => None
  | _ :: _ => Some s
  end.

Definition makeNode (kind : NodeKind) (seg : LogicalSegment) (text : jsstring)
  (gb : GraphBuilder) : Node * GraphBuilder :=
  let baseMeta := trim (Seg.comment seg) in
  let node := Node.mk (GB.nextId gb) kind (Seg.physicalLine seg)
                (Seg.segmentIndex seg) (Seg.indent seg) (trim text)
                (nonEmpty baseMeta) in
  (node, GB.with_nodes (GB.nodes gb ++ [node]) (GB.with_nextId (S (GB.nextId gb)) gb)).

Definition gbAppendMeta (node : Node) (extra : jsstring) (gb : GraphBuilder)
  : GraphBuilder :=
  GB.with_nodes (appendMeta (Node.id node) extra (GB.nodes gb)) gb.

Definition finalizeNode (node : Node) (gram : Grammar) (gb : GraphBuilder)
  : GraphBuilder :=
  let gb1 :=
    match GB.lastConnectorLikeNode gb with
    | Some target =>
        if has (linekey gram) (lit "loop") then
          let gb' :=
            if negb (hasEdge (GB.edges gb) (Node.id node) (Node.id target) None)
            then pushEdge (edge (Node.id node) (Node.id target)) gb
            else gb in
          gbAppendMeta node (lit "inline-loop") gb'
        else gb
    | None => gb
    end in
  if has (linekey gram) (lit "next") then
    gbAppendMeta node (lit "inline-next")
      (GB.with_pendingNextNodes (GB.pendingNextNodes gb1 ++ [node]) gb1)
  else gb1.

(** [wireSequential(to, updateLast)].  [from === this.startNode] compares
    object identities; the start node is the one arena entry with id 0. *)
Definition wireSequential (to : Node) (updateLast : bool) (gb : GraphBuilder)
  : GraphBuilder :=
  let nodes := GB.nodes gb in
  let from0 : Node := default startNode (GB.lastExecutableNode gb) in
  let afterStart : option (option Node) :=
    if Node.id from0 =? Node.id startNode then
      if existsb (fun e => Edge.from e =? Node.id startNode) (GB.edges gb) then
        match findLastNonSentinel nodes with
        | Some f => Some (Some f)
        | None => None
        end
      else Some (Some from0)
    else Some (Some from0) in
  match afterStart with
  | None => gb
  | Some from1 =>
      let from2 :=
        if isLoopOrNextNode nodes from1 then
          match from1 with
          | Some f => findPrevSequentialCandidate nodes f
          | None => None
          end
        else from1 in
      let from3 :=
        match from2 with
        | Some f => if kind_eqb (Node.kind f) Decision
                    then findPrevSequentialCandidate nodes f else from2
        | None => from2
        end in
      let advance (g : GraphBuilder) : GraphBuilder :=
        if updateLast && negb (isLoopOrNextNode nodes (Some to))
        then GB.with_lastExecutableNode (Some to) g else g in
      if kind_eqb (Node.kind to) Connector then advance gb
      else
        advance (match from3 with
                 | Some f => pushEdge (edge (Node.id f) (Node.id to)) gb
                 | None => gb
                 end)
  end.

Definition createImplicitEnd (line segmentIndex : nat) (meta : jsstring)
  (gb : GraphBuilder) : Node * GraphBuilder :=
  let implicitEnd := Node.mk (GB.nextId gb) End line segmentIndex 0 [] (Some meta) in
  (implicitEnd,
   GB.with_endNodeId (Some (Node.id implicitEnd))
     (GB.with_nodes (GB.nodes gb ++ [implicitEnd])
        (GB.with_nextId (S (GB.nextId gb)) gb))).

(** *** Connector fan-in *)

(** The backward scan for the window's lower bound: [i] runs from
    [connector.line - 1] down to 0. *)
Fixpoint findStartLine (nodes : list Node) (k : nat) (i : nat) : nat :=
  match i with
  | 0 => 0
  | S i' =>
      match List.find (fun n => (Node.line n =? i') && (Node.indent n =? k)
                                && (kind_eqb (Node.kind n) Decision
                                    || kind_eqb (Node.kind n) Connector)) nodes with
      | Some boundary => Node.line boundary
      | None => findStartLine nodes k i'
      end
  end.

Definition inFaninWindow (connectorNode : Node) (startLine : nat) (n : Node) : bool :=
  negb (Node.id n =? Node.id connectorNode) && isNonSentinel n
  && (Node.indent n =? Node.indent connectorNode)
  && (startLine <? Node.line n) && (Node.line n <=? Node.line connectorNode).

Definition succsStep (faninIds : gset nat) (m : gmap nat (list nat)) (e : Edge)
  : gmap nat (list nat) :=
  if negb (bool_decide (Edge.from e ∈ faninIds))
     || negb (bool_decide (Edge.to e ∈ faninIds)) then m
  else match m !! Edge.from e with
       | Some arr => <[Edge.from e := arr ++ [Edge.to e]]> m
       | None => <[Edge.from e := [Edge.to e]]> m
       end.

Definition succsInWindow (faninIds : gset nat) (edges : list Edge)
  : gmap nat (list nat) :=
  List.fold_left (succsStep faninIds) edges ∅.

(** The [while (stack.length)] loop of [canReachFeeder].  The JavaScript
    stack grows at the end of its array; here the top is the head of the
    list.  [fuel] bounds the number of iterations; [None] says the bound
    was reached before the loop finished. *)
Fixpoint reachLoop (fuel : nat) (succs : gmap nat (list nat)) (startId : nat)
  (feederIds visited : gset nat) (stack : list nat) : option bool :=
  match stack with
  | [] => Some false
  | id :: stack' =>
      match fuel with
      | 0 => None
      | S fuel' =>
          if bool_decide (id ∈ visited) then
            reachLoop fuel' succs startId feederIds visited stack'
          else
            let visited' := {[id]} ∪ visited in
            if negb (id =? startId) && bool_decide (id ∈ feederIds) then Some true
            else
              let pushed :=
                List.filter (fun nxt => negb (bool_decide (nxt ∈ visited')))
                  (default [] (succs !! id)) in
              reachLoop fuel' succs startId feederIds visited'
                (List.rev pushed ++ stack')
      end
  end.

(** Every edge of the window is pushed at most once, and the start once. *)
Definition reachFuel (edges : list Edge) : nat := S (length edges).

Definition canReachFeeder (fuel : nat) (succs : gmap nat (list nat))
  (startId : nat) (feederIds : gset nat) : option bool :=
  reachLoop fuel succs startId feederIds ∅ [startId].

(** The pruning loop: a node still in [feederIds] leaves it when the search
    started from it meets another member. *)
Definition pruneStep (fuel : nat) (succs : gmap nat (list nat))
  (acc : option (gset nat)) (n : Node) : option (gset nat) :=
  match acc with
  | None => None
  | Some feederIds =>
      if negb (bool_decide (Node.id n ∈ feederIds)) then Some feederIds
      else match canReachFeeder fuel succs (Node.id n) feederIds with
           | Some true => Some (feederIds ∖ {[Node.id n]})
           | Some false => Some feederIds
           | None => None
           end
  end.

Definition pruneFeeders (fuel : nat) (succs : gmap nat (list nat))
  (faninWindow : list Node) (faninIds : gset nat) : option (gset nat) :=
  List.fold_left (pruneStep fuel succs) faninWindow (Some faninIds).

(** The body of the loop that adds the fan-in edges; [n] is an entry of the
    arena, read as it is. *)
Definition feedStep (connectorNode : Node) (feederIds : gset nat)
  (gb : GraphBuilder) (n : Node) : GraphBuilder :=
  if metaIsLoopOrNext (Node.meta n) then gb
  else if negb (bool_decide (Node.id n ∈ feederIds)) then gb
  else if negb (hasEdge (GB.edges gb) (Node.id n) (Node.id connectorNode) None)
       then pushEdge (edge (Node.id n) (Node.id connectorNode)) gb
       else gb.

Definition connectorFallthrough (connectorNode : Node) (gb : GraphBuilder)
  : GraphBuilder :=
  let connectorHasOut :=
    existsb (fun e => Edge.from e =? Node.id connectorNode) (GB.edges gb) in
  if negb connectorHasOut then
    match List.find (fun n => negb (Node.id n =? Node.id connectorNode)
                              && isNonSentinel n
                              && (Node.indent n =? Node.indent connectorNode)
                              && (Node.line connectorNode <? Node.line n))
            (GB.nodes gb) with
    | Some nextAtIndent =>
        pushEdge (edge (Node.id connectorNode) (Node.id nextAtIndent)) gb
    | None => gb
    end
  else gb.

Definition faninWindowOf (connectorNode : Node) (gb : GraphBuilder) : list Node :=
  let startLine :=
    findStartLine (GB.nodes gb) (Node.indent connectorNode) (Node.line connectorNode) in
  List.filter (inFaninWindow connectorNode startLine) (GB.nodes gb).

Definition idSet (l : list Node) : gset nat := list_to_set (List.map Node.id l).

(** The feeder set left by the pruning loop of [computeConnectorFanin]. *)
Definition feedersOf (connectorNode : Node) (gb : GraphBuilder) : option (gset nat) :=
  let faninWindow := faninWindowOf connectorNode gb in
  let faninIds := idSet faninWindow in
  let succs := succsInWindow faninIds (GB.edges gb) in
  pruneFeeders (reachFuel (GB.edges gb)) succs faninWindow faninIds.

Definition computeConnectorFanin (connectorNode : Node) (gb : GraphBuilder)
  : option GraphBuilder :=
  match feedersOf connectorNode gb with
  | None => None
  | Some feederIds =>
      let gb1 :=
        List.fold_left (feedStep connectorNode feederIds)
          (faninWindowOf connectorNode gb) gb in
      Some (connectorFallthrough connectorNode gb1)
  end.

(** ** The parser driver *)

Module DC.
(** [tails] is a JavaScript [Map]: its entries stay in the order in which
    their keys were first inserted. *)
Record t := mk {
  header : Node;
  branches : list Node;
  tails : list (nat * Node);
  labels : option (list jsstring);
  branchIndent : option nat;
  hasExplicitSpec : bool
}.
End DC.
Abbreviation DecisionContext := DC.t.

Module FC.
Record t := mk {
  header : Node;
  bodyNodeIds : list nat;
  lastBodyNodeId : option nat
}.
End FC.
Abbreviation FunContext := FC.t.

(** [map.get(k)] and [map.set(k, v)] on an insertion-ordered map. *)
Definition mapGet {V} (m : list (nat * V)) (k : nat) : option V :=
  option_map snd (List.find (fun kv => fst kv =? k) m).

Fixpoint mapSet {V} (m : list (nat * V)) (k : nat) (v : V) : list (nat * V) :=
  match m with
  | [] => [(k, v)]
  | (k', v') :: r => if k' =? k then (k, v) :: r else (k', v') :: mapSet r k v
  end.

Definition inDecisionRange (ctx : DecisionContext) (seg : LogicalSegment) : bool :=
  let baseIndent := default (Node.indent (DC.header ctx)) (DC.branchIndent ctx) in
  baseIndent <=? Seg.indent seg.

(** The variables of one call of [parseivx]: the builder and the locals the
    closures share.  Both stacks keep their top at the head of the list. *)
Module Drv.
Record t := mk {
  gb : GraphBuilder;
  lastNode : option Node;
  currentBranchIndex : option nat;
  decisionStack : list DecisionContext;
  funStack : list FunContext
}.

Definition with_gb (g : GraphBuilder) (s : t) : t :=
  mk g (lastNode s) (currentBranchIndex s) (decisionStack s) (funStack s).
Definition with_lastNode (n : option Node) (s : t) : t :=
  mk (gb s) n (currentBranchIndex s) (decisionStack s) (funStack s).
Definition with_currentBranchIndex (i : option nat) (s : t) : t :=
  mk (gb s) (lastNode s) i (decisionStack s) (funStack s).
Definition with_decisionStack (d : list DecisionContext) (s : t) : t :=
  mk (gb s) (lastNode s) (currentBranchIndex s) d (funStack s).
Definition with_funStack (f : list FunContext) (s : t) : t :=
  mk (gb s) (lastNode s) (currentBranchIndex s) (decisionStack s) f.
End Drv.
Abbreviation Driver := Drv.t.

(** What can go wrong at run time: a non-null assertion on an absent value,
    or a search that does not finish within its bound. *)
Inductive Fault := NullAssertion | SearchOutOfFuel.

Inductive Res (A : Type) :=
| Done (a : A)
| Raised (f : Fault).
Arguments Done {A} a.
Arguments Raised {A} f.

Definition M (A : Type) : Type := Driver -> Res (A * Driver).

#[global] Instance M_ret : MRet M := fun A a s => Done (a, s).
#[global] Instance M_bind : MBind M := fun A B f m s =>
  match m s with
  | Done (a, s') => f a s'
  | Raised e => Raised e
  end.

Definition raise {A} (f : Fault) : M A := fun _ => Raised f.
Definition gets {A} (f : Driver -> A) : M A := fun s => Done (f s, s).
Definition modify (f : Driver -> Driver) : M unit := fun s => Done (tt, f s).
Definition skip : M unit := mret tt.

(** [x!] *)
Definition assertSome {A} (o : option A) : M A :=
  match o with
  | Some a => mret a
  | None => raise NullAssertion
  end.

Definition onGB (f : GraphBuilder -> GraphBuilder) : M unit :=
  modify (fun s => Drv.with_gb (f (Drv.gb s)) s).

Definition setLastExecutableNode (n : option Node) : M unit :=
  onGB (GB.with_lastExecutableNode n).
Definition setCurrentBranchIndex (i : option nat) : M unit :=
  modify (Drv.with_currentBranchIndex i).
Definition setDecisionStack (d : list DecisionContext) : M unit :=
  modify (Drv.with_decisionStack d).
Definition setFunStack (f : list FunContext) : M unit :=
  modify (Drv.with_funStack f).
Definition setLastNode (n : option Node) : M unit :=
  modify (Drv.with_lastNode n).
(** [stack.push(ctx)] *)
Definition pushDecision (ctx : DecisionContext) : M unit :=
  modify (fun s => Drv.with_decisionStack (ctx :: Drv.decisionStack s) s).
Definition pushFun (ctx : FunContext) : M unit :=
  modify (fun s => Drv.with_funStack (ctx :: Drv.funStack s) s).

Definition makeNodeM (kind : NodeKind) (seg : LogicalSegment) (text : jsstring)
  : M Node :=
  fun s => let '(n, g) := makeNode kind seg text (Drv.gb s) in
           Done (n, Drv.with_gb g s).

(** [gb.computeConnectorFanin(node)]; the search inside it is bounded. *)
Definition computeConnectorFaninM (connectorNode : Node) : M unit :=
  fun s => match computeConnectorFanin connectorNode (Drv.gb s) with
           | Some g => Done (tt, Drv.with_gb g s)
           | None => Raised SearchOutOfFuel
           end.

(** [node.meta = m] *)
Definition gbSetMeta (node : Node) (m : jsstring) (gb : GraphBuilder) : GraphBuilder :=
  GB.with_nodes (updateMeta (fun _ => Some m) (Node.id node) (GB.nodes gb)) gb.

(** A context object that a handler mutates is always the one on top of its
    stack: the mutation replaces the top entry. *)
Definition replaceTopDecision (ctx : DecisionContext) : M unit :=
  modify (fun s => Drv.with_decisionStack (ctx :: List.tl (Drv.decisionStack s)) s).
Definition replaceTopFun (ctx : FunContext) : M unit :=
  modify (fun s => Drv.with_funStack (ctx :: List.tl (Drv.funStack s)) s).

Definition inFun : M (option FunContext) := gets (fun s => List.head (Drv.funStack s)).
Definition currentDecision : M (option DecisionContext) :=
  gets (fun s => List.head (Drv.decisionStack s)).

Definition registerInFun (node : Node) : M unit :=
  topFun ← inFun;
  match topFun with
  | None => skip
  | Some topFun =>
      let fromId := default (Node.id (FC.header topFun)) (FC.lastBodyNodeId topFun) in
      nodes ← gets (fun s => GB.nodes (Drv.gb s));
      let fromNode := List.find (fun n => Node.id n =? fromId) nodes in
      let meta := match fromNode with Some n => Node.meta n | None => None end in
      let isLoopOrNext := metaIsLoopOrNext meta in
      (if bool_decide (is_Some fromNode) && negb isLoopOrNext
       then onGB (pushEdge (edge fromId (Node.id node))) else skip);;
      replaceTopFun (FC.mk (FC.header topFun)
                       (FC.bodyNodeIds topFun ++ [Node.id node])
                       (Some (Node.id node)));;
      onGB (gbAppendMeta node
              (lit "fun-body-of=" ++ toString (Node.id (FC.header topFun))))
  end.

Definition createExecutableNode (kind : NodeKind) (seg : LogicalSegment)
  (text : jsstring) (gram : Grammar) (skipFunRegister : bool) : M Node :=
  node ← makeNodeM kind seg text;
  onGB (finalizeNode node gram);;
  setLastNode (Some node);;
  (if negb skipFunRegister then registerInFun node else skip);;
  mret node.

(** The [while (decisionStack.length)] loop of [popObsoleteDecisions];
    [stack] is what is left of the decision stack. *)
Fixpoint popObsoleteLoop (seg : LogicalSegment) (speckey : option jsstring)
  (stack : list DecisionContext) : M unit :=
  match stack with
  | [] => skip
  | top :: rest =>
      let cutoff := default (Node.indent (DC.header top)) (DC.branchIndent top) in
      if Seg.indent seg <? cutoff then
        setDecisionStack rest;;
        setCurrentBranchIndex None;;
        popObsoleteLoop seg speckey rest
      else
        let atDecisionLevel := Seg.indent seg =? cutoff in
        let hasSpec := isElseOrThen speckey in
        if atDecisionLevel && negb hasSpec && DC.hasExplicitSpec top then
          setDecisionStack rest;;
          let lastTail := List.last (List.map (fun kv => Some (snd kv)) (DC.tails top)) None in
          setLastExecutableNode (Some (default (DC.header top) lastTail));;
          setCurrentBranchIndex None;;
          popObsoleteLoop seg speckey rest
        else skip
  end.

Definition popObsoleteDecisions (seg : LogicalSegment) (speckey : option jsstring)
  : M unit :=
  stack ← gets Drv.decisionStack;
  popObsoleteLoop seg speckey stack.

Record AttachResult := mkAttach {
  branchIndex : option nat;
  attachedLast : option Node
}.

Definition attachElseNodeToDecision (ctx : DecisionContext) (node : Node)
  : M AttachResult :=
  let branchIndex := length (DC.branches ctx) in
  let lbl :=
    match DC.labels ctx with
    | Some ls => List.nth_error ls branchIndex
    | None => None
    end in
  onGB (pushEdge (Edge.mk (Node.id (DC.header ctx)) (Node.id node) lbl));;
  replaceTopDecision
    (DC.mk (DC.header ctx) (DC.branches ctx ++ [node])
       (mapSet (DC.tails ctx) branchIndex node) (DC.labels ctx)
       (DC.branchIndent ctx) true);;
  mret (mkAttach (Some branchIndex) (Some node)).

Definition attachThenNodeToDecision (ctx : DecisionContext) (node : Node)
  (currentBranchIndex : option nat) : M AttachResult :=
  let branchIndex :=
    match currentBranchIndex with
    | None => if 0 <? length (DC.branches ctx)
              then Some (length (DC.branches ctx) - 1) else None
    | Some _ => currentBranchIndex
    end in
  let fallback : M AttachResult :=
    onGB (wireSequential node true);;
    l ← gets (fun s => GB.lastExecutableNode (Drv.gb s));
    mret (mkAttach None l) in
  match branchIndex with
  | Some bi =>
      match mapGet (DC.tails ctx) bi with
      | Some tail =>
          onGB (pushEdge (edge (Node.id tail) (Node.id node)));;
          replaceTopDecision
            (DC.mk (DC.header ctx) (DC.branches ctx)
               (mapSet (DC.tails ctx) bi node) (DC.labels ctx)
               (DC.branchIndent ctx) true);;
          mret (mkAttach (Some bi) (Some node))
      | None => fallback
      end
  | None => fallback
  end.

Definition keyIs (k : option jsstring) (s : jsstring) : bool :=
  match k with
  | Some x => str_eqb x s
  | None => false
  end.

Definition wireIntoDecisionIfAny (node : Node) (seg : LogicalSegment)
  (speckey : option jsstring) : M bool :=
  ctx ← currentDecision;
  match ctx with
  | None => mret false
  | Some ctx =>
      if negb (isElseOrThen speckey) || negb (inDecisionRange ctx seg) then mret false
      else if keyIs speckey (lit "else") then
        res ← attachElseNodeToDecision ctx node;
        setCurrentBranchIndex (branchIndex res);;
        mret true
      else
        cbi ← gets Drv.currentBranchIndex;
        res ← attachThenNodeToDecision ctx node cbi;
        setCurrentBranchIndex (branchIndex res);;
        setLastExecutableNode (attachedLast res);;
        mret true
  end.

Definition wireSequentialUnlessInFun (node : Node) : M unit :=
  f ← inFun;
  if bool_decide (is_Some f) then skip else onGB (wireSequential node true).

Definition handleExecutableNode (kind : NodeKind) (seg : LogicalSegment)
  (gram : Grammar) (trimmedCode : jsstring) (speckey : option jsstring) : M Node :=
  node ← createExecutableNode kind seg trimmedCode gram false;
  wired ← wireIntoDecisionIfAny node seg speckey;
  if (wired : bool) then mret node
  else
    popObsoleteDecisions seg speckey;;
    wireSequentialUnlessInFun node;;
    mret node.

Definition handleBareElseThen (seg : LogicalSegment) (gram : Grammar) : M unit :=
  let speckey := speckey gram in
  let trimmedCode := trimmedCode gram in
  popObsoleteDecisions seg speckey;;
  ctx ← currentDecision;
  match ctx with
  | None => handleExecutableNode Process seg gram trimmedCode speckey;; skip
  | Some ctx =>
      let ctx' :=
        if keyIs speckey (lit "else") && negb (bool_decide (is_Some (DC.branchIndent ctx)))
        then DC.mk (DC.header ctx) (DC.branches ctx) (DC.tails ctx) (DC.labels ctx)
               (Some (Seg.indent seg)) (DC.hasExplicitSpec ctx)
        else ctx in
      replaceTopDecision ctx';;
      if Seg.indent seg <? Node.indent (DC.header ctx') then
        handleExecutableNode Process seg gram trimmedCode speckey;; skip
      else
        node ← createExecutableNode Process seg trimmedCode gram false;
        wired ← wireIntoDecisionIfAny node seg speckey;
        if (wired : bool) then skip else wireSequentialUnlessInFun node
  end.

(** [/\}\s*$/.test(s)] *)
Definition endsWithBrace (s : jsstring) : bool :=
  match dropWhile isWhiteSpace (List.rev s) with
  | c :: _ => N.eqb c Ch.rbrace
  | [] => false
  end.

Definition closeFun (seg : LogicalSegment) : M bool :=
  stack ← gets Drv.funStack;
  match stack with
  | [] => mret false
  | funCtx :: rest =>
      let trimmedEnd := trimEnd (Seg.code seg) in
      if negb (endsWithBrace trimmedEnd) then mret false
      else
        setFunStack rest;;
        let header := FC.header funCtx in
        (if 0 <? length (FC.bodyNodeIds funCtx) then
           onGB (gbAppendMeta header
                   (lit "fun-body=[" ++ join (lit ",") (List.map toString (FC.bodyNodeIds funCtx))
                    ++ lit "]"));;
           let footerText := trim trimmedEnd in
           let footerGram := mkGram None None [] footerText in
           footerNode ← createExecutableNode Process seg footerText footerGram true;
           onGB (gbAppendMeta footerNode
                   (lit "fun-footer-of=" ++ toString (Node.id header)));;
           lastBodyId ← assertSome (FC.lastBodyNodeId funCtx);
           onGB (pushEdge (edge lastBodyId (Node.id footerNode)));;
           setLastExecutableNode (Some footerNode)
         else skip);;
        setCurrentBranchIndex None;;
        mret true
  end.

(** [!s] on a [string | null]: absent or empty. *)
Definition falsy (k : option jsstring) : bool :=
  match k with
  | Some (_ :: _) => false
  | _ => true
  end.

Definition handleFunOpen (seg : LogicalSegment) (gram : Grammar) : M unit :=
  let afterFun := trim (trimmedCode gram) in
  let isCollapsed := startsWith [Ch.bang] afterFun in
  let afterFun' :=
    if isCollapsed then dropWhile isWhiteSpace (List.skipn 1 afterFun) else afterFun in
  let funName := trim afterFun' in
  let headerText :=
    if isCollapsed then lit "fun! " ++ funName else lit "fun " ++ funName in
  funNode ← createExecutableNode Process seg headerText
              (mkGram (speckey gram) None (linekey gram) headerText) true;
  onGB (gbAppendMeta funNode
          (lit "fun-block " ++ (if isCollapsed then lit "collapsed" else lit "expanded")));;
  onGB (wireSequential funNode true);;
  pushFun (FC.mk funNode [] None);;
  setCurrentBranchIndex None.

Definition handleEnd (seg : LogicalSegment) (gram : Grammar) : M unit :=
  let speckey := speckey gram in
  ctx ← currentDecision;
  endNode ← createExecutableNode End seg (trimmedCode gram) gram false;
  onGB (gbAppendMeta endNode (lit "explicit end"));;
  let inRange :=
    match ctx with
    | Some c => inDecisionRange c seg
    | None => false
    end in
  if inRange then
    (if keyIs speckey (lit "else") || keyIs speckey (lit "then")
     then wireIntoDecisionIfAny endNode seg speckey;; skip
     else setCurrentBranchIndex None);;
    setLastExecutableNode None
  else
    setCurrentBranchIndex None;;
    nodes ← gets (fun s => GB.nodes (Drv.gb s));
    setLastExecutableNode (findPrevSequentialCandidate nodes endNode).

Definition handleDecision (seg : LogicalSegment) (gram : Grammar) : M unit :=
  let speckey := speckey gram in
  popObsoleteDecisions seg speckey;;
  setCurrentBranchIndex None;;
  let headerText := trimmedCode gram in
  let labels := splitDecisionLabels headerText in
  decisionNode ← createExecutableNode Decision seg headerText gram false;
  outerCtx ← currentDecision;
  let inOuterRange :=
    match outerCtx with
    | Some c => inDecisionRange c seg
    | None => false
    end in
  (if inOuterRange && isElseOrThen speckey then
     if keyIs speckey (lit "else") then
       c ← assertSome outerCtx;
       res ← attachElseNodeToDecision c decisionNode;
       setCurrentBranchIndex (branchIndex res)
     else
       c ← assertSome outerCtx;
       cbi ← gets Drv.currentBranchIndex;
       res ← attachThenNodeToDecision c decisionNode cbi;
       setCurrentBranchIndex (branchIndex res);;
       setLastExecutableNode (attachedLast res)
   else wireSequentialUnlessInFun decisionNode);;
  let manyLabels := 1 <? length labels in
  let ctx := DC.mk decisionNode [] [] (if manyLabels then Some labels else None)
               None false in
  (if manyLabels then
     onGB (gbSetMeta decisionNode
             (lit "labels: [" ++ join (lit ", ") labels ++ lit "]"))
   else skip);;
  pushDecision ctx.

Definition handleConnector (seg : LogicalSegment) (gram : Grammar) : M unit :=
  let connectorText := trimmedCode gram in
  connectorNode ← createExecutableNode Connector seg
                    (match connectorText with [] => lit "ii" | _ => connectorText end)
                    gram false;
  onGB (GB.with_lastConnectorLikeNode (Some connectorNode));;
  setLastExecutableNode (Some connectorNode);;
  popObsoleteDecisions seg (speckey gram);;
  computeConnectorFaninM connectorNode;;
  setLastExecutableNode (Some connectorNode);;
  wireSequentialUnlessInFun connectorNode.

(** What the body of the main loop does with a segment that has a grammar
    and did not close a function. *)
Definition dispatch (seg : LogicalSegment) (gram : Grammar) : M unit :=
  let nodekey := nodekey gram in
  let speckey := speckey gram in
  if keyIs nodekey (lit "fun") then handleFunOpen seg gram
  else if isElseOrThen speckey && falsy nodekey then handleBareElseThen seg gram
  else if keyIs nodekey (lit "end") then handleEnd seg gram
  else if keyIs nodekey (lit "im") || keyIs nodekey (lit "ex") then
    handleExecutableNode (if keyIs nodekey (lit "im") then Input else Output)
      seg gram (trimmedCode gram) speckey;; skip
  else if keyIs nodekey (lit "dec") then handleDecision seg gram
  else if keyIs nodekey (lit "ii") then handleConnector seg gram
  else handleExecutableNode Process seg gram (trimmedCode gram) speckey;; skip.

(** The body of [for (const seg of segments)]. *)
Definition step (seg : LogicalSegment) : M unit :=
  if (length (trim (Seg.code seg)) =? 0) && negb (length (trim (Seg.comment seg)) =? 0)
  then
    let c := trim (Seg.comment seg) in
    lastNode ← gets Drv.lastNode;
    match lastNode with
    | Some n => onGB (gbAppendMeta n c)
    | None => skip
    end
  else
    closed ← closeFun seg;
    if (closed : bool) then skip
    else match SegGram seg with
         | None => skip
         | Some gram => dispatch seg gram
         end.

Fixpoint forEach {A} (l : list A) (body : A -> M unit) : M unit :=
  match l with
  | [] => skip
  | x :: r => body x;; forEach r body
  end.

(** Finalisation, after the last segment. *)
Definition resolvePending (gb : GraphBuilder) (node : Node) : GraphBuilder :=
  match findNextConnector (GB.nodes gb) node with
  | Some nextConn =>
      if negb (existsb (fun e => (Edge.from e =? Node.id node)
                                 && (Edge.to e =? Node.id nextConn)) (GB.edges gb))
      then pushEdge (edge (Node.id node) (Node.id nextConn)) gb
      else gb
  | None => gb
  end.

Definition wireStart (gb : GraphBuilder) : GraphBuilder :=
  let nonStartEnd := List.filter isNonSentinel (GB.nodes gb) in
  let startHasEdge := existsb (fun e => Edge.from e =? Node.id startNode) (GB.edges gb) in
  match nonStartEnd with
  | first :: _ =>
      if negb startHasEdge then pushEdge (edge (Node.id startNode) (Node.id first)) gb
      else gb
  | [] => gb
  end.

Definition wireLeadingConnector (gb : GraphBuilder) : GraphBuilder :=
  let nonStartEnd := List.filter isNonSentinel (GB.nodes gb) in
  match nonStartEnd with
  | first :: second :: _ =>
      if kind_eqb (Node.kind second) Connector
         && negb (existsb (fun e => (Edge.from e =? Node.id first)
                                    && (Edge.to e =? Node.id second)) (GB.edges gb))
      then pushEdge (edge (Node.id first) (Node.id second)) gb
      else gb
  | _ => gb
  end.

Definition synthesizeEnd (gb : GraphBuilder) : Graph :=
  let executableNodes :=
    List.filter (fun n => negb (kind_eqb (Node.kind n) End)) (GB.nodes gb) in
  let '(fallthroughNode, endLabel) :=
    match List.last (List.map Some executableNodes) None with
    | Some n => (n, lit "implicit end")
    | None => (startNode, lit "implicit end (empty doc)")
    end in
  let '(implicitEnd, gb1) :=
    createImplicitEnd (Node.line fallthroughNode) (Node.segmentIndex fallthroughNode)
      endLabel gb in
  let gb2 := pushEdge (edge (Node.id fallthroughNode) (Node.id implicitEnd)) gb1 in
  Graph.mk (GB.nodes gb2) (GB.edges gb2) (Some (Node.id startNode))
    (Some (Node.id implicitEnd)).

Definition finalize (gb : GraphBuilder) : Graph :=
  let gb1 := List.fold_left resolvePending (GB.pendingNextNodes gb) gb in
  synthesizeEnd (wireLeadingConnector (wireStart gb1)).

Definition initialDriver : Driver :=
  Drv.mk newGraphBuilder (Some startNode) None [] [].

Definition parseivx (text : jsstring) : Res Graph :=
  match forEach (collectSegments text) step initialDriver with
  | Done (_, s) => Done (finalize (Drv.gb s))
  | Raised f => Raised f
  end.

(** [buildGraph] of the host: parse, then validate. *)
Definition buildGraph (text : jsstring) : Res (Graph * list jsstring) :=
  match parseivx text with
  | Done g => Done (g, validNodeIO (Graph.nodes g) (Graph.edges g))
  | Raised f => Raised f
  end.

Definition nl : jsstring := [Ch.lf].
Definition tb : jsstring := [Ch.tab].

Definition edgeTriples (g : Graph) : list (nat * nat * jsstring) :=
  List.map (fun e => (Edge.from e, Edge.to e, labelOr (Edge.label e))) (Graph.edges g).
Definition nodeKinds (g : Graph) : list (nat * NodeKind) :=
  List.map (fun n => (Node.id n, Node.kind n)) (Graph.nodes g).

(** ** Notions used to state the properties *)

(** The quote toggles of [splitCodeAndComment], as a function of the text
    read so far. *)
Definition toggleQuote (st : bool * bool) (ch : N) : bool * bool :=
  let '(inSingle, inDouble) := st in
  if N.eqb ch Ch.squote && negb inDouble then (negb inSingle, inDouble)
  else if N.eqb ch Ch.dquote && negb inSingle then (inSingle, negb inDouble)
  else (inSingle, inDouble).

Definition quoteState (s : jsstring) : bool * bool :=
  List.fold_left toggleQuote s (false, false).

(** No hash sign of [s] stands outside quotes. *)
Definition noUnquotedHash (s : jsstring) : Prop :=
  forall i, List.nth_error s i = Some Ch.hash ->
            quoteState (List.firstn i s) <> (false, false).

(** Renumbering of segments, to compare the segments of a text with those
    of its parts. *)
Definition shiftSegment (k : nat) (s : LogicalSegment) : LogicalSegment :=
  Seg.mk (Seg.physicalLine s) (k + Seg.segmentIndex s) (Seg.indent s)
    (Seg.raw s) (Seg.code s) (Seg.comment s).

Definition shiftLine (k : nat) (s : LogicalSegment) : LogicalSegment :=
  Seg.mk (k + Seg.physicalLine s) (Seg.segmentIndex s) (Seg.indent s)
    (Seg.raw s) (Seg.code s) (Seg.comment s).

Definition countChar (c : N) (s : jsstring) : nat :=
  length (List.filter (N.eqb c) s).

(** The text without the carriage return it ends with, if any. *)
Fixpoint chompCR (t : jsstring) : jsstring :=
  match t with
  | [] => []
  | [c] => if N.eqb c Ch.cr then [] else [c]
  | c :: r => c :: chompCR r
  end.

Definition lineCount (t : jsstring) : nat := length (splitLines [] t).

(** In- and out-degree of a node, counted on the edge list. *)
Definition inDeg (edges : list Edge) (id : nat) : nat :=
  length (List.filter (fun e => Edge.to e =? id) edges).
Definition outDeg (edges : list Edge) (id : nat) : nat :=
  length (List.filter (fun e => Edge.from e =? id) edges).

(** The arity table, read as a condition on the two degrees of a node. *)
Definition withinBounds (k : NodeKind) (i o : nat) : Prop :=
  match k with
  | Start => i = 0 /\ o = 1
  | End => i = 1 /\ o = 0
  | Process | Input | Output => i = 1 /\ o = 1
  | Decision => 1 <= i /\ 2 <= o
  | Connector => 1 <= i /\ o = 1
  end.

(** The four bounds of a row, in the order in which they are tested. *)
Inductive Bound := MinIn | MaxIn | MinOut | MaxOut.

Definition violated (k : NodeKind) (i o : nat) (b : Bound) : bool :=
  match b, k with
  | MinIn, Start => false
  | MinIn, _ => i <? 1
  | MaxIn, Start => 0 <? i
  | MaxIn, (Decision | Connector) => false
  | MaxIn, _ => 1 <? i
  | MinOut, End => false
  | MinOut, Decision => o <? 2
  | MinOut, _ => o <? 1
  | MaxOut, End => 0 <? o
  | MaxOut, Decision => false
  | MaxOut, _ => 1 <? o
  end.

Definition boundValue (k : NodeKind) (b : Bound) : nat :=
  match b, k with
  | MinIn, Start => 0
  | MinIn, _ => 1
  | MaxIn, Start => 0
  | MaxIn, _ => 1
  | MinOut, End => 0
  | MinOut, Decision => 2
  | MinOut, _ => 1
  | MaxOut, End => 0
  | MaxOut, _ => 1
  end.

Definition boundMessage (n : Node) (i o : nat) (b : Bound) : jsstring :=
  match b with
  | MinIn => tooFew (nodeInfo n) i (lit "inputs") (boundValue (Node.kind n) b)
  | MaxIn => tooMany (nodeInfo n) i (lit "inputs") (boundValue (Node.kind n) b)
  | MinOut => tooFew (nodeInfo n) o (lit "outputs") (boundValue (Node.kind n) b)
  | MaxOut => tooMany (nodeInfo n) o (lit "outputs") (boundValue (Node.kind n) b)
  end.

(** The messages of one node: one per violated bound, inputs first. *)
Definition violations (edges : list Edge) (n : Node) : list jsstring :=
  if isFunBodyMember n then []
  else
    let i := inDeg edges (Node.id n) in
    let o := outDeg edges (Node.id n) in
    List.map (boundMessage n i o)
      (List.filter (violated (Node.kind n) i o) [MinIn; MaxIn; MinOut; MaxOut]).

(** An edge of the subgraph induced on the candidates [ids], and a directed
    walk of at least one edge in that subgraph. *)
Definition windowEdge (ids : gset nat) (edges : list Edge) (a b : nat) : Prop :=
  exists e, List.In e edges /\ Edge.from e = a /\ Edge.to e = b
            /\ a ∈ ids /\ b ∈ ids.

Definition walk (ids : gset nat) (edges : list Edge) : nat -> nat -> Prop :=
  tc (windowEdge ids edges).

(** A builder state with two statements in a row and a connector after
    them, as the driver has it when it reaches the connector of
    [<blank line> / do a / do b / ii]. *)
Definition chainA : Node := Node.mk 1 Process 1 0 0 (lit "a") None.
Definition chainB : Node := Node.mk 2 Process 2 0 0 (lit "b") None.
Definition chainConnector : Node := Node.mk 3 Connector 3 0 0 (lit "ii") None.
Definition chainBuilder : GraphBuilder :=
  GB.mk [startNode; chainA; chainB; chainConnector] [edge 0 1; edge 1 2] None 4
    (Some chainConnector) (Some chainConnector) [].

Definition chainText : jsstring :=
  nl ++ lit "do a" ++ nl ++ lit "do b" ++ nl ++ lit "ii".

(** The identity of an edge: source, target and label, an absent label
    counting as the empty one. *)
Definition edgeKey (e : Edge) : nat * nat * jsstring :=
  (Edge.from e, Edge.to e, labelOr (Edge.label e)).

(** What never changes in a node once it is in the arena. *)
Definition shape (nodes : list Node) : list (nat * NodeKind) :=
  List.map (fun n => (Node.id n, Node.kind n)) nodes.

(** The invariants of the builder: the ids are 0, 1, 2, ... in creation
    order, the first node is the only [Start] node, and no two edges have
    the same identity. *)
Record gbOk (g : GraphBuilder) : Prop := {
  ok_ids : List.map fst (shape (GB.nodes g)) = List.seq 0 (GB.nextId g);
  ok_kinds : exists rest, List.map snd (shape (GB.nodes g)) = Start :: rest
                          /\ ~ List.In Start rest;
  ok_edges : List.NoDup (List.map edgeKey (GB.edges g))
}.

(** A function context that has body nodes knows the last of them. *)
Definition funOk (fc : FunContext) : Prop :=
  FC.bodyNodeIds fc <> [] -> is_Some (FC.lastBodyNodeId fc).

Definition Inv (s : Driver) : Prop :=
  gbOk (Drv.gb s) /\ List.Forall funOk (Drv.funStack s).

(** A run of [m] from [s] ends without a fault, in a result and a state
    that satisfy [Q]. *)
Definition wp {A} (m : M A) (Q : A -> Driver -> Prop) (s : Driver) : Prop :=
  match m s with
  | Done (a, s') => Q a s'
  | Raised _ => False
  end.

(** The main loop of [parseivx] alone, before finalisation. *)
Definition runSegments (text : jsstring) : Res (unit * Driver) :=
  forEach (collectSegments text) step initialDriver.

(** Two statements in a row, then a connector one level deeper. *)
Definition deeperConnectorText : jsstring :=
  lit "do a" ++ nl ++ lit "do b" ++ nl ++ tb ++ lit "ii x".

(** An edge with both ends among the candidates. *)
Definition inWindowB (ids : gset nat) (e : Edge) : bool :=
  bool_decide (Edge.from e ∈ ids) && bool_decide (Edge.to e ∈ ids).

(** Window edges whose source has not been visited yet: the pushes that
    are still to come in the search loop. *)
Definition pendingEdges (ids : gset nat) (edges : list Edge) (visited : gset nat)
  : nat :=
  length (List.filter
            (fun e => inWindowB ids e && negb (bool_decide (Edge.from e ∈ visited)))
            edges).

(** What the search loop maintains: everything seen is reachable from the
    start, no visited node other than the start is a feeder, and the
    successors of a visited node are visited or waiting on the stack. *)
Record reachInv (ids : gset nat) (edges : list Edge) (startId : nat)
  (feederIds visited : gset nat) (stack : list nat) : Prop := {
  inv_reach : forall x, x ∈ visited \/ List.In x stack ->
                        rtc (windowEdge ids edges) startId x;
  inv_feeder : forall x, x ∈ visited -> x <> startId -> x ∉ feederIds;
  inv_closed : forall x y, x ∈ visited -> windowEdge ids edges x y ->
                           y ∈ visited \/ List.In y stack;
  inv_start : startId ∈ visited \/ List.In startId stack
}.

(** The start reaches a feeder other than itself. *)
Definition reachesFeeder (ids : gset nat) (edges : list Edge) (startId : nat)
  (feederIds : gset nat) : Prop :=
  exists m, m ∈ feederIds /\ m <> startId /\ tc (windowEdge ids edges) startId m.

(** A builder operation that creates no node: the shape of the arena and
    the id counter stay, and the edges stay free of duplicates. *)
Definition gbStep (g g' : GraphBuilder) : Prop :=
  shape (GB.nodes g') = shape (GB.nodes g)
  /\ GB.nextId g' = GB.nextId g
  /\ (List.NoDup (List.map edgeKey (GB.edges g)) ->
      List.NoDup (List.map edgeKey (GB.edges g'))).

(** [m] never faults from a state that satisfies the invariants, and
    leaves them true. *)
Definition pres {A} (m : M A) : Prop :=
  forall s, Inv s -> wp m (fun _ s' => Inv s') s.

(** ** extension.ts: the host-side helpers around the core *)

(** [vscode.Range], by its four numbers, and [vscode.Diagnostic], by its
    range and message (the severity is always [Error]). *)
Record Range := mkRange {
  startLine : nat;
  startCharacter : nat;
  endLine : nat;
  endCharacter : nat
}.

Record Diagnostic := mkDiagnostic {
  range : Range;
  message : jsstring
}.

Definition isDigit (c : N) : bool := N.leb 48 c && N.leb c 57.

(** [parseInt(s, 10)] on a run of decimal digits (exact below 2^53, where
    JavaScript numbers are). *)
Definition parseInt (s : jsstring) : nat :=
  List.fold_left (fun acc c => 10 * acc + N.to_nat (c - 48)) s 0.

(** [error.match(/L(\d+)/)]: the digits after the leftmost [L] that is
    followed by a digit. *)
Fixpoint matchLine (error : jsstring) : option jsstring :=
  match error with
  | [] => None
  | c :: r =>
      if N.eqb c 76 then
        match takeWhile isDigit r with
        | [] => matchLine r
        | d :: ds => Some (d :: ds)
        end
      else matchLine r
  end.

(** The body of the loop of [createDiagnostics]; [lineCount] is
    [doc.lineCount].  A [vscode.Range] refuses a negative line with an
    exception: that is the result [None], reached when the number after
    [L] is 0, or when the document has no line. *)
Definition diagnosticOf (lineCount : nat) (error : jsstring) : option Diagnostic :=
  match matchLine error with
  | Some digits =>
      match parseInt digits with
      | 0 => None
      | S l => Some (mkDiagnostic (mkRange l 0 l 1000) error)
      end
  | None =>
      match lineCount with
      | 0 => None
      | S l => Some (mkDiagnostic (mkRange 0 0 l 1000) error)
      end
  end.

Definition createDiagnostics (lineCount : nat) (errors : list jsstring)
  : option (list Diagnostic) :=
  List.fold_left
    (fun diagnostics error =>
       match diagnostics, diagnosticOf lineCount error with
       | Some ds, Some d => Some (ds ++ [d])
       | _, _ => None
       end)
    errors (Some []).

(** [validateDocument] on a document of the language, by what it hands to
    the diagnostic collection: the diagnostics of the validator's messages,
    or, when the [try] block throws, the single parse-error diagnostic. *)
Inductive ValidationOutcome :=
| Diagnosed (diagnostics : list Diagnostic)
| ParseError.

Definition validateDocument (lineCount : nat) (text : jsstring) : ValidationOutcome :=
  match buildGraph text with
  | Done (_, errors) =>
      match createDiagnostics lineCount errors with
      | Some diagnostics => Diagnosed diagnostics
      | None => ParseError
      end
  | Raised _ => ParseError
  end.

(** [s.indexOf('//')], as the pair [s.slice(0, idx)], [s.slice(idx)]; when
    there is no match the first part is the whole string. *)
Fixpoint splitAtSlashes (s : jsstring) : jsstring * jsstring :=
  match s with
  | [] => ([], [])
  | c :: r =>
      if startsWith (lit "//") s then ([], s)
      else let '(b, cm) := splitAtSlashes r in (c :: b, cm)
  end.

(** The characters of the class of list marks: minus, greater-than and
    star. *)
Definition isListMark (c : N) : bool := N.eqb c 45 || N.eqb c 62 || N.eqb c 42.

(** LineTerminator: what [.] does not match. *)
Definition isLineTerminator (c : N) : bool :=
  N.eqb c 10 || N.eqb c 13 || N.eqb c 8232 || N.eqb c 8233.

(** Group 1 of the pattern matched by [rewriteSegment]: white space, then
    list marks, then white space, each run as long as it can be; the rest
    of the string is group 2. *)
Definition editPrefix (s : jsstring) : jsstring * jsstring :=
  let w1 := takeWhile isWhiteSpace s in
  let s1 := dropWhile isWhiteSpace s in
  let m := takeWhile isListMark s1 in
  let s2 := dropWhile isListMark s1 in
  let w2 := takeWhile isWhiteSpace s2 in
  let s3 := dropWhile isWhiteSpace s2 in
  (w1 ++ m ++ w2, s3).

(** [rewriteSegment(lineText, segmentIndex, newText)].  The match fails,
    and the result is [null], when group 2 would have to cross a line
    terminator. *)
Definition rewriteSegment (lineText : jsstring) (segmentIndex : nat)
  (newText : jsstring) : option jsstring :=
  let '(beforeComment, commentPart) := splitAtSlashes lineText in
  let '(prefix, rest) := editPrefix beforeComment in
  if existsb isLineTerminator rest then None
  else Some (prefix ++ newText ++ commentPart).

(** The text that an edit replaces: group 2 of the match. *)
Definition editableText (lineText : jsstring) : jsstring :=
  snd (editPrefix (fst (splitAtSlashes lineText))).

(** ** Further notions used to state properties *)

(** Order of the segments of a document: by line, then by position in the
    line. *)
Definition segBefore (a b : LogicalSegment) : Prop :=
  Seg.physicalLine a < Seg.physicalLine b
  \/ (Seg.physicalLine a = Seg.physicalLine b
      /\ Seg.segmentIndex a < Seg.segmentIndex b).

(** A label as [splitDecisionLabels] returns it: not empty, without comma,
    without white space at either end. *)
Definition cleanLabel (l : jsstring) : Prop :=
  l <> [] /\ ~ List.In Ch.comma l /\ trim l = l.

(** The last character of [l] is not white space. *)
Definition endsOutsideSpace (l : jsstring) : Prop :=
  match List.rev l with
  | [] => False
  | c :: _ => isWhiteSpace c = false
  end.


(** A connector that lies after [node]: what [findNextConnector] looks
    for. *)
Definition laterConnector (node c : Node) : bool :=
  kind_eqb (Node.kind c) Connector && (Node.line node <? Node.line c).

(** The diagnostic that marks the whole of line [line]. *)
Definition lineDiagnostic (line : nat) (msg : jsstring) : Diagnostic :=
  mkDiagnostic (mkRange line 0 line 1000) msg.

(** Where the source of an edge added by [wireSequential] can come from:
    the start node, the node last executed, or a node of the arena that is
    neither [Start] nor [End]. *)
Definition sequentialOrigin (gb : GraphBuilder) (f : Node) : Prop :=
  f = startNode
  \/ GB.lastExecutableNode gb = Some f
  \/ (List.In f (GB.nodes gb) /\ isNonSentinel f = true).

(** The two sorts of edge that [computeConnectorFanin] adds: from a node of
    the window that is left in the feeder set [F] and carries no loop-back
    or forward-jump tag into the connector, and from the connector to a
    later node at its own indentation that is neither [Start] nor [End]. *)
Definition faninEdge (c : Node) (gb : GraphBuilder) (F : gset nat) (e : Edge) : Prop :=
  exists n, List.In n (faninWindowOf c gb)
            /\ Node.id n ∈ F
            /\ metaIsLoopOrNext (Node.meta n) = false
            /\ e = edge (Node.id n) (Node.id c).

Definition fallthroughEdge (c : Node) (gb : GraphBuilder) (e : Edge) : Prop :=
  exists n, List.In n (GB.nodes gb)
            /\ Node.id n <> Node.id c
            /\ isNonSentinel n = true
            /\ Node.indent n = Node.indent c
            /\ Node.line c < Node.line n
            /\ e = edge (Node.id c) (Node.id n).

(** The same edge under another label. *)
Definition relabel (f : Edge -> option jsstring) (e : Edge) : Edge :=
  Edge.mk (Edge.from e) (Edge.to e) (f e).

(** The first character of [t], if any, is outside the class [p]. *)
Definition headOutside (p : N -> bool) (t : jsstring) : Prop :=
  match t with
  | [] => True
  | c :: _ => p c = false
  end.

(** A replacement text that an edit leaves recognisable: no slash, no line
    terminator, and no white space or list mark in front. *)
Definition plainText (t : jsstring) : Prop :=
  ~ List.In 47%N t
  /\ existsb isLineTerminator t = false
  /\ headOutside isWhiteSpace t
  /\ headOutside isListMark t.

(** ** Notions used to state the invariants of a whole run *)

(** A node without its annotation: what is fixed when the node is made. *)
Definition core (n : Node) : Node := setMeta n None.
Definition cores (nodes : list Node) : list Node := List.map core nodes.

(** Some node of the arena is neither [Start] nor [End]. *)
Definition hasStatement (nodes : list Node) : Prop :=
  existsb isNonSentinel nodes = true.

(** A reference to a node made earlier, other than the start node, and an
    edge between nodes made earlier that does not enter the start node;
    [k] is the number of nodes made so far. *)
Definition refOk (k : nat) (n : Node) : Prop := 1 <= Node.id n < k.
Definition edgeOk (k : nat) (e : Edge) : Prop :=
  Edge.from e < k /\ 1 <= Edge.to e < k.

(** What the builder keeps true of its edges and of the nodes it holds:
    the edges join nodes of the arena and none enters the start node; at
    most one leaves the start node, and then the arena holds a statement;
    the nodes remembered are nodes of the arena. *)
Record gbRefs (g : GraphBuilder) : Prop := {
  r_edges : List.Forall (edgeOk (GB.nextId g)) (GB.edges g);
  r_start : outDeg (GB.edges g) 0 <= 1;
  r_statement : 1 <= outDeg (GB.edges g) 0 -> hasStatement (GB.nodes g);
  r_lastExec : forall n, GB.lastExecutableNode g = Some n -> refOk (GB.nextId g) n;
  r_lastConn : forall n, GB.lastConnectorLikeNode g = Some n -> refOk (GB.nextId g) n;
  r_pending : List.Forall (refOk (GB.nextId g)) (GB.pendingNextNodes g)
}.

(** The source of the edge that [wireSequential] adds: a node with the id
    of the start node, while no edge leaves the start node; the node last
    executed; or a node of the arena that is neither [Start] nor [End]. *)
Definition sequentialSource (gb : GraphBuilder) (f : Node) : Prop :=
  (Node.id f = 0 /\ outDeg (GB.edges gb) 0 = 0)
  \/ GB.lastExecutableNode gb = Some f
  \/ (List.In f (GB.nodes gb) /\ isNonSentinel f = true).

(** A builder operation that makes no node leaves every node as it is,
    apart from its annotation. *)
Definition gbSame (g g' : GraphBuilder) : Prop :=
  cores (GB.nodes g') = cores (GB.nodes g) /\ GB.nextId g' = GB.nextId g.

Definition nid (s : Driver) : nat := GB.nextId (Drv.gb s).
Definition arena (s : Driver) : list Node := GB.nodes (Drv.gb s).

(** The nodes held by a decision context and by a function context are
    nodes made earlier. *)
Definition ctxOk (k : nat) (c : DecisionContext) : Prop :=
  refOk k (DC.header c) /\ List.Forall (fun kv => refOk k (snd kv)) (DC.tails c).
Definition funRefsOk (k : nat) (f : FunContext) : Prop :=
  refOk k (FC.header f) /\ forall i, FC.lastBodyNodeId f = Some i -> 1 <= i < k.

(** The invariant of the driver, beyond [Inv]: the builder keeps [gbRefs],
    both stacks hold nodes made earlier, and an open decision means that
    the arena holds a statement. *)
Record Inv2 (s : Driver) : Prop := {
  i_base : Inv s;
  i_refs : gbRefs (Drv.gb s);
  i_dec : List.Forall (ctxOk (nid s)) (Drv.decisionStack s);
  i_fun : List.Forall (funRefsOk (nid s)) (Drv.funStack s);
  i_statement : Drv.decisionStack s <> [] -> hasStatement (arena s)
}.

(** Where a segment and a node stand: line, position in the line,
    indentation. *)
Definition segPos (seg : LogicalSegment) : nat * nat * nat :=
  (Seg.physicalLine seg, Seg.segmentIndex seg, Seg.indent seg).
Definition nodePos (n : Node) : nat * nat * nat :=
  (Node.line n, Node.segmentIndex n, Node.indent n).

(** A part of the driver makes no node: [keeps]; or it makes exactly one,
    [n], of kind [kind], from the segment [seg]: [makes]. *)
Definition keeps (s s' : Driver) : Prop :=
  cores (arena s') = cores (arena s) /\ nid s' = nid s.
Definition makes (seg : LogicalSegment) (kind : NodeKind) (n : Node)
  (s s' : Driver) : Prop :=
  cores (arena s') = cores (arena s) ++ [core n]
  /\ nid s' = S (nid s) /\ Node.id n = nid s /\ 1 <= nid s
  /\ nodePos n = segPos seg /\ Node.kind n = kind.

(** [m], run from a state that satisfies the invariant and [P], does not
    fault and ends in a state that satisfies the invariant, related to
    the first state by [Q]. *)
Definition spec {A} (P : Driver -> Prop) (m : M A)
  (Q : A -> Driver -> Driver -> Prop) : Prop :=
  forall s, Inv2 s -> P s -> wp m (fun a s' => Inv2 s' /\ Q a s s') s.

(** Reading order on positions and on nodes: by line, then by position in
    the line. *)
Definition posBefore (p q : nat * nat * nat) : Prop :=
  fst (fst p) < fst (fst q)
  \/ (fst (fst p) = fst (fst q) /\ snd (fst p) < snd (fst q)).
Definition nodeBefore (a b : Node) : Prop :=
  Node.line a < Node.line b
  \/ (Node.line a = Node.line b /\ Node.segmentIndex a < Node.segmentIndex b).

(** The text with every line feed turned into carriage return and line
    feed. *)
Definition toCRLF (t : jsstring) : jsstring :=
  List.flat_map (fun c => if N.eqb c Ch.lf then [Ch.cr; Ch.lf] else [c]) t.

(** There is an edge from [a] to [b], whatever its label. *)
Definition joined (edges : list Edge) (a b : nat) : bool :=
  existsb (fun e => (Edge.from e =? a) && (Edge.to e =? b)) edges.

(** * Properties *)

(** ** Segmenter *)

Lemma quoteState_snoc (s : jsstring) (ch : N) :
  quoteState (s ++ [ch]) = toggleQuote (quoteState s) ch.
Proof. unfold quoteState. now rewrite List.fold_left_app. Qed.

Lemma noUnquotedHash_nil : noUnquotedHash [].
Proof. intros [|i] H; discriminate. Qed.

Lemma noUnquotedHash_snoc (s : jsstring) (ch : N) :
  noUnquotedHash s ->
  (ch = Ch.hash -> quoteState s <> (false, false)) ->
  noUnquotedHash (s ++ [ch]).
Proof.
  intros Hs Hch i Hi.
  destruct (Nat.lt_ge_cases i (length s)) as [Hlt | Hge].
  - rewrite List.nth_error_app1 in Hi by exact Hlt.
    rewrite List.firstn_app.
    replace (i - length s) with 0 by lia.
    cbn [List.firstn]. rewrite List.app_nil_r. now apply Hs.
  - rewrite List.nth_error_app2 in Hi by exact Hge.
    destruct (i - length s) as [|k] eqn:E.
    + assert (i = length s) as -> by lia.
      cbn in Hi. injection Hi as ->.
      rewrite List.firstn_app, Nat.sub_diag, List.firstn_all.
      cbn [List.firstn]. rewrite List.app_nil_r. now apply Hch.
    + cbn in Hi. destruct k; discriminate.
Qed.

Lemma splitLoop_spec (raw : jsstring) :
  forall code inSingle inDouble,
    quoteState code = (inSingle, inDouble) ->
    noUnquotedHash code ->
    let '(c, cm) := splitLoop raw code inSingle inDouble in
    (c = code ++ raw /\ cm = [] /\ noUnquotedHash c)
    \/ (code ++ raw = c ++ Ch.hash :: cm
        /\ quoteState c = (false, false) /\ noUnquotedHash c).
Proof.
  induction raw as [|ch rest IH]; intros code inS inD Hq Hn; cbn [splitLoop].
  - left. now rewrite List.app_nil_r.
  - assert (Hstep : forall st, toggleQuote (inS, inD) ch = st ->
               (ch = Ch.hash -> (inS, inD) <> (false, false)) ->
               let '(c, cm) := splitLoop rest (code ++ [ch]) (fst st) (snd st) in
               (c = code ++ ch :: rest /\ cm = [] /\ noUnquotedHash c)
               \/ (code ++ ch :: rest = c ++ Ch.hash :: cm
                   /\ quoteState c = (false, false) /\ noUnquotedHash c)).
    { intros st Hst Hh.
      specialize (IH (code ++ [ch]) (fst st) (snd st)).
      rewrite <- List.app_assoc in IH. cbn [List.app] in IH.
      apply IH.
      - rewrite quoteState_snoc, Hq, Hst. now destruct st.
      - apply noUnquotedHash_snoc; [exact Hn | now rewrite Hq]. }
    destruct (N.eqb ch Ch.squote && negb inD) eqn:E1.
    { apply (Hstep (negb inS, inD)).
      - cbn. now rewrite E1.
      - intros ->. cbn in E1. discriminate. }
    destruct (N.eqb ch Ch.dquote && negb inS) eqn:E2.
    { apply (Hstep (inS, negb inD)).
      - cbn. now rewrite E1, E2.
      - intros ->. cbn in E2. discriminate. }
    destruct (N.eqb ch Ch.hash && negb inS && negb inD) eqn:E3.
    { right.
      apply andb_prop in E3 as [E3 E5]. apply andb_prop in E3 as [E3 E4].
      apply N.eqb_eq in E3. subst ch.
      destruct inS; [discriminate|]. destruct inD; [discriminate|].
      auto. }
    apply (Hstep (inS, inD)).
    + cbn. now rewrite E1, E2.
    + intros -> Hff. injection Hff as -> ->. cbn in E3. discriminate.
Qed.

(** C9. [splitCodeAndComment] loses no character.  Either no hash sign of
    the input stands outside quotes, and then the code is the whole input
    and the comment is empty; or the input is the code, one hash sign and
    the comment, where that hash sign is the first one outside quotes: the
    code before it ends outside quotes and holds no unquoted hash sign. *)
Theorem splitCodeAndComment_lossless (raw : jsstring) :
  let '(c, cm) := splitCodeAndComment raw in
  (c = raw /\ cm = [] /\ noUnquotedHash raw)
  \/ (raw = c ++ [Ch.hash] ++ cm
      /\ quoteState c = (false, false) /\ noUnquotedHash c).
Proof.
  unfold splitCodeAndComment.
  pose proof (splitLoop_spec raw [] false false eq_refl noUnquotedHash_nil) as H.
  destruct (splitLoop raw [] false false) as [c cm].
  cbn [List.app] in H |- *.
  destruct H as [(-> & -> & H) | (-> & Hq & Hn)]; [left | right]; auto.
Qed.

Lemma splitOn_app (sep : N) (a b : jsstring) :
  forall cur, splitOn sep cur (a ++ sep :: b) = splitOn sep cur a ++ splitOn sep [] b.
Proof.
  induction a as [|c a IH]; intros cur; cbn [splitOn List.app].
  - now rewrite N.eqb_refl.
  - destruct (N.eqb c sep); [cbn; f_equal|]; apply IH.
Qed.

Lemma splitOn_length (sep : N) (a : jsstring) :
  forall cur, length (splitOn sep cur a) = S (countChar sep a).
Proof.
  unfold countChar.
  induction a as [|c a IH]; intros cur; cbn [splitOn List.filter]; [reflexivity|].
  rewrite (N.eqb_sym sep c).
  destruct (N.eqb c sep); cbn [length]; now rewrite IH.
Qed.

Lemma splitOn_no_sep (sep : N) (a : jsstring) :
  forall cur piece, ~ List.In sep cur -> List.In piece (splitOn sep cur a) ->
                    ~ List.In sep piece.
Proof.
  induction a as [|c a IH]; intros cur piece Hcur; cbn [splitOn].
  - intros [<- | []]. exact Hcur.
  - destruct (N.eqb c sep) eqn:E.
    + intros [<- | H]; [exact Hcur|]. eapply IH; [|exact H]. intros [].
    + apply IH. rewrite List.in_app_iff. intros [H | [-> | []]]; [tauto|].
      now rewrite N.eqb_refl in E.
Qed.

Lemma indexedFrom_shift {A} (l : list A) (k : nat) :
  indexedFrom k l = List.map (fun p => (k + fst p, snd p)) (indexed l).
Proof.
  unfold indexed. revert k.
  induction l as [|x l IH]; intros k; cbn; [reflexivity|].
  rewrite Nat.add_0_r. f_equal.
  rewrite (IH (S k)), (IH 1), List.map_map.
  apply List.map_ext. intros [i y]. cbn. f_equal. lia.
Qed.

Lemma indexedFrom_app {A} (l1 l2 : list A) (k : nat) :
  indexedFrom k (l1 ++ l2) = indexedFrom k l1 ++ indexedFrom (k + length l1) l2.
Proof.
  revert k. induction l1 as [|x l1 IH]; intros k; cbn.
  - now rewrite Nat.add_0_r.
  - rewrite IH. do 3 f_equal. lia.
Qed.

Lemma indexed_app {A} (l1 l2 : list A) :
  indexed (l1 ++ l2)
  = indexed l1 ++ List.map (fun p => (length l1 + fst p, snd p)) (indexed l2).
Proof.
  unfold indexed at 1 2. rewrite indexedFrom_app. cbn. f_equal.
  apply indexedFrom_shift.
Qed.

Lemma segmentOfPiece_shift (li k i : nat) (piece : jsstring) :
  segmentOfPiece li (k + i) piece
  = List.map (shiftSegment k) (segmentOfPiece li i piece).
Proof.
  unfold segmentOfPiece.
  destruct (forallb isWhiteSpace piece); [reflexivity|].
  now destruct (splitCodeAndComment (dropWhile isSpaceOrTab piece)).
Qed.

Lemma segmentsOfLine_shiftLine (k li : nat) (line : jsstring) :
  segmentsOfLine (k + li) line = List.map (shiftLine k) (segmentsOfLine li line).
Proof.
  unfold segmentsOfLine.
  induction (indexed (splitOn Ch.colon [] line)) as [|[i piece] l IH];
    cbn [List.flat_map]; [reflexivity|].
  rewrite List.map_app, IH. f_equal.
  unfold segmentOfPiece.
  destruct (forallb isWhiteSpace piece); [reflexivity|].
  now destruct (splitCodeAndComment (dropWhile isSpaceOrTab piece)).
Qed.

Lemma flat_map_shifted {A B} (f : nat -> A -> list B) (g : B -> B) (k : nat)
  (l : list (nat * A)) :
  (forall i x, f (k + i) x = List.map g (f i x)) ->
  List.flat_map (fun '(i, x) => f i x) (List.map (fun p => (k + fst p, snd p)) l)
  = List.map g (List.flat_map (fun '(i, x) => f i x) l).
Proof.
  intros H. induction l as [|[i x] l IH]; cbn; [reflexivity|].
  now rewrite List.map_app, <- IH, H.
Qed.

Lemma segmentsOfLine_colon (li : nat) (a b : jsstring) :
  segmentsOfLine li (a ++ Ch.colon :: b)
  = segmentsOfLine li a
    ++ List.map (shiftSegment (S (countChar Ch.colon a))) (segmentsOfLine li b).
Proof.
  unfold segmentsOfLine.
  rewrite splitOn_app, indexed_app, List.flat_map_app, splitOn_length.
  f_equal.
  apply (flat_map_shifted (segmentOfPiece li)).
  intros i x. apply segmentOfPiece_shift.
Qed.

Lemma dropWhile_incl {A} (p : A -> bool) (l : list A) (x : A) :
  List.In x (dropWhile p l) -> List.In x l.
Proof.
  induction l as [|y l IH]; cbn; [tauto|].
  destruct (p y); [right; now apply IH | cbn; tauto].
Qed.

Lemma indexed_In {A} (l : list A) (i : nat) (x : A) :
  List.In (i, x) (indexed l) -> List.In x l.
Proof.
  unfold indexed. generalize 0.
  induction l as [|y l IH]; intros k; cbn; [tauto|].
  intros [H | H]; [left; congruence | right; eapply IH, H].
Qed.

Lemma segment_of_text (text : jsstring) (seg : LogicalSegment) :
  List.In seg (collectSegments text) ->
  ~ List.In Ch.colon (Seg.raw seg)
  /\ splitCodeAndComment (Seg.raw seg) = (Seg.code seg, Seg.comment seg).
Proof.
  unfold collectSegments. rewrite List.in_flat_map.
  intros ([li line] & _ & H).
  unfold segmentsOfLine in H. rewrite List.in_flat_map in H.
  destruct H as ([si piece] & Hp & H).
  apply indexed_In in Hp.
  apply splitOn_no_sep in Hp; [|intros []].
  unfold segmentOfPiece in H.
  destruct (forallb isWhiteSpace piece); [destruct H|].
  destruct (splitCodeAndComment (dropWhile isSpaceOrTab piece)) as [c cm] eqn:E.
  destruct H as [<- | []]. cbn. split; [|exact E].
  intros Hin. apply Hp. eapply dropWhile_incl, Hin.
Qed.

Lemma chompCR_cons (c : N) (r : jsstring) :
  r <> [] -> chompCR (c :: r) = c :: chompCR r.
Proof. destruct r; [congruence | reflexivity]. Qed.

Lemma chompCR_head (c : N) (r : jsstring) :
  chompCR (c :: r) = [] \/ exists r', chompCR (c :: r) = c :: r'.
Proof.
  destruct r as [|c' r].
  - cbn. destruct (N.eqb c Ch.cr); eauto.
  - right. rewrite chompCR_cons by discriminate. eauto.
Qed.

Lemma splitLines_ordinary (c : N) (r cur : jsstring) :
  N.eqb c Ch.lf = false ->
  (forall c' r', r = c' :: r' -> N.eqb c Ch.cr && N.eqb c' Ch.lf = false) ->
  splitLines cur (c :: r) = splitLines (cur ++ [c]) r.
Proof.
  intros E1 E2. cbn [splitLines]. rewrite E1.
  destruct r as [|c' r']; [reflexivity|].
  now rewrite (E2 c' r' eq_refl).
Qed.

Lemma splitLines_at_lf (cur r : jsstring) :
  splitLines cur (Ch.lf :: r) = cur :: splitLines [] r.
Proof. reflexivity. Qed.

Lemma splitLines_at_crlf (cur r : jsstring) :
  splitLines cur (Ch.cr :: Ch.lf :: r) = cur :: splitLines [] r.
Proof. reflexivity. Qed.

Lemma splitLines_lf (t1 t2 : jsstring) :
  forall cur, splitLines cur (t1 ++ Ch.lf :: t2)
              = splitLines cur (chompCR t1) ++ splitLines [] t2.
Proof.
  remember (length t1) as n eqn:Hn. revert t1 Hn.
  induction n as [n IH] using lt_wf_ind. intros t1 Hn cur.
  destruct t1 as [|c r]; [reflexivity|].
  destruct (N.eqb c Ch.lf) eqn:E1.
  { apply N.eqb_eq in E1. subst c.
    destruct r as [|c' r']; [reflexivity|].
    rewrite chompCR_cons by discriminate.
    rewrite <- (List.app_comm_cons _ _ Ch.lf), !splitLines_at_lf.
    rewrite <- (List.app_comm_cons _ _ cur). f_equal.
    apply (IH (length (c' :: r'))); [subst n; cbn; lia | reflexivity]. }
  destruct r as [|c' r'].
  { cbn [List.app chompCR].
    destruct (N.eqb c Ch.cr) eqn:E2.
    - apply N.eqb_eq in E2. subst c. reflexivity.
    - rewrite (splitLines_ordinary c (Ch.lf :: t2) cur), splitLines_at_lf;
        [|exact E1|intros x y [= <- _]; now rewrite E2].
      rewrite (splitLines_ordinary c [] cur); [reflexivity|exact E1|discriminate]. }
  rewrite chompCR_cons by discriminate.
  rewrite <- (List.app_comm_cons _ _ c).
  destruct (N.eqb c Ch.cr && N.eqb c' Ch.lf) eqn:E2.
  - apply andb_prop in E2 as [E2 E3].
    apply N.eqb_eq in E2, E3. subst c c'.
    rewrite <- (List.app_comm_cons _ _ Ch.lf), splitLines_at_crlf.
    destruct r' as [|c'' r'']; [reflexivity|].
    rewrite chompCR_cons by discriminate.
    rewrite splitLines_at_crlf, <- (List.app_comm_cons _ _ cur). f_equal.
    apply (IH (length (c'' :: r''))); [subst n; cbn; lia | reflexivity].
  - rewrite splitLines_ordinary; [|exact E1|].
    2:{ rewrite <- (List.app_comm_cons _ _ c'). intros x y [= <- _]. exact E2. }
    rewrite (IH (length (c' :: r'))); [|subst n; cbn; lia | reflexivity].
    f_equal. symmetry. apply splitLines_ordinary; [exact E1|].
    intros x y Hx.
    destruct (chompCR_head c' r') as [H | [r'' H]]; rewrite H in Hx;
      [discriminate|]. injection Hx as <- _. exact E2.
Qed.

Lemma collectSegments_lf (t1 t2 : jsstring) :
  collectSegments (t1 ++ Ch.lf :: t2)
  = collectSegments (chompCR t1)
    ++ List.map (shiftLine (lineCount (chompCR t1))) (collectSegments t2).
Proof.
  unfold collectSegments, lineCount.
  rewrite splitLines_lf, indexed_app, List.flat_map_app. f_equal.
  apply (flat_map_shifted segmentsOfLine).
  intros i x. apply segmentsOfLine_shiftLine.
Qed.

(** A text without line feed is one line, and a line without colon is
    one piece. *)
Lemma splitLines_single (s : jsstring) :
  ~ List.In Ch.lf s -> forall cur, splitLines cur s = [cur ++ s].
Proof.
  induction s as [|c r IH]; intros Hlf cur.
  - cbn. now rewrite List.app_nil_r.
  - assert (Hc : N.eqb c Ch.lf = false)
      by (apply N.eqb_neq; intros ->; apply Hlf; now left).
    assert (Hr : ~ List.In Ch.lf r) by (intros H; apply Hlf; now right).
    rewrite splitLines_ordinary; [|exact Hc|].
    + rewrite (IH Hr), <- List.app_assoc. reflexivity.
    + intros c' r' ->. apply andb_false_iff. right.
      apply N.eqb_neq. intros ->. apply Hr. now left.
Qed.

Lemma splitOn_single (sep : N) (s : jsstring) :
  ~ List.In sep s -> forall cur, splitOn sep cur s = [cur ++ s].
Proof.
  induction s as [|c r IH]; intros Hs cur; cbn [splitOn].
  - now rewrite List.app_nil_r.
  - assert (Hc : N.eqb c sep = false)
      by (apply N.eqb_neq; intros ->; apply Hs; now left).
    rewrite Hc, IH, <- List.app_assoc; [reflexivity|].
    intros H. apply Hs. now right.
Qed.

Lemma collectSegments_one_line (s : jsstring) :
  ~ List.In Ch.lf s -> collectSegments s = segmentsOfLine 0 s.
Proof.
  intros H. unfold collectSegments. rewrite (splitLines_single s H).
  cbn. apply List.app_nil_r.
Qed.

Lemma collectSegments_one_piece (piece : jsstring) :
  ~ List.In Ch.colon piece -> ~ List.In Ch.lf piece ->
  collectSegments piece
  = if forallb isWhiteSpace piece then []
    else [ Seg.mk 0 0 (computeIndent (takeWhile isSpaceOrTab piece))
             (dropWhile isSpaceOrTab piece)
             (fst (splitCodeAndComment (dropWhile isSpaceOrTab piece)))
             (snd (splitCodeAndComment (dropWhile isSpaceOrTab piece))) ].
Proof.
  intros Hc Hlf. rewrite (collectSegments_one_line _ Hlf).
  unfold segmentsOfLine. rewrite (splitOn_single _ _ Hc). cbn [List.app].
  cbn [indexed indexedFrom List.flat_map]. rewrite List.app_nil_r.
  unfold segmentOfPiece. destruct (forallb isWhiteSpace piece); [reflexivity|].
  now destruct (splitCodeAndComment (dropWhile isSpaceOrTab piece)).
Qed.

Lemma collectSegments_colon (a b : jsstring) :
  ~ List.In Ch.lf a -> ~ List.In Ch.lf b ->
  collectSegments (a ++ Ch.colon :: b)
  = collectSegments a
    ++ List.map (shiftSegment (S (countChar Ch.colon a))) (collectSegments b).
Proof.
  intros Ha Hb.
  rewrite !collectSegments_one_line; [apply segmentsOfLine_colon | exact Hb | exact Ha|].
  rewrite List.in_app_iff. intros [H | [H | H]]; [auto | discriminate | auto].
Qed.

(** C10. [collectSegments] cuts a line at every colon, whatever stands
    before it: the segments of [a : b] are those of [a] followed by those
    of [b], renumbered, so that a colon inside quotes or inside a comment
    starts a new segment like any other.  The same holds for line feeds.
    No segment holds a colon, and the code and comment of a segment are
    split from its own text alone, with both quote toggles off at its
    start.  A piece without colon and line feed gives no segment when it
    is blank, and otherwise exactly one, made from the piece alone; so
    whatever [a] is, the piece after the colon of [a : b] is a segment of
    its own, numbered by the colons before it. *)
Theorem collectSegments_splits_unconditionally :
  (forall li a b,
      segmentsOfLine li (a ++ Ch.colon :: b)
      = segmentsOfLine li a
        ++ List.map (shiftSegment (S (countChar Ch.colon a))) (segmentsOfLine li b))
  /\ (forall t1 t2,
         collectSegments (t1 ++ Ch.lf :: t2)
         = collectSegments (chompCR t1)
           ++ List.map (shiftLine (lineCount (chompCR t1))) (collectSegments t2))
  /\ (forall text seg,
         List.In seg (collectSegments text) ->
         ~ List.In Ch.colon (Seg.raw seg)
         /\ splitCodeAndComment (Seg.raw seg) = (Seg.code seg, Seg.comment seg))
  /\ (forall a b,
         ~ List.In Ch.lf a -> ~ List.In Ch.lf b ->
         collectSegments (a ++ Ch.colon :: b)
         = collectSegments a
           ++ List.map (shiftSegment (S (countChar Ch.colon a))) (collectSegments b))
  /\ (forall piece,
         ~ List.In Ch.colon piece -> ~ List.In Ch.lf piece ->
         collectSegments piece
         = if forallb isWhiteSpace piece then []
           else [ Seg.mk 0 0 (computeIndent (takeWhile isSpaceOrTab piece))
                    (dropWhile isSpaceOrTab piece)
                    (fst (splitCodeAndComment (dropWhile isSpaceOrTab piece)))
                    (snd (splitCodeAndComment (dropWhile isSpaceOrTab piece))) ])
  /\ (forall a b,
         ~ List.In Ch.lf a -> ~ List.In Ch.lf b -> ~ List.In Ch.colon b ->
         forallb isWhiteSpace b = false ->
         List.In
           (Seg.mk 0 (S (countChar Ch.colon a))
              (computeIndent (takeWhile isSpaceOrTab b))
              (dropWhile isSpaceOrTab b)
              (fst (splitCodeAndComment (dropWhile isSpaceOrTab b)))
              (snd (splitCodeAndComment (dropWhile isSpaceOrTab b))))
           (collectSegments (a ++ Ch.colon :: b))).
Proof.
  split; [exact segmentsOfLine_colon|].
  split; [exact collectSegments_lf|].
  split; [exact segment_of_text|].
  split; [exact collectSegments_colon|].
  split; [exact collectSegments_one_piece|].
  intros a b Ha Hb Hc Hw.
  rewrite (collectSegments_colon a b Ha Hb), (collectSegments_one_piece b Hc Hb), Hw.
  apply List.in_or_app. right. cbn [List.map shiftSegment]. left.
  unfold shiftSegment. cbn. now rewrite Nat.add_0_r.
Qed.

(** A colon inside a quoted string and a colon inside a comment each start
    a segment; the closing quote of the cut string opens a quote in the
    next segment, which hides the hash sign there. *)
Example colon_in_quotes_and_comment :
  List.map (fun s => (Seg.segmentIndex s, Seg.code s, Seg.comment s))
    (collectSegments (lit "say 'a:b' # c:d"))
  = [ (0, lit "say 'a", []); (1, lit "b' # c", []); (2, lit "d", []) ].
Proof. vm_compute. reflexivity. Qed.

(** ** Grammar resolver *)

Lemma str_eqb_eq (a b : jsstring) : str_eqb a b = true <-> a = b.
Proof. unfold str_eqb. apply bool_decide_eq_true. Qed.

Lemma has_In (set : list jsstring) (x : jsstring) :
  has set x = true <-> List.In x set.
Proof.
  unfold has. rewrite List.existsb_exists. split.
  - intros (y & Hy & E). apply str_eqb_eq in E. now subst.
  - intros H. exists x. split; [exact H | now apply str_eqb_eq].
Qed.

Lemma spec_key_facts (x : jsstring) :
  has SPEC_KEYS x = true ->
  has NODE_KEYS x = false
  /\ str_eqb x (lit "fun!") = false /\ str_eqb x (lit "fun!{") = false.
Proof.
  intros H. apply has_In in H. cbn in H.
  repeat (destruct H as [<- | H]; [now vm_compute|]). destruct H.
Qed.

Lemma node_key_facts (x : jsstring) :
  has NODE_KEYS x = true ->
  has SPEC_KEYS x = false
  /\ str_eqb x (lit "fun!") = false /\ str_eqb x (lit "fun!{") = false.
Proof.
  intros H. apply has_In in H. cbn in H.
  repeat (destruct H as [<- | H]; [now vm_compute|]). destruct H.
Qed.

Lemma SegGramTokens_two_spec_keys (t0 t1 : jsstring) (rest : list jsstring) :
  has SPEC_KEYS (normalizeIvxToken t0) = true ->
  has SPEC_KEYS (normalizeIvxToken t1) = true ->
  let g := SegGramTokens (t0 :: t1 :: rest) in
  speckey g = Some (normalizeIvxToken t1)
  /\ exists k, k <= 1 /\ linekey g = inlineKeysOf (List.skipn k rest)
               /\ trimmedCode g = labelOf (List.skipn k rest).
Proof.
  intros H0 H1.
  destruct (spec_key_facts _ H0) as (_ & F1 & F2).
  unfold SegGramTokens. cbn [List.nth_error].
  rewrite F1, F2. cbn [orb]. rewrite H0. cbn [List.nth_error]. rewrite H1.
  destruct rest as [|t2 rest']; cbn [List.nth_error].
  - cbn. split; [reflexivity|]. exists 0. auto.
  - destruct (has NODE_KEYS (normalizeIvxToken t2)); cbn;
      (split; [reflexivity|]); [exists 1 | exists 0]; auto.
Qed.

Lemma SegGramTokens_two_node_keys (t0 t1 : jsstring) (rest : list jsstring) :
  has NODE_KEYS (normalizeIvxToken t0) = true ->
  has NODE_KEYS (normalizeIvxToken t1) = true ->
  SegGramTokens (t0 :: t1 :: rest)
  = mkGram None (Some (normalizeIvxToken t1)) (inlineKeysOf rest) (labelOf rest).
Proof.
  intros H0 H1.
  destruct (node_key_facts _ H0) as (S0 & F1 & F2).
  destruct (node_key_facts _ H1) as (S1 & _ & _).
  unfold SegGramTokens. cbn [List.nth_error].
  rewrite F1, F2. cbn [orb]. rewrite S0, H0. cbn [List.nth_error].
  rewrite S1. cbn [List.nth_error]. rewrite H1. reflexivity.
Qed.

Lemma SegGramTokens_same_category (t0 t1 : jsstring) (rest : list jsstring) :
  (has SPEC_KEYS (normalizeIvxToken t0) && has SPEC_KEYS (normalizeIvxToken t1))
  || (has NODE_KEYS (normalizeIvxToken t0) && has NODE_KEYS (normalizeIvxToken t1))
  = true ->
  let g := SegGramTokens (t0 :: t1 :: rest) in
  (if has SPEC_KEYS (normalizeIvxToken t0) then speckey g else nodekey g)
  = Some (normalizeIvxToken t1)
  /\ exists k, k <= 1 /\ linekey g = inlineKeysOf (List.skipn k rest)
               /\ trimmedCode g = labelOf (List.skipn k rest).
Proof.
  intros H. apply orb_prop in H as [H | H]; apply andb_prop in H as [H0 H1].
  - rewrite H0. now apply SegGramTokens_two_spec_keys.
  - cbn zeta. rewrite (SegGramTokens_two_node_keys _ _ _ H0 H1).
    destruct (node_key_facts _ H0) as (-> & _). cbn.
    split; [reflexivity|]. exists 0. auto.
Qed.

(** A string without white space is a single token. *)
Lemma splitWs_single (s : jsstring) :
  forallb (fun c => negb (isWhiteSpace c)) s = true ->
  forall cur, splitWs cur s = [cur ++ s].
Proof.
  induction s as [|c s IH]; intros H cur; cbn [splitWs].
  - now rewrite List.app_nil_r.
  - cbn [forallb] in H. apply andb_prop in H as [Hc H].
    apply negb_true_iff in Hc. rewrite Hc, (IH H), <- List.app_assoc. reflexivity.
Qed.

(** A code whose tokens are two or more is neither empty nor a run of
    backslashes: [SegGram] returns a grammar for it. *)
Lemma SegGram_two_tokens (seg : LogicalSegment) (t0 t1 : jsstring)
  (rest : list jsstring) :
  splitWs [] (trim (Seg.code seg)) = t0 :: t1 :: rest ->
  SegGram seg = Some (SegGramTokens (t0 :: t1 :: rest)).
Proof.
  intros H. unfold SegGram. cbv zeta.
  destruct (trim (Seg.code seg)) as [|c r] eqn:E; [discriminate|].
  cbn [length Nat.eqb orb].
  destruct (onlyBackslashes (c :: r)) eqn:Eb; [|now rewrite H].
  exfalso. unfold onlyBackslashes in Eb. apply andb_prop in Eb as [_ Eb].
  rewrite (splitWs_single (c :: r)) in H; [discriminate|].
  clear -Eb. induction (c :: r) as [|x l IH]; [reflexivity|].
  cbn [forallb] in Eb |- *. apply andb_prop in Eb as [Ex Eb].
  apply N.eqb_eq in Ex. subst x. now rewrite (IH Eb).
Qed.

(** C3, as the code has it.  When the first two tokens of the code of a
    segment are keys of the same category, [SegGram] returns a grammar in
    which both are consumed and the second one is the key that is kept:
    it overwrites the first.  The inline keys and the label are built
    from later tokens only ([k] is 1 when a node key follows two spec
    keys and is consumed too). *)
Theorem SegGram_same_category_second_wins (seg : LogicalSegment)
  (t0 t1 : jsstring) (rest : list jsstring) :
  splitWs [] (trim (Seg.code seg)) = t0 :: t1 :: rest ->
  (has SPEC_KEYS (normalizeIvxToken t0) && has SPEC_KEYS (normalizeIvxToken t1))
  || (has NODE_KEYS (normalizeIvxToken t0) && has NODE_KEYS (normalizeIvxToken t1))
  = true ->
  exists g,
    SegGram seg = Some g
    /\ (if has SPEC_KEYS (normalizeIvxToken t0) then speckey g else nodekey g)
       = Some (normalizeIvxToken t1)
    /\ exists k, k <= 1 /\ linekey g = inlineKeysOf (List.skipn k rest)
                 /\ trimmedCode g = labelOf (List.skipn k rest).
Proof.
  intros Htok H. exists (SegGramTokens (t0 :: t1 :: rest)).
  split; [now apply SegGram_two_tokens|].
  now apply SegGramTokens_same_category.
Qed.

(** The theorem at the segment [else then x]. *)
Lemma SegGram_same_category_second_wins_witness :
  let seg := Seg.mk 0 0 0 (lit "else then x") (lit "else then x") [] in
  splitWs [] (trim (Seg.code seg)) = [lit "else"; lit "then"; lit "x"]
  /\ (has SPEC_KEYS (normalizeIvxToken (lit "else"))
      && has SPEC_KEYS (normalizeIvxToken (lit "then")))
     || (has NODE_KEYS (normalizeIvxToken (lit "else"))
         && has NODE_KEYS (normalizeIvxToken (lit "then"))) = true
  /\ exists g,
       SegGram seg = Some g
       /\ speckey g = Some (lit "then")
       /\ exists k, k <= 1 /\ linekey g = inlineKeysOf (List.skipn k [lit "x"])
                    /\ trimmedCode g = labelOf (List.skipn k [lit "x"]).
Proof.
  intros seg.
  assert (H1 : splitWs [] (trim (Seg.code seg)) = [lit "else"; lit "then"; lit "x"])
    by reflexivity.
  split; [exact H1|]. split; [reflexivity|].
  exact (SegGram_same_category_second_wins seg (lit "else") (lit "then") [lit "x"]
           H1 eq_refl).
Defined.

(** C3, as stated, fails: in [else then x] the key that is kept is [then],
    not the first-encountered [else]; in [dec end x] it is [end], not
    [dec]. *)
Lemma SegGram_first_key_not_honored :
  SegGram (Seg.mk 0 0 0 (lit "else then x") (lit "else then x") [])
  = Some (mkGram (Some (lit "then")) None [] (lit "x"))
  /\ SegGram (Seg.mk 0 0 0 (lit "dec end x") (lit "dec end x") [])
     = Some (mkGram None (Some (lit "end")) [] (lit "x"))
  /\ Some (lit "then") <> Some (lit "else")
  /\ Some (lit "end") <> Some (lit "dec").
Proof. repeat split; try (vm_compute; reflexivity); discriminate. Qed.

(** ** Validator *)

Lemma degrees_lookup (edges : list Edge) :
  forall (mi mo : gmap nat nat) (id : nat),
    default 0 (fst (List.fold_left degreeStep edges (mi, mo)) !! id)
    = default 0 (mi !! id) + inDeg edges id
    /\ default 0 (snd (List.fold_left degreeStep edges (mi, mo)) !! id)
       = default 0 (mo !! id) + outDeg edges id.
Proof.
  unfold inDeg, outDeg.
  induction edges as [|e edges IH]; intros mi mo id; cbn [List.fold_left List.filter].
  - cbn. lia.
  - unfold degreeStep at 2 4.
    destruct (IH (<[Edge.to e := default 0 (mi !! Edge.to e) + 1]> mi)
                 (<[Edge.from e := default 0 (mo !! Edge.from e) + 1]> mo) id)
      as [-> ->].
    rewrite !lookup_insert.
    split.
    + destruct (decide (Edge.to e = id)) as [-> | Hne].
      * rewrite Nat.eqb_refl. cbn. lia.
      * apply Nat.eqb_neq in Hne. rewrite Hne. cbn. lia.
    + destruct (decide (Edge.from e = id)) as [-> | Hne].
      * rewrite Nat.eqb_refl. cbn. lia.
      * apply Nat.eqb_neq in Hne. rewrite Hne. cbn. lia.
Qed.

Lemma fold_left_app_flat_map {A B} (f : A -> list B) (l : list A) :
  forall acc, List.fold_left (fun errors n => errors ++ f n) l acc
              = acc ++ List.flat_map f l.
Proof.
  induction l as [|x l IH]; intros acc; cbn.
  - now rewrite List.app_nil_r.
  - now rewrite IH, List.app_assoc.
Qed.

Lemma nodeErrors_violations (edges : list Edge) (n : Node) :
  nodeErrors (fst (degrees edges)) (snd (degrees edges)) n = violations edges n.
Proof.
  unfold nodeErrors, violations, degrees.
  destruct (isFunBodyMember n); [reflexivity|].
  destruct (degrees_lookup edges ∅ ∅ (Node.id n)) as [-> ->].
  rewrite !lookup_empty. cbn [default Nat.add].
  generalize (inDeg edges (Node.id n)) (outDeg edges (Node.id n)). intros i o.
  destruct (Node.kind n) eqn:K; cbn [NODE_ARITY_RULES minIn maxIn minOut maxOut
      violated List.filter];
    repeat match goal with
           | |- context [?a <? ?b] => destruct (a <? b) eqn:?; try discriminate
           end;
    cbn [List.app List.map boundMessage boundValue]; rewrite ?K; reflexivity.
Qed.

Lemma validNodeIO_flat_map (nodes : list Node) (edges : list Edge) :
  validNodeIO nodes edges = List.flat_map (violations edges) nodes.
Proof.
  unfold validNodeIO.
  pose proof (nodeErrors_violations edges) as H.
  destruct (degrees edges) as [mi mo]. cbn [fst snd] in H.
  rewrite fold_left_app_flat_map. cbn [List.app].
  induction nodes as [|n nodes IH]; cbn; [reflexivity|]. now rewrite H, IH.
Qed.

Lemma violations_nil (edges : list Edge) (n : Node) :
  violations edges n = [] <->
  (isFunBodyMember n = false ->
   withinBounds (Node.kind n) (inDeg edges (Node.id n)) (outDeg edges (Node.id n))).
Proof.
  unfold violations.
  destruct (isFunBodyMember n); [split; [discriminate | reflexivity]|].
  generalize (inDeg edges (Node.id n)) (outDeg edges (Node.id n)). intros i o.
  destruct (Node.kind n); cbn [violated List.filter withinBounds];
    repeat match goal with
           | |- context [?a <? ?b] =>
               let E := fresh "E" in
               destruct (a <? b) eqn:E;
               [apply Nat.ltb_lt in E | apply Nat.ltb_ge in E]
           end;
    cbn [List.map]; split; intros H; try discriminate; try reflexivity;
    try (intros _; lia); try (specialize (H eq_refl); lia).
Qed.

(** C6. [validNodeIO] is a function of the node list and the edge list.
    Its table is the stated one.  Its result is, node after node in list
    order, the messages of the nodes that are not function-body members:
    one message per violated bound, with the in- and out-degree counted on
    the edge list, input bounds before output bounds.  The result is empty
    exactly when every checked node is within its bounds. *)
Theorem validNodeIO_arity_check (nodes : list Node) (edges : list Edge) :
  (NODE_ARITY_RULES Start = mkArity 0 (Some 0) 1 (Some 1)
   /\ NODE_ARITY_RULES End = mkArity 1 (Some 1) 0 (Some 0)
   /\ NODE_ARITY_RULES Process = mkArity 1 (Some 1) 1 (Some 1)
   /\ NODE_ARITY_RULES Input = mkArity 1 (Some 1) 1 (Some 1)
   /\ NODE_ARITY_RULES Output = mkArity 1 (Some 1) 1 (Some 1)
   /\ NODE_ARITY_RULES Decision = mkArity 1 None 2 None
   /\ NODE_ARITY_RULES Connector = mkArity 1 None 1 (Some 1))
  /\ validNodeIO nodes edges = List.flat_map (violations edges) nodes
  /\ (validNodeIO nodes edges = [] <->
      forall n, List.In n nodes -> isFunBodyMember n = false ->
                withinBounds (Node.kind n) (inDeg edges (Node.id n))
                  (outDeg edges (Node.id n))).
Proof.
  split; [repeat split|].
  split; [apply validNodeIO_flat_map|].
  rewrite validNodeIO_flat_map.
  induction nodes as [|n nodes IH]; cbn [List.flat_map].
  - split; [intros _ n [] | reflexivity].
  - split.
    + intros H. apply List.app_eq_nil in H as [H1 H2].
      intros m [<- | Hm]; [now apply violations_nil | now apply IH].
    + intros H.
      assert (H1 : violations edges n = []).
      { apply violations_nil. apply H. now left. }
      rewrite H1. apply IH. intros m Hm. apply H. now right.
Qed.

(** ** Connector fan-in *)

(** The search of [canReachFeeder] decides reachability in the subgraph
    induced on the window [ids], and finishes within its fuel. *)
Section Reach.
Variable ids : gset nat.
Variable edges : list Edge.

Lemma succsStep_lookup (m : gmap nat (list nat)) (e : Edge) (a : nat) :
  default [] (succsStep ids m e !! a)
  = default [] (m !! a)
    ++ (if inWindowB ids e && (Edge.from e =? a) then [Edge.to e] else []).
Proof.
  unfold succsStep, inWindowB.
  destruct (bool_decide (Edge.from e ∈ ids)); cbn [negb orb andb];
    [|now rewrite List.app_nil_r].
  destruct (bool_decide (Edge.to e ∈ ids)); cbn [negb orb andb];
    [|now rewrite List.app_nil_r].
  destruct (Nat.eqb_spec (Edge.from e) a) as [<- | Hne].
  - destruct (m !! Edge.from e) as [arr|] eqn:E;
      now rewrite lookup_insert_eq.
  - destruct (m !! Edge.from e) as [arr|] eqn:E;
      rewrite lookup_insert_ne by exact Hne; now rewrite List.app_nil_r.
Qed.

Lemma succs_fold_lookup (l : list Edge) :
  forall (m : gmap nat (list nat)) (a : nat),
    default [] (List.fold_left (succsStep ids) l m !! a)
    = default [] (m !! a)
      ++ List.map Edge.to
           (List.filter (fun e => inWindowB ids e && (Edge.from e =? a)) l).
Proof.
  induction l as [|e l IH]; intros m a; cbn [List.fold_left List.filter].
  - now rewrite List.app_nil_r.
  - rewrite IH, succsStep_lookup, <- List.app_assoc. f_equal.
    now destruct (inWindowB ids e && (Edge.from e =? a)).
Qed.

Lemma succs_lookup (a : nat) :
  default [] (succsInWindow ids edges !! a)
  = List.map Edge.to
      (List.filter (fun e => inWindowB ids e && (Edge.from e =? a)) edges).
Proof.
  unfold succsInWindow. now rewrite succs_fold_lookup, lookup_empty.
Qed.

Lemma succs_edge (a b : nat) :
  List.In b (default [] (succsInWindow ids edges !! a)) <-> windowEdge ids edges a b.
Proof.
  rewrite succs_lookup, List.in_map_iff. unfold windowEdge, inWindowB.
  split.
  - intros (e & Hb & He). apply List.filter_In in He as [He Hc].
    apply andb_prop in Hc as [Hw Ha]. apply andb_prop in Hw as [Hf Ht].
    apply bool_decide_eq_true in Hf, Ht. apply Nat.eqb_eq in Ha.
    exists e. subst. auto.
  - intros (e & He & Ha & Hb & Hai & Hbi). exists e. split; [exact Hb|].
    apply List.filter_In. split; [exact He|].
    subst. rewrite Nat.eqb_refl, !bool_decide_eq_true_2 by assumption.
    reflexivity.
Qed.

Lemma pendingEdges_le (visited : gset nat) :
  pendingEdges ids edges visited <= length edges.
Proof. unfold pendingEdges. apply List.filter_length_le. Qed.

Lemma pendingEdges_visit (visited : gset nat) (id : nat) :
  id ∉ visited ->
  pendingEdges ids edges visited
  = pendingEdges ids edges ({[id]} ∪ visited)
    + length (default [] (succsInWindow ids edges !! id)).
Proof.
  intros Hid. rewrite succs_lookup, List.length_map. unfold pendingEdges.
  induction edges as [|e l IH]; cbn [List.filter]; [reflexivity|].
  destruct (inWindowB ids e); cbn [andb]; [|exact IH].
  destruct (Nat.eqb_spec (Edge.from e) id) as [E | E].
  - rewrite bool_decide_eq_false_2 by (rewrite E; exact Hid).
    rewrite bool_decide_eq_true_2
      by (apply elem_of_union; left; now apply elem_of_singleton).
    cbn [negb length]. rewrite IH. lia.
  - destruct (decide (Edge.from e ∈ visited)) as [Hv | Hv].
    + rewrite (bool_decide_eq_true_2 _ Hv).
      rewrite bool_decide_eq_true_2 by (apply elem_of_union; now right).
      exact IH.
    + rewrite (bool_decide_eq_false_2 _ Hv).
      rewrite bool_decide_eq_false_2.
      * cbn [negb length]. now rewrite IH.
      * rewrite elem_of_union, elem_of_singleton. tauto.
Qed.

Variable startId : nat.
Variable feederIds : gset nat.

(** The loop finishes within its fuel. *)
Lemma reachLoop_total (fuel : nat) :
  forall visited stack,
    length stack + pendingEdges ids edges visited <= fuel ->
    exists b,
      reachLoop fuel (succsInWindow ids edges) startId feederIds visited stack
      = Some b.
Proof.
  induction fuel as [|fuel IH]; intros visited stack Hm.
  - destruct stack; [eexists; reflexivity | cbn in Hm; lia].
  - destruct stack as [|id stack']; [eexists; reflexivity|].
    cbn [reachLoop].
    destruct (bool_decide (id ∈ visited)) eqn:Ev.
    + apply IH. cbn in Hm. lia.
    + destruct (negb (id =? startId) && bool_decide (id ∈ feederIds));
        [eexists; reflexivity|].
      apply IH.
      apply bool_decide_eq_false in Ev.
      rewrite (pendingEdges_visit visited id Ev) in Hm.
      rewrite List.length_app, List.length_rev.
      pose proof (List.filter_length_le
                    (fun nxt => negb (bool_decide (nxt ∈ {[id]} ∪ visited)))
                    (default [] (succsInWindow ids edges !! id))) as Hle.
      cbn [length] in Hm. lia.
Qed.

Lemma reachInv_done (visited : gset nat) :
  reachInv ids edges startId feederIds visited [] ->
  ~ reachesFeeder ids edges startId feederIds.
Proof.
  intros [_ Hf Hc Hs] (m & Hm & Hne & Hw).
  assert (Hall : forall x y,
             rtc (windowEdge ids edges) x y -> x ∈ visited -> y ∈ visited).
  { induction 1 as [|x y z Hxy _ IH]; [auto|].
    intros Hx. apply IH. destruct (Hc x y Hx Hxy) as [H | []]. exact H. }
  destruct Hs as [Hs | []].
  apply (Hf m); [|exact Hne|exact Hm].
  apply (Hall startId); [now apply tc_rtc | exact Hs].
Qed.

Lemma reachLoop_sound (fuel : nat) :
  forall visited stack b,
    reachInv ids edges startId feederIds visited stack ->
    reachLoop fuel (succsInWindow ids edges) startId feederIds visited stack
    = Some b ->
    (b = true <-> reachesFeeder ids edges startId feederIds).
Proof.
  induction fuel as [|fuel IH]; intros visited stack b Hinv Hrun.
  - destruct stack; [|discriminate]. injection Hrun as <-.
    split; [discriminate | intros H; now apply reachInv_done in Hinv].
  - destruct stack as [|id stack'].
    { injection Hrun as <-.
      split; [discriminate | intros H; now apply reachInv_done in Hinv]. }
    cbn [reachLoop] in Hrun.
    destruct Hinv as [Hr Hf Hc Hs].
    destruct (bool_decide (id ∈ visited)) eqn:Ev.
    + apply bool_decide_eq_true in Ev.
      apply (IH visited stack' b); [|exact Hrun].
      split.
      * intros x [Hx | Hx]; apply Hr; [now left | right; now right].
      * exact Hf.
      * intros x y Hx Hxy. destruct (Hc x y Hx Hxy) as [H | [<- | H]]; auto.
      * destruct Hs as [H | [<- | H]]; auto.
    + apply bool_decide_eq_false in Ev.
      assert (Hid : rtc (windowEdge ids edges) startId id)
        by (apply Hr; right; now left).
      destruct (negb (id =? startId) && bool_decide (id ∈ feederIds)) eqn:Ef.
      * injection Hrun as <-. split; [intros _ | reflexivity].
        apply andb_prop in Ef as [Hne Hfd].
        apply negb_true_iff, Nat.eqb_neq in Hne.
        apply bool_decide_eq_true in Hfd.
        exists id. split; [exact Hfd|]. split; [exact Hne|].
        apply rtc_tc in Hid as [-> | Hid]; [congruence | exact Hid].
      * apply (IH _ _ b) in Hrun; [exact Hrun|].
        split.
        -- intros x [Hx | Hx].
           ++ apply elem_of_union in Hx as [Hx | Hx];
                [apply elem_of_singleton in Hx; now subst | apply Hr; now left].
           ++ apply List.in_app_or in Hx as [Hx | Hx];
                [|apply Hr; right; now right].
              apply List.in_rev, List.filter_In in Hx as [Hx _].
              apply succs_edge in Hx.
              eapply rtc_r; [exact Hid | exact Hx].
        -- intros x Hx Hne.
           apply elem_of_union in Hx as [Hx | Hx]; [|now apply Hf].
           apply elem_of_singleton in Hx. subst x.
           apply andb_false_iff in Ef as [Ef | Ef].
           ++ apply negb_false_iff, Nat.eqb_eq in Ef. congruence.
           ++ now apply bool_decide_eq_false in Ef.
        -- intros x y Hx Hxy.
           apply elem_of_union in Hx as [Hx | Hx].
           ++ apply elem_of_singleton in Hx. subst x.
              destruct (decide (y ∈ {[id]} ∪ visited)) as [Hy | Hy]; [now left|].
              right. apply List.in_or_app. left. apply -> List.in_rev.
              apply List.filter_In. split; [now apply succs_edge|].
              now rewrite bool_decide_eq_false_2.
           ++ destruct (Hc x y Hx Hxy) as [H | [<- | H]].
              ** left. apply elem_of_union. now right.
              ** left. apply elem_of_union. left. now apply elem_of_singleton.
              ** right. apply List.in_or_app. now right.
        -- destruct Hs as [H | [<- | H]].
           ++ left. apply elem_of_union. now right.
           ++ left. apply elem_of_union. left. now apply elem_of_singleton.
           ++ right. apply List.in_or_app. now right.
Qed.
End Reach.

Lemma canReachFeeder_spec (ids : gset nat) (edges : list Edge) (startId : nat)
  (feederIds : gset nat) :
  exists b,
    canReachFeeder (reachFuel edges) (succsInWindow ids edges) startId feederIds
    = Some b
    /\ (b = true <-> reachesFeeder ids edges startId feederIds).
Proof.
  unfold canReachFeeder, reachFuel.
  destruct (reachLoop_total ids edges startId feederIds (S (length edges)) ∅ [startId])
    as [b Hb].
  { pose proof (pendingEdges_le ids edges ∅). cbn [length]. lia. }
  exists b. split; [exact Hb|].
  eapply reachLoop_sound; [|exact Hb].
  split.
  - intros x [Hx | [<- | []]]; [now apply not_elem_of_empty in Hx | constructor].
  - intros x Hx. now apply not_elem_of_empty in Hx.
  - intros x y Hx. now apply not_elem_of_empty in Hx.
  - right. now left.
Qed.

Lemma pruneFeeders_spec (ids : gset nat) (edges : list Edge) (W : list Node) :
  forall F : gset nat,
  exists F' : gset nat,
    List.fold_left (pruneStep (reachFuel edges) (succsInWindow ids edges)) W (Some F)
    = Some F'
    /\ F' ⊆ F
    /\ (forall n, n ∈ F -> n ∉ F' ->
                  exists m, m ∈ F' /\ m <> n /\ walk ids edges n m)
    /\ (forall x, List.In x W -> Node.id x ∈ F' ->
                  forall m, m ∈ F' -> m <> Node.id x -> ~ walk ids edges (Node.id x) m).
Proof.
  induction W as [|x W IH]; intros F; cbn [List.fold_left].
  - exists F. split; [reflexivity|]. split; [reflexivity|].
    split; [intros n H1 H2; contradiction | intros x []].
  - unfold pruneStep at 2.
    destruct (bool_decide (Node.id x ∈ F)) eqn:Ex; cbn [negb].
    2:{ apply bool_decide_eq_false in Ex.
        destruct (IH F) as (F' & -> & Hsub & Hdrop & Hkeep).
        exists F'. split; [reflexivity|]. split; [exact Hsub|].
        split; [exact Hdrop|].
        intros y [<- | Hy]; [|now apply Hkeep].
        intros Hin. exfalso. apply Ex, Hsub, Hin. }
    apply bool_decide_eq_true in Ex.
    destruct (canReachFeeder_spec ids edges (Node.id x) F) as (b & -> & Hb).
    destruct b.
    + destruct (proj1 Hb eq_refl) as (m & Hm & Hne & Hw).
      destruct (IH (F ∖ {[Node.id x]})) as (F' & -> & Hsub & Hdrop & Hkeep).
      exists F'. split; [reflexivity|].
      assert (Hnot : Node.id x ∉ F').
      { intros Hin. apply Hsub, elem_of_difference in Hin as [_ Hin].
        apply Hin. now apply elem_of_singleton. }
      split; [intros n Hn; apply Hsub, elem_of_difference in Hn; tauto|].
      split.
      * intros n Hn Hn'.
        destruct (decide (n = Node.id x)) as [-> | Hnx].
        -- destruct (decide (m ∈ F')) as [Hm' | Hm']; [now exists m|].
           destruct (Hdrop m) as (m' & Hm1 & Hm2 & Hm3); [|exact Hm'|].
           { apply elem_of_difference. split; [exact Hm|].
             now rewrite elem_of_singleton. }
           exists m'. split; [exact Hm1|]. split; [congruence|].
           eapply tc_transitive; [exact Hw | exact Hm3].
        -- apply Hdrop; [|exact Hn'].
           apply elem_of_difference. split; [exact Hn|].
           now rewrite elem_of_singleton.
      * intros y [<- | Hy]; [contradiction | now apply Hkeep].
    + destruct (IH F) as (F' & -> & Hsub & Hdrop & Hkeep).
      exists F'. split; [reflexivity|]. split; [exact Hsub|].
      split; [exact Hdrop|].
      intros y [<- | Hy]; [|now apply Hkeep].
      intros _ m Hm Hne Hw.
      assert (Hr : reachesFeeder ids edges (Node.id x) F).
      { exists m. split; [now apply Hsub|]. split; [exact Hne | exact Hw]. }
      apply Hb in Hr. discriminate.
Qed.

Lemma hasEdge_app (es1 es2 : list Edge) (a b : nat) (l : option jsstring) :
  hasEdge (es1 ++ es2) a b l = hasEdge es1 a b l || hasEdge es2 a b l.
Proof. unfold hasEdge. apply List.existsb_app. Qed.

Lemma pushEdge_nodes (e : Edge) (gb : GraphBuilder) :
  GB.nodes (pushEdge e gb) = GB.nodes gb.
Proof. unfold pushEdge. now destruct (hasEdge _ _ _ _). Qed.

Lemma pushEdge_keeps (e : Edge) (gb : GraphBuilder) (a b : nat) (l : option jsstring) :
  hasEdge (GB.edges gb) a b l = true ->
  hasEdge (GB.edges (pushEdge e gb)) a b l = true.
Proof.
  intros H. unfold pushEdge.
  destruct (hasEdge (GB.edges gb) _ _ (Edge.label e)); [exact H|].
  cbn [GB.edges GB.with_edges]. rewrite hasEdge_app, H. reflexivity.
Qed.

Lemma pushEdge_has (e : Edge) (gb : GraphBuilder) :
  hasEdge (GB.edges (pushEdge e gb)) (Edge.from e) (Edge.to e) (Edge.label e) = true.
Proof.
  unfold pushEdge.
  destruct (hasEdge (GB.edges gb) _ _ (Edge.label e)) eqn:E; [exact E|].
  cbn [GB.edges GB.with_edges]. rewrite hasEdge_app. apply orb_true_iff. right.
  unfold hasEdge. cbn [existsb]. rewrite !Nat.eqb_refl. unfold str_eqb.
  now rewrite bool_decide_eq_true_2.
Qed.

Lemma feedStep_fold (c : Node) (F : gset nat) (W : list Node) :
  forall gb,
    let gb1 := List.fold_left (feedStep c F) W gb in
    (forall a b l, hasEdge (GB.edges gb) a b l = true ->
                   hasEdge (GB.edges gb1) a b l = true)
    /\ (forall n, List.In n W -> Node.id n ∈ F ->
                  metaIsLoopOrNext (Node.meta n) = false ->
                  hasEdge (GB.edges gb1) (Node.id n) (Node.id c) None = true).
Proof.
  induction W as [|x W IH]; intros gb; cbn [List.fold_left].
  - split; [auto | intros n []].
  - destruct (IH (feedStep c F gb x)) as (Hk & Hf).
    assert (Hk1 : forall a b l, hasEdge (GB.edges gb) a b l = true ->
                    hasEdge (GB.edges (feedStep c F gb x)) a b l = true).
    { intros a b l H. unfold feedStep.
      repeat match goal with |- context [if ?b then _ else _] => destruct b end;
        try exact H. now apply pushEdge_keeps. }
    split; [auto|].
    intros n [<- | Hin] HF Hl.
    + apply Hk. unfold feedStep. rewrite Hl.
      rewrite (bool_decide_eq_true_2 _ HF). cbn [negb].
      destruct (hasEdge (GB.edges gb) (Node.id x) (Node.id c) None) eqn:E;
        cbn [negb]; [exact E|].
      apply (pushEdge_has (edge (Node.id x) (Node.id c))).
    + now apply Hf.
Qed.

Lemma idSet_In (W : list Node) (n : nat) :
  n ∈ idSet W <-> exists x, List.In x W /\ Node.id x = n.
Proof.
  unfold idSet. rewrite elem_of_list_to_set, list_elem_of_In, List.in_map_iff.
  split; intros (x & H1 & H2); exists x; auto.
Qed.

Lemma computeConnectorFanin_feeders_aux (c : Node) (gb : GraphBuilder) :
  exists gb', computeConnectorFanin c gb = Some gb'.
Proof.
  destruct (pruneFeeders_spec (idSet (faninWindowOf c gb)) (GB.edges gb)
              (faninWindowOf c gb) (idSet (faninWindowOf c gb))) as (F & HF & _).
  unfold computeConnectorFanin, feedersOf, pruneFeeders. rewrite HF. eauto.
Qed.

(** ** Builder invariants *)

Lemma gbStep_refl (g : GraphBuilder) : gbStep g g.
Proof. repeat split; auto. Qed.

Lemma gbStep_trans (g1 g2 g3 : GraphBuilder) :
  gbStep g1 g2 -> gbStep g2 g3 -> gbStep g1 g3.
Proof.
  intros (A1 & B1 & C1) (A2 & B2 & C2). repeat split; [congruence | congruence | auto].
Qed.

Lemma gbStep_ok (g g' : GraphBuilder) : gbStep g g' -> gbOk g -> gbOk g'.
Proof.
  intros (A & B & C) [H1 H2 H3]. split; [now rewrite A, B | now rewrite A | auto].
Qed.

Lemma hasEdge_key (edges : list Edge) (e : Edge) :
  hasEdge edges (Edge.from e) (Edge.to e) (Edge.label e) = true
  <-> List.In (edgeKey e) (List.map edgeKey edges).
Proof.
  unfold hasEdge. rewrite List.existsb_exists, List.in_map_iff. unfold edgeKey.
  split.
  - intros (x & Hx & H). exists x. split; [|exact Hx].
    apply andb_prop in H as [H H3]. apply andb_prop in H as [H1 H2].
    apply Nat.eqb_eq in H1, H2. apply str_eqb_eq in H3. congruence.
  - intros (x & H & Hx). exists x. split; [exact Hx|].
    injection H as H1 H2 H3.
    rewrite H1, H2, H3, !Nat.eqb_refl. now apply str_eqb_eq.
Qed.

Lemma gbStep_pushEdge (e : Edge) (g g' : GraphBuilder) :
  gbStep g g' -> gbStep g (pushEdge e g').
Proof.
  intros H. eapply gbStep_trans; [exact H|]. clear.
  unfold pushEdge.
  destruct (hasEdge (GB.edges g') _ _ (Edge.label e)) eqn:E; [apply gbStep_refl|].
  repeat split; cbn [GB.edges GB.with_edges]. intros Hnd.
  rewrite List.map_app. cbn [List.map].
  apply List.NoDup_app; [exact Hnd | repeat constructor; intros [] |].
  intros k Hk [<- | []].
  apply hasEdge_key in Hk. congruence.
Qed.

Lemma shape_updateMeta (f : option jsstring -> option jsstring) (id : nat)
  (nodes : list Node) :
  shape (updateMeta f id nodes) = shape nodes.
Proof.
  unfold shape, updateMeta. rewrite List.map_map. apply List.map_ext.
  intros n. now destruct (Node.id n =? id).
Qed.

Lemma gbStep_gbAppendMeta (n : Node) (extra : jsstring) (g g' : GraphBuilder) :
  gbStep g g' -> gbStep g (gbAppendMeta n extra g').
Proof.
  intros H. eapply gbStep_trans; [exact H|].
  repeat split; cbn; [apply shape_updateMeta | auto].
Qed.

Lemma gbStep_gbSetMeta (n : Node) (m : jsstring) (g g' : GraphBuilder) :
  gbStep g g' -> gbStep g (gbSetMeta n m g').
Proof.
  intros H. eapply gbStep_trans; [exact H|].
  repeat split; cbn; [apply shape_updateMeta | auto].
Qed.

Lemma gbStep_lastExecutableNode (n : option Node) (g g' : GraphBuilder) :
  gbStep g g' -> gbStep g (GB.with_lastExecutableNode n g').
Proof. intros H. eapply gbStep_trans; [exact H|]. repeat split; auto. Qed.

Lemma gbStep_lastConnectorLikeNode (n : option Node) (g g' : GraphBuilder) :
  gbStep g g' -> gbStep g (GB.with_lastConnectorLikeNode n g').
Proof. intros H. eapply gbStep_trans; [exact H|]. repeat split; auto. Qed.

Lemma gbStep_pendingNextNodes (l : list Node) (g g' : GraphBuilder) :
  gbStep g g' -> gbStep g (GB.with_pendingNextNodes l g').
Proof. intros H. eapply gbStep_trans; [exact H|]. repeat split; auto. Qed.

Create HintDb gb.
#[local] Hint Resolve gbStep_refl gbStep_pushEdge gbStep_gbAppendMeta
  gbStep_gbSetMeta gbStep_lastExecutableNode gbStep_lastConnectorLikeNode
  gbStep_pendingNextNodes : gb.

Ltac gb_cases :=
  repeat match goal with
         | |- context [if ?b then _ else _] => destruct b
         | |- context [match ?x with _ => _ end] => destruct x
         end;
  eauto 6 with gb.

Lemma gbStep_finalizeNode (n : Node) (gram : Grammar) (g g' : GraphBuilder) :
  gbStep g g' -> gbStep g (finalizeNode n gram g').
Proof.
  intros H. eapply gbStep_trans; [exact H|]. clear.
  unfold finalizeNode. gb_cases.
Qed.

Lemma gbStep_wireSequential (to : Node) (u : bool) (g g' : GraphBuilder) :
  gbStep g g' -> gbStep g (wireSequential to u g').
Proof.
  intros H. eapply gbStep_trans; [exact H|]. clear.
  unfold wireSequential. cbv zeta. gb_cases.
Qed.

Lemma gbStep_feedStep (c : Node) (F : gset nat) (n : Node) (g g' : GraphBuilder) :
  gbStep g g' -> gbStep g (feedStep c F g' n).
Proof.
  intros H. eapply gbStep_trans; [exact H|]. clear.
  unfold feedStep. gb_cases.
Qed.

Lemma gbStep_fold {A} (f : GraphBuilder -> A -> GraphBuilder) (l : list A) :
  (forall g g' x, gbStep g g' -> gbStep g (f g' x)) ->
  forall g, gbStep g (List.fold_left f l g).
Proof.
  intros Hf. induction l as [|x l IH]; intros g; cbn; [apply gbStep_refl|].
  eapply gbStep_trans; [|apply IH]. apply Hf, gbStep_refl.
Qed.

Lemma gbStep_computeConnectorFanin (c : Node) (g g' : GraphBuilder) :
  computeConnectorFanin c g = Some g' -> gbStep g g'.
Proof.
  unfold computeConnectorFanin.
  destruct (feedersOf c g) as [F|]; [|discriminate].
  intros [= <-].
  unfold connectorFallthrough.
  assert (H : gbStep g (List.fold_left (feedStep c F) (faninWindowOf c g) g)).
  { apply gbStep_fold. intros. now apply gbStep_feedStep. }
  gb_cases.
Qed.

Lemma gbOk_newGraphBuilder : gbOk newGraphBuilder.
Proof.
  split; cbn.
  - reflexivity.
  - exists []. split; [reflexivity | intros []].
  - constructor.
Qed.

Lemma shape_snoc (nodes : list Node) (n : Node) :
  shape (nodes ++ [n]) = shape nodes ++ [(Node.id n, Node.kind n)].
Proof. unfold shape. now rewrite List.map_app. Qed.

(** Appending a node that is not a [Start] node and carries the next id. *)
Lemma gbOk_append (g : GraphBuilder) (n : Node) (g' : GraphBuilder) :
  gbOk g ->
  Node.id n = GB.nextId g -> Node.kind n <> Start ->
  GB.nodes g' = GB.nodes g ++ [n] -> GB.nextId g' = S (GB.nextId g) ->
  GB.edges g' = GB.edges g ->
  gbOk g'.
Proof.
  intros [H1 (rest & H2 & H3) H4] Hid Hk Hn Hi He.
  split.
  - rewrite Hn, Hi, shape_snoc, List.map_app, H1, List.seq_S. cbn. now rewrite Hid.
  - exists (rest ++ [Node.kind n]).
    rewrite Hn, shape_snoc, List.map_app, H2. split; [reflexivity|].
    rewrite List.in_app_iff. cbn. intros [H | [H | []]]; [auto | congruence].
  - now rewrite He.
Qed.

Lemma gbOk_makeNode (kind : NodeKind) (seg : LogicalSegment) (text : jsstring)
  (g : GraphBuilder) :
  kind <> Start -> gbOk g -> gbOk (snd (makeNode kind seg text g)).
Proof.
  intros Hk Hg.
  apply (gbOk_append g (fst (makeNode kind seg text g))); auto.
Qed.

Lemma gbOk_createImplicitEnd (line si : nat) (meta : jsstring) (g : GraphBuilder) :
  gbOk g -> gbOk (snd (createImplicitEnd line si meta g)).
Proof.
  intros Hg.
  apply (gbOk_append g (fst (createImplicitEnd line si meta g))); auto.
Qed.

(** C1, as the code has it.  The pruning loop always finishes.  A candidate
    of the window is dropped from the feeder set exactly when it can reach
    another candidate that stays in the set, by a directed walk in the
    subgraph induced on the candidates: the nodes that stay are the ends of
    the branches.  Every candidate that stays and is not tagged
    loop-back or forward-jump has an unlabelled edge into the connector
    afterwards, and the edge list stays free of duplicates. *)
Theorem computeConnectorFanin_feeders (c : Node) (gb : GraphBuilder) :
  let W := faninWindowOf c gb in
  let ids := idSet W in
  exists (F : gset nat) (gb' : GraphBuilder),
    feedersOf c gb = Some F
    /\ computeConnectorFanin c gb = Some gb'
    /\ F ⊆ ids
    /\ (forall n, n ∈ ids ->
                  (n ∉ F <-> exists m, m ∈ F /\ m <> n /\ walk ids (GB.edges gb) n m))
    /\ (forall n, List.In n W -> Node.id n ∈ F ->
                  metaIsLoopOrNext (Node.meta n) = false ->
                  hasEdge (GB.edges gb') (Node.id n) (Node.id c) None = true)
    /\ (List.NoDup (List.map edgeKey (GB.edges gb)) ->
        List.NoDup (List.map edgeKey (GB.edges gb'))).
Proof.
  intros W ids.
  destruct (pruneFeeders_spec ids (GB.edges gb) W ids)
    as (F & HF & Hsub & Hdrop & Hkeep).
  unfold computeConnectorFanin, feedersOf, pruneFeeders.
  fold W. fold ids. rewrite HF.
  eexists F, _. split; [reflexivity|]. split; [reflexivity|].
  split; [exact Hsub|]. split; [|split].
  - intros n Hn. split.
    + intros Hn'. now apply Hdrop.
    + intros (m & Hm & Hne & Hw) HnF.
      apply idSet_In in Hn as (x & Hx & <-).
      exact (Hkeep x Hx HnF m Hm Hne Hw).
  - intros n Hn HnF Hl.
    destruct (feedStep_fold c F W gb) as (_ & Hf).
    unfold connectorFallthrough.
    destruct (negb _); [|now apply Hf].
    destruct (List.find _ _); [|now apply Hf].
    apply pushEdge_keeps. now apply Hf.
  - eapply (gbStep_computeConnectorFanin c gb).
    unfold computeConnectorFanin, feedersOf, pruneFeeders.
    fold W. fold ids. now rewrite HF.
Qed.

(** C1, as stated, fails: with the edge 1 -> 2 between the two candidates,
    candidate 2 is reached from candidate 1 and yet it is the one that
    stays and feeds the connector; candidate 1, which no candidate reaches,
    is the one dropped, and it gets no edge into the connector.  The
    builder state is the one the driver is in at the connector of
    [chainText], and the finished graph shows the same edges. *)
Lemma fanin_drops_the_reaching_candidate :
  List.map Node.id (faninWindowOf chainConnector chainBuilder) = [1; 2]
  /\ walk (idSet (faninWindowOf chainConnector chainBuilder))
       (GB.edges chainBuilder) 1 2
  /\ (elements <$> feedersOf chainConnector chainBuilder) = Some [2]
  /\ (GB.edges <$> computeConnectorFanin chainConnector chainBuilder)
     = Some [edge 0 1; edge 1 2; edge 2 3]
  /\ (match runSegments (nl ++ lit "do a" ++ nl ++ lit "do b") with
      | Done (_, s) => Some (GB.nodes (Drv.gb s), GB.edges (Drv.gb s))
      | Raised _ => None
      end = Some ([startNode; chainA; chainB], [edge 0 1; edge 1 2]))
  /\ (match parseivx chainText with
      | Done g => Some (nodeKinds g, edgeTriples g)
      | Raised _ => None
      end
      = Some ([(0, Start); (1, Process); (2, Process); (3, Connector); (4, End)],
              [(0, 1, []); (1, 2, []); (2, 3, []); (3, 4, [])])).
Proof.
  split; [vm_compute; reflexivity|].
  split.
  - apply tc_once. exists (edge 1 2).
    split; [cbn; tauto|]. split; [reflexivity|]. split; [reflexivity|].
    split; apply idSet_In; [exists chainA | exists chainB];
      (split; [vm_compute; tauto | reflexivity]).
  - repeat split; vm_compute; reflexivity.
Qed.

(** ** Driver invariants *)

Lemma wp_ret {A} (a : A) (Q : A -> Driver -> Prop) (s : Driver) :
  Q a s -> wp (mret a) Q s.
Proof. exact (fun H => H). Qed.

Lemma wp_bind {A B} (m : M A) (f : A -> M B) (Q : B -> Driver -> Prop) (s : Driver) :
  wp m (fun a s' => wp (f a) Q s') s -> wp (m ≫= f) Q s.
Proof.
  unfold wp, mbind, M_bind. destruct (m s) as [[a s']|]; auto.
Qed.

Lemma wp_gets {A} (f : Driver -> A) (Q : A -> Driver -> Prop) (s : Driver) :
  Q (f s) s -> wp (gets f) Q s.
Proof. exact (fun H => H). Qed.

Lemma wp_modify (f : Driver -> Driver) (Q : unit -> Driver -> Prop) (s : Driver) :
  Q tt (f s) -> wp (modify f) Q s.
Proof. exact (fun H => H). Qed.

Lemma wp_mono {A} (m : M A) (Q Q' : A -> Driver -> Prop) (s : Driver) :
  wp m Q s -> (forall a s', Q a s' -> Q' a s') -> wp m Q' s.
Proof.
  unfold wp. destruct (m s) as [[a s']|]; auto.
Qed.

Lemma wp_done {A} (m : M A) (Q : A -> Driver -> Prop) (s : Driver) :
  wp m Q s -> exists a s', m s = Done (a, s') /\ Q a s'.
Proof.
  unfold wp. destruct (m s) as [[a s']|]; [eauto | tauto].
Qed.

Lemma use_pres {A} (m : M A) (Q : A -> Driver -> Prop) (s : Driver) :
  pres m -> Inv s -> (forall a s', Inv s' -> Q a s') -> wp m Q s.
Proof. intros Hm Hs HQ. eapply wp_mono; [apply Hm, Hs | exact HQ]. Qed.

Lemma pres_onGB (f : GraphBuilder -> GraphBuilder) :
  (forall g, gbStep g (f g)) -> pres (onGB f).
Proof.
  intros Hf s [Hg Hs]. split; [|exact Hs]. cbn. eapply gbStep_ok; [apply Hf | exact Hg].
Qed.

Lemma pres_setLastExecutableNode (n : option Node) : pres (setLastExecutableNode n).
Proof. apply pres_onGB. auto with gb. Qed.

Lemma pres_setCurrentBranchIndex (i : option nat) : pres (setCurrentBranchIndex i).
Proof. intros s Hs. exact Hs. Qed.

Lemma pres_setDecisionStack (d : list DecisionContext) : pres (setDecisionStack d).
Proof. intros s Hs. exact Hs. Qed.

Lemma pres_replaceTopDecision (c : DecisionContext) : pres (replaceTopDecision c).
Proof. intros s Hs. exact Hs. Qed.

Lemma pres_pushDecision (c : DecisionContext) : pres (pushDecision c).
Proof. intros s Hs. exact Hs. Qed.

Lemma pres_setLastNode (n : option Node) : pres (setLastNode n).
Proof. intros s Hs. exact Hs. Qed.

Lemma pres_setFunStack (f : list FunContext) :
  List.Forall funOk f -> pres (setFunStack f).
Proof. intros Hf s [Hg _]. split; [exact Hg | exact Hf]. Qed.

Lemma pres_replaceTopFun (c : FunContext) : funOk c -> pres (replaceTopFun c).
Proof.
  intros Hc s [Hg Hs]. split; [exact Hg|]. cbn.
  constructor; [exact Hc|]. destruct (Drv.funStack s); [constructor|].
  now inversion Hs.
Qed.

Lemma pres_pushFun (c : FunContext) : funOk c -> pres (pushFun c).
Proof. intros Hc s [Hg Hs]. split; [exact Hg|]. cbn. now constructor. Qed.

Lemma pres_makeNodeM (kind : NodeKind) (seg : LogicalSegment) (text : jsstring) :
  kind <> Start -> pres (makeNodeM kind seg text).
Proof.
  intros Hk s [Hg Hs]. split; [|exact Hs]. now apply (gbOk_makeNode kind seg text).
Qed.

Lemma pres_computeConnectorFaninM (c : Node) : pres (computeConnectorFaninM c).
Proof.
  intros s [Hg Hs]. unfold wp, computeConnectorFaninM.
  destruct (computeConnectorFanin_feeders_aux c (Drv.gb s)) as (g' & E).
  rewrite E. split; [|exact Hs]. cbn.
  eapply gbStep_ok; [eapply gbStep_computeConnectorFanin, E | exact Hg].
Qed.

Create HintDb pres.
#[local] Hint Resolve pres_setLastExecutableNode pres_setCurrentBranchIndex
  pres_setDecisionStack pres_replaceTopDecision pres_pushDecision
  pres_setLastNode pres_computeConnectorFaninM : pres.
#[local] Hint Resolve gbStep_finalizeNode gbStep_wireSequential : gb.
#[local] Hint Extern 1 (pres (onGB _)) =>
  apply pres_onGB; intros; eauto 6 with gb : pres.
#[local] Hint Extern 1 (pres (makeNodeM _ _ _)) =>
  apply pres_makeNodeM; congruence : pres.

Ltac wp_step :=
  lazymatch goal with
  | |- Inv _ => assumption
  | |- wp (mbind _ _) _ _ => apply wp_bind
  | |- wp (mret _) _ _ => apply wp_ret
  | |- wp skip _ _ => apply wp_ret
  | |- wp (gets _) _ _ => apply wp_gets
  | |- wp inFun _ _ => apply wp_gets
  | |- wp currentDecision _ _ => apply wp_gets
  | |- wp (assertSome (Some _)) _ _ => apply wp_ret
  | |- wp (assertSome ?o) _ _ =>
      let E := fresh "E" in
      destruct o eqn:E;
      [apply wp_ret
      |exfalso;
       repeat match goal with H : context [o] |- _ => rewrite E in H end;
       discriminate]
  | |- wp (if ?b then _ else _) _ _ => destruct b eqn:?
  | |- wp (match ?x with _ => _ end) _ _ => destruct x eqn:?
  | |- wp _ _ _ =>
      eapply use_pres; [solve [eauto with pres] | eassumption | cbv beta; intros ? ? ?]
  end.

Ltac wp_go := repeat (cbv beta zeta; wp_step).

Lemma pres_registerInFun (node : Node) : pres (registerInFun node).
Proof.
  intros s Hs. unfold registerInFun. wp_go.
  all: try (eapply use_pres; [apply pres_replaceTopFun | eassumption | intros ? ? ?];
            [intros _; eexists; reflexivity|]).
  all: wp_go.
Qed.
#[local] Hint Resolve pres_registerInFun : pres.

Lemma pres_createExecutableNode (kind : NodeKind) (seg : LogicalSegment)
  (text : jsstring) (gram : Grammar) (skipFunRegister : bool) :
  kind <> Start -> pres (createExecutableNode kind seg text gram skipFunRegister).
Proof.
  intros Hk s Hs. unfold createExecutableNode. wp_go.
Qed.
#[local] Hint Extern 1 (pres (createExecutableNode _ _ _ _ _)) =>
  apply pres_createExecutableNode; congruence : pres.

Lemma pres_popObsoleteLoop (seg : LogicalSegment) (speckey : option jsstring)
  (stack : list DecisionContext) :
  pres (popObsoleteLoop seg speckey stack).
Proof.
  induction stack as [|top rest IH]; intros s Hs; cbn [popObsoleteLoop]; wp_go.
Qed.
#[local] Hint Resolve pres_popObsoleteLoop : pres.

Lemma pres_popObsoleteDecisions (seg : LogicalSegment) (speckey : option jsstring) :
  pres (popObsoleteDecisions seg speckey).
Proof. intros s Hs. unfold popObsoleteDecisions. wp_go. Qed.
#[local] Hint Resolve pres_popObsoleteDecisions : pres.

Lemma pres_attachElseNodeToDecision (ctx : DecisionContext) (node : Node) :
  pres (attachElseNodeToDecision ctx node).
Proof. intros s Hs. unfold attachElseNodeToDecision. wp_go. Qed.

Lemma pres_attachThenNodeToDecision (ctx : DecisionContext) (node : Node)
  (cbi : option nat) :
  pres (attachThenNodeToDecision ctx node cbi).
Proof. intros s Hs. unfold attachThenNodeToDecision. wp_go. Qed.
#[local] Hint Resolve pres_attachElseNodeToDecision pres_attachThenNodeToDecision
  : pres.

Lemma pres_wireIntoDecisionIfAny (node : Node) (seg : LogicalSegment)
  (speckey : option jsstring) :
  pres (wireIntoDecisionIfAny node seg speckey).
Proof. intros s Hs. unfold wireIntoDecisionIfAny. wp_go. Qed.

Lemma pres_wireSequentialUnlessInFun (node : Node) :
  pres (wireSequentialUnlessInFun node).
Proof. intros s Hs. unfold wireSequentialUnlessInFun. wp_go. Qed.
#[local] Hint Resolve pres_wireIntoDecisionIfAny pres_wireSequentialUnlessInFun
  : pres.

Lemma pres_handleExecutableNode (kind : NodeKind) (seg : LogicalSegment)
  (gram : Grammar) (text : jsstring) (speckey : option jsstring) :
  kind <> Start -> pres (handleExecutableNode kind seg gram text speckey).
Proof. intros Hk s Hs. unfold handleExecutableNode. wp_go. Qed.
#[local] Hint Extern 1 (pres (handleExecutableNode _ _ _ _ _)) =>
  apply pres_handleExecutableNode;
  repeat match goal with |- context [if ?b then _ else _] => destruct b end;
  congruence : pres.

Lemma pres_handleBareElseThen (seg : LogicalSegment) (gram : Grammar) :
  pres (handleBareElseThen seg gram).
Proof. intros s Hs. unfold handleBareElseThen. wp_go. Qed.
#[local] Hint Resolve pres_handleBareElseThen : pres.

Lemma pres_closeFun (seg : LogicalSegment) : pres (closeFun seg).
Proof.
  intros s Hs. unfold closeFun. apply wp_bind, wp_gets.
  destruct (Drv.funStack s) as [|funCtx rest] eqn:E; [wp_go|].
  assert (HfunCtx : funOk funCtx /\ List.Forall funOk rest).
  { destruct Hs as [_ Hs]. rewrite E in Hs. now inversion Hs. }
  destruct HfunCtx as [Hc Hrest].
  cbv zeta. destruct (negb _); [wp_go|].
  apply wp_bind.
  eapply use_pres; [apply pres_setFunStack, Hrest | exact Hs | intros ? ? ?].
  apply wp_bind.
  destruct (0 <? length (FC.bodyNodeIds funCtx)) eqn:Eb; [|wp_go].
  assert (Hsome : is_Some (FC.lastBodyNodeId funCtx)).
  { apply Hc. apply Nat.ltb_lt in Eb. destruct (FC.bodyNodeIds funCtx);
      [cbn in Eb; lia | discriminate]. }
  destruct Hsome as [lastBodyId ->].
  wp_go.
Qed.

Lemma funOk_new (n : Node) : funOk (FC.mk n [] None).
Proof. intros H. now elim H. Qed.

Lemma pres_handleFunOpen (seg : LogicalSegment) (gram : Grammar) :
  pres (handleFunOpen seg gram).
Proof.
  pose proof (fun n => pres_pushFun _ (funOk_new n)) as Hp.
  intros s Hs. unfold handleFunOpen. wp_go.
Qed.

Lemma pres_handleEnd (seg : LogicalSegment) (gram : Grammar) :
  pres (handleEnd seg gram).
Proof. intros s Hs. unfold handleEnd. wp_go. Qed.

Lemma pres_handleDecision (seg : LogicalSegment) (gram : Grammar) :
  pres (handleDecision seg gram).
Proof.
  intros s Hs. unfold handleDecision. wp_go.
Qed.

Lemma pres_handleConnector (seg : LogicalSegment) (gram : Grammar) :
  pres (handleConnector seg gram).
Proof. intros s Hs. unfold handleConnector. wp_go. Qed.

#[local] Hint Resolve pres_closeFun pres_handleFunOpen pres_handleEnd
  pres_handleDecision pres_handleConnector : pres.

Lemma pres_dispatch (seg : LogicalSegment) (gram : Grammar) :
  pres (dispatch seg gram).
Proof. intros s Hs. unfold dispatch. wp_go. Qed.
#[local] Hint Resolve pres_dispatch : pres.

Lemma pres_step (seg : LogicalSegment) : pres (step seg).
Proof. intros s Hs. unfold step. wp_go. Qed.

Lemma pres_forEach {A} (l : list A) (body : A -> M unit) :
  (forall x, pres (body x)) -> pres (forEach l body).
Proof.
  intros Hb. induction l as [|x l IH]; intros s Hs; cbn [forEach].
  - apply wp_ret. exact Hs.
  - apply wp_bind. eapply use_pres; [apply Hb | exact Hs | intros ? ? ?].
    now apply IH.
Qed.

Lemma Inv_initialDriver : Inv initialDriver.
Proof. split; [apply gbOk_newGraphBuilder | constructor]. Qed.

(** The main loop runs to its end on every text. *)
Lemma mainLoop_runs (text : jsstring) :
  exists s, forEach (collectSegments text) step initialDriver = Done (tt, s) /\ Inv s.
Proof.
  destruct (wp_done _ _ _ (pres_forEach (collectSegments text) step pres_step
                             initialDriver Inv_initialDriver))
    as ([] & s & E & Hs).
  eauto.
Qed.

(** ** Finalisation *)

Lemma gbStep_resolvePending (n : Node) (g g' : GraphBuilder) :
  gbStep g g' -> gbStep g (resolvePending g' n).
Proof.
  intros H. eapply gbStep_trans; [exact H|]. clear. unfold resolvePending. gb_cases.
Qed.

Lemma gbStep_wireStart (g g' : GraphBuilder) : gbStep g g' -> gbStep g (wireStart g').
Proof.
  intros H. eapply gbStep_trans; [exact H|]. clear. unfold wireStart. gb_cases.
Qed.

Lemma gbStep_wireLeadingConnector (g g' : GraphBuilder) :
  gbStep g g' -> gbStep g (wireLeadingConnector g').
Proof.
  intros H. eapply gbStep_trans; [exact H|]. clear.
  unfold wireLeadingConnector. gb_cases.
Qed.

(** What a finished graph looks like: a [Start] node with id 0 first, no
    other [Start] node, an [End] node last whose id is the recorded end
    id, every node carrying its position as id, and no two edges with the
    same identity. *)
Record wellFormed (g : Graph) : Prop := {
  wf_nodes : exists n0 mid endN,
      Graph.nodes g = n0 :: mid ++ [endN]
      /\ Node.kind n0 = Start /\ Node.id n0 = 0
      /\ (forall n, List.In n (mid ++ [endN]) -> Node.kind n <> Start)
      /\ Node.kind endN = End
      /\ Graph.endNodeId g = Some (Node.id endN);
  wf_ids : forall i n, List.nth_error (Graph.nodes g) i = Some n -> Node.id n = i;
  wf_start : Graph.startNodeId g = Some 0;
  wf_edges : List.NoDup (List.map edgeKey (Graph.edges g))
}.

Lemma ids_are_positions (nodes : list Node) (k : nat) :
  List.map fst (shape nodes) = List.seq 0 k ->
  forall i n, List.nth_error nodes i = Some n -> Node.id n = i.
Proof.
  intros H i n Hn.
  assert (Hi : List.nth_error (List.map fst (shape nodes)) i = Some (Node.id n)).
  { unfold shape. rewrite List.map_map. now rewrite List.nth_error_map, Hn. }
  rewrite H, List.nth_error_seq in Hi.
  destruct (i <? k); [|discriminate]. now injection Hi.
Qed.

Lemma synthesizeEnd_wellFormed (g : GraphBuilder) :
  gbOk g -> wellFormed (synthesizeEnd g).
Proof.
  intros Hg. unfold synthesizeEnd.
  set (ft := match List.last _ None with Some n => _ | None => _ end).
  destruct ft as [fallthroughNode endLabel].
  set (ce := createImplicitEnd _ _ endLabel g).
  pose proof (gbOk_createImplicitEnd (Node.line fallthroughNode)
                (Node.segmentIndex fallthroughNode) endLabel g Hg) as H1.
  fold ce in H1.
  assert (Hn : GB.nodes (snd ce) = GB.nodes g ++ [fst ce]) by reflexivity.
  assert (Hk : Node.kind (fst ce) = End) by reflexivity.
  destruct ce as [implicitEnd gb1]. cbn [fst snd] in *.
  assert (H2 : gbOk (pushEdge (edge (Node.id fallthroughNode) (Node.id implicitEnd)) gb1)).
  { eapply gbStep_ok; [|exact H1]. auto with gb. }
  destruct H2 as [Hids Hkinds Hedges].
  rewrite pushEdge_nodes in Hids, Hkinds.
  split; cbn [Graph.nodes Graph.edges Graph.startNodeId Graph.endNodeId];
    rewrite ?pushEdge_nodes.
  - destruct Hg as [Gids (rest & Gk & Gr) _].
    destruct (GB.nodes g) as [|n0 mid] eqn:En; [discriminate|].
    exists n0, mid, implicitEnd. rewrite Hn.
    cbn in Gk. injection Gk as Gk0 Gk.
    cbn in Gids. destruct (GB.nextId g) as [|k]; [discriminate|].
    cbn in Gids. injection Gids as Gid0 _.
    repeat split; auto.
    intros n Hin. apply List.in_app_iff in Hin as [Hin | [<- | []]]; [|congruence].
    intros Hs. apply Gr. rewrite <- Gk, <- Hs.
    apply List.in_map_iff. exists (Node.id n, Node.kind n). split; [reflexivity|].
    unfold shape. apply List.in_map_iff. now exists n.
  - eapply ids_are_positions, Hids.
  - reflexivity.
  - exact Hedges.
Qed.

Lemma finalize_wellFormed (g : GraphBuilder) : gbOk g -> wellFormed (finalize g).
Proof.
  intros Hg. unfold finalize. apply synthesizeEnd_wellFormed.
  eapply gbStep_ok; [|exact Hg].
  apply gbStep_wireLeadingConnector, gbStep_wireStart.
  apply gbStep_fold. intros. now apply gbStep_resolvePending.
Qed.

Lemma parseivx_wellFormed (text : jsstring) :
  exists g, parseivx text = Done g /\ wellFormed g.
Proof.
  destruct (mainLoop_runs text) as (s & E & [Hg _]).
  unfold parseivx. rewrite E. eexists. split; [reflexivity|].
  now apply finalize_wellFormed.
Qed.


Lemma pushEdge_duplicate (e : Edge) (gb : GraphBuilder) :
  List.In (edgeKey e) (List.map edgeKey (GB.edges gb)) -> pushEdge e gb = gb.
Proof.
  intros H. apply hasEdge_key in H. unfold pushEdge. now rewrite H.
Qed.

(** C5. On every text the edge list of the graph that [parseivx] returns
    has no two edges with the same (from, to, label), an absent label
    counting as the empty one; and pushing an edge whose identity is
    already in the builder's edge list leaves the builder as it is. *)
Theorem parseivx_edges_unique (text : jsstring) :
  (exists g, parseivx text = Done g
             /\ List.NoDup (List.map edgeKey (Graph.edges g)))
  /\ (forall e gb, List.In (edgeKey e) (List.map edgeKey (GB.edges gb)) ->
                   pushEdge e gb = gb).
Proof.
  split; [|intros e gb; apply pushEdge_duplicate].
  destruct (parseivx_wellFormed text) as (g & E & [_ _ _ He]). eauto.
Qed.

(** C7. The empty document gives the [Start] node and the synthesized
    [End] node, the single edge from the one to the other, and no
    validation message. *)
Theorem parseivx_empty_document :
  exists g,
    parseivx [] = Done g
    /\ List.map (fun n => (Node.id n, Node.kind n)) (Graph.nodes g)
       = [(0, Start); (1, End)]
    /\ Graph.edges g = [edge 0 1]
    /\ Graph.endNodeId g = Some 1
    /\ validNodeIO (Graph.nodes g) (Graph.edges g) = [].
Proof.
  eexists. split; [vm_compute; reflexivity|].
  repeat split; vm_compute; reflexivity.
Qed.

(** ** Default wiring of a connector *)

Lemma wireSequential_connector (to : Node) (updateLast : bool) (gb : GraphBuilder) :
  Node.kind to = Connector ->
  GB.edges (wireSequential to updateLast gb) = GB.edges gb
  /\ GB.nodes (wireSequential to updateLast gb) = GB.nodes gb
  /\ (GB.lastExecutableNode (wireSequential to updateLast gb)
      = GB.lastExecutableNode gb
      \/ GB.lastExecutableNode (wireSequential to updateLast gb) = Some to).
Proof.
  intros Hk. unfold wireSequential. cbv zeta. rewrite Hk. cbn [kind_eqb].
  repeat match goal with
         | |- context [if ?b then _ else _] => destruct b
         | |- context [match ?x with _ => _ end] => destruct x
         end; cbn; auto.
Qed.

(** C2, as the code has it.  Default sequential wiring towards a Connector
    adds no edge and creates no node: it can only move the cursor onto the
    connector.  So the call the driver makes at the end of the Connector
    handler, when no function context is open, leaves the edge list as
    fan-in computation produced it, and the cursor, which the handler has
    just set to the connector, stays there. *)
Theorem connector_default_wiring_adds_no_edge (c : Node) (updateLast : bool)
  (gb : GraphBuilder) (s : Driver) :
  Node.kind c = Connector ->
  (GB.edges (wireSequential c updateLast gb) = GB.edges gb
   /\ GB.nodes (wireSequential c updateLast gb) = GB.nodes gb)
  /\ exists s',
      wireSequentialUnlessInFun c s = Done (tt, s')
      /\ GB.edges (Drv.gb s') = GB.edges (Drv.gb s)
      /\ (GB.lastExecutableNode (Drv.gb s) = Some c ->
          GB.lastExecutableNode (Drv.gb s') = Some c).
Proof.
  intros Hk.
  split; [split; now apply wireSequential_connector|].
  unfold wireSequentialUnlessInFun, inFun, mbind, M_bind, gets.
  destruct (bool_decide (is_Some (List.head (Drv.funStack s)))).
  - exists s. auto.
  - eexists. split; [reflexivity|]. cbn [Drv.gb Drv.with_gb].
    destruct (wireSequential_connector c true (Drv.gb s) Hk) as (He & _ & Hl).
    split; [exact He|]. intros Hc. destruct Hl as [-> | ->]; auto.
Qed.

(** The theorem at the connector of [chainBuilder]. *)
Lemma connector_default_wiring_adds_no_edge_witness :
  Node.kind chainConnector = Connector
  /\ (GB.edges (wireSequential chainConnector true chainBuilder)
      = GB.edges chainBuilder
      /\ GB.nodes (wireSequential chainConnector true chainBuilder)
         = GB.nodes chainBuilder)
  /\ exists s',
      wireSequentialUnlessInFun chainConnector
        (Drv.mk chainBuilder (Some chainConnector) None [] []) = Done (tt, s')
      /\ GB.edges (Drv.gb s') = GB.edges chainBuilder
      /\ (GB.lastExecutableNode chainBuilder = Some chainConnector ->
          GB.lastExecutableNode (Drv.gb s') = Some chainConnector).
Proof.
  split; [reflexivity|].
  exact (connector_default_wiring_adds_no_edge chainConnector true chainBuilder
           (Drv.mk chainBuilder (Some chainConnector) None [] []) eq_refl).
Defined.

(** C2, as stated, fails.  In [do a / do b / <tab> ii x] no function
    context is ever open; when the connector segment is reached the cursor
    is on node 2, the default predecessor.  The Connector handler adds no
    edge at all, and the finished graph has no edge into the connector:
    it is not given a fallback incoming edge from node 2. *)
Lemma connector_without_fallback_edge :
  (match runSegments (lit "do a" ++ nl ++ lit "do b") with
   | Done (_, s) =>
       Some (length (Drv.funStack s),
             Node.id <$> GB.lastExecutableNode (Drv.gb s),
             List.map edgeKey (GB.edges (Drv.gb s)))
   | Raised _ => None
   end = Some (0, Some 2, [(0, 1, []); (1, 2, [])]))
  /\ (match runSegments deeperConnectorText with
      | Done (_, s) =>
          Some (length (Drv.funStack s),
                Node.id <$> GB.lastExecutableNode (Drv.gb s),
                List.map edgeKey (GB.edges (Drv.gb s)))
      | Raised _ => None
      end = Some (0, Some 3, [(0, 1, []); (1, 2, [])]))
  /\ (match parseivx deeperConnectorText with
      | Done g => Some (nodeKinds g, edgeTriples g, inDeg (Graph.edges g) 3,
                        hasEdge (Graph.edges g) 2 3 None)
      | Raised _ => None
      end
      = Some ([(0, Start); (1, Process); (2, Process); (3, Connector); (4, End)],
              [(0, 1, []); (1, 2, []); (3, 4, [])], 0, false)).
Proof. repeat split; vm_compute; reflexivity. Qed.

(** ** No fault *)

Lemma dropWhile_idem {A} (p : A -> bool) (l : list A) :
  dropWhile p (dropWhile p l) = dropWhile p l.
Proof.
  induction l as [|x l IH]; cbn; [reflexivity|].
  destruct (p x) eqn:E; [exact IH | cbn; now rewrite E].
Qed.

Lemma dropWhile_app {A} (p : A -> bool) (a b : list A) :
  dropWhile p (a ++ b)
  = if forallb p a then dropWhile p b else dropWhile p a ++ b.
Proof.
  induction a as [|x a IH]; cbn; [reflexivity|].
  destruct (p x); cbn; [exact IH | reflexivity].
Qed.

Lemma dropWhile_nil {A} (p : A -> bool) (l : list A) :
  dropWhile p l = [] <-> forallb p l = true.
Proof.
  induction l as [|x l IH]; cbn; [tauto|].
  destruct (p x); cbn; [exact IH | split; discriminate].
Qed.

Lemma takeWhile_dropWhile {A} (p : A -> bool) (l : list A) :
  l = takeWhile p l ++ dropWhile p l /\ forallb p (takeWhile p l) = true.
Proof.
  induction l as [|x l [IH1 IH2]]; cbn; [auto|].
  destruct (p x) eqn:E; cbn; [|auto].
  rewrite E, IH2. split; [now f_equal | reflexivity].
Qed.

Lemma forallb_rev {A} (p : A -> bool) (l : list A) :
  forallb p (List.rev l) = forallb p l.
Proof.
  induction l as [|x l IH]; cbn; [reflexivity|].
  rewrite List.forallb_app, IH. cbn. rewrite andb_true_r. apply andb_comm.
Qed.

(** A code that resolves to no grammar does not end in a closing brace. *)
Lemma no_grammar_no_brace (code : jsstring) :
  (length (trim code) =? 0) || onlyBackslashes (trim code) = true ->
  endsWithBrace (trimEnd code) = false.
Proof.
  intros H.
  unfold endsWithBrace, trimEnd. rewrite List.rev_involutive, dropWhile_idem.
  destruct (takeWhile_dropWhile isWhiteSpace code) as [Hsplit Hw].
  set (w := takeWhile isWhiteSpace code) in *.
  set (r := dropWhile isWhiteSpace code) in *.
  assert (Htrim : trim code = List.rev (dropWhile isWhiteSpace (List.rev r)))
    by reflexivity.
  rewrite Htrim in H. rewrite Hsplit, List.rev_app_distr, dropWhile_app.
  assert (Hrw : dropWhile isWhiteSpace (List.rev w) = []).
  { apply dropWhile_nil. now rewrite forallb_rev. }
  destruct (dropWhile isWhiteSpace (List.rev r)) as [|x D'] eqn:ED.
  - apply dropWhile_nil in ED. now rewrite ED, Hrw.
  - assert (Hf : forallb isWhiteSpace (List.rev r) = false).
    { destruct (forallb isWhiteSpace (List.rev r)) eqn:E; [|reflexivity].
      apply dropWhile_nil in E. congruence. }
    rewrite Hf. cbn [List.app].
    apply orb_prop in H as [H | H].
    + apply Nat.eqb_eq in H. rewrite List.length_rev in H. discriminate.
    + unfold onlyBackslashes in H. apply andb_prop in H as [_ H].
      rewrite forallb_rev in H. cbn [forallb] in H. apply andb_prop in H as [H _].
      apply N.eqb_eq in H. now subst x.
Qed.

Lemma step_no_grammar (seg : LogicalSegment) (s : Driver) :
  SegGram seg = None ->
  exists s', step seg s = Done (tt, s')
             /\ shape (GB.nodes (Drv.gb s')) = shape (GB.nodes (Drv.gb s))
             /\ GB.edges (Drv.gb s') = GB.edges (Drv.gb s).
Proof.
  intros Hg. unfold step.
  destruct ((length (trim (Seg.code seg)) =? 0)
            && negb (length (trim (Seg.comment seg)) =? 0)).
  - unfold mbind, M_bind, gets.
    destruct (Drv.lastNode s) as [n|].
    + eexists. split; [reflexivity|]. cbn. split; [apply shape_updateMeta | reflexivity].
    + exists s. auto.
  - assert (Hb : endsWithBrace (trimEnd (Seg.code seg)) = false).
    { apply no_grammar_no_brace. unfold SegGram in Hg.
      destruct (_ || _); [reflexivity | discriminate]. }
    assert (Hc : closeFun seg s = Done (false, s)).
    { unfold closeFun, mbind, M_bind, gets.
      destruct (Drv.funStack s); [reflexivity|]. cbv zeta. now rewrite Hb. }
    unfold mbind, M_bind. rewrite Hc, Hg. exists s. auto.
Qed.

(** C8. On every text, parsing and then validating ends normally: no
    non-null assertion of the driver meets an absent value and the
    reachability search of fan-in finishes within its bound.  A segment
    that resolves to no grammar creates no node and no edge, whatever the
    state of the driver. *)
Theorem parse_and_validate_never_fault :
  (forall text, exists g,
        parseivx text = Done g
        /\ buildGraph text = Done (g, validNodeIO (Graph.nodes g) (Graph.edges g)))
  /\ (forall seg s,
         SegGram seg = None ->
         exists s', step seg s = Done (tt, s')
                    /\ shape (GB.nodes (Drv.gb s')) = shape (GB.nodes (Drv.gb s))
                    /\ GB.edges (Drv.gb s') = GB.edges (Drv.gb s)).
Proof.
  split; [|exact step_no_grammar].
  intros text. destruct (parseivx_wellFormed text) as (g & E & _).
  exists g. split; [exact E|]. unfold buildGraph. now rewrite E.
Qed.

(** * Further properties of the code *)

(** ** Indentation *)

Lemma computeIndent_fold (s : jsstring) :
  forall i c,
    List.fold_left computeIndentStep s (i, c)
    = (i + fst (List.fold_left computeIndentStep s (0, c)),
       snd (List.fold_left computeIndentStep s (0, c))).
Proof.
  induction s as [|ch s IH]; intros i c; cbn [List.fold_left].
  - cbn. f_equal. lia.
  - unfold computeIndentStep at 2 4 6.
    destruct (N.eqb ch Ch.tab).
    + rewrite (IH (S i)), (IH 1). cbn. f_equal. lia.
    + destruct (N.eqb ch Ch.space); [|apply IH].
      destruct (S c =? 4); [|apply IH].
      rewrite (IH (S i)), (IH 1). cbn. f_equal. lia.
Qed.

Lemma computeIndent_spaces (n : nat) :
  forall i c, c < 4 ->
    List.fold_left computeIndentStep (List.repeat Ch.space n) (i, c)
    = (i + (c + n) / 4, (c + n) mod 4).
Proof.
  induction n as [|n IH]; intros i c Hc; cbn [List.repeat List.fold_left].
  - rewrite Nat.add_0_r, Nat.div_small, Nat.mod_small by exact Hc.
    f_equal. lia.
  - unfold computeIndentStep at 2. cbn [N.eqb Ch.space Ch.tab Pos.eqb].
    destruct (Nat.eqb_spec (S c) 4) as [E | E].
    + rewrite IH by lia. assert (c = 3) as -> by lia.
      replace (3 + S n) with (n + 1 * 4) by lia.
      rewrite Nat.div_add, Nat.Div0.mod_add by lia.
      cbn [Nat.add]. f_equal. lia.
    + rewrite IH by lia. replace (S c + n) with (c + S n) by lia. reflexivity.
Qed.

Lemma computeIndent_le_length (s : jsstring) : computeIndent s <= length s.
Proof.
  unfold computeIndent.
  assert (H : forall i c, fst (List.fold_left computeIndentStep s (i, c))
                          <= i + length s).
  { induction s as [|ch s IH]; intros i c; cbn [List.fold_left length fst];
      [lia|].
    unfold computeIndentStep at 2.
    destruct (N.eqb ch Ch.tab); [rewrite IH; lia|].
    destruct (N.eqb ch Ch.space); [|rewrite IH; lia].
    destruct (S c =? 4); rewrite IH; lia. }
  apply (H 0 0).
Qed.

(** X1. Indentation counts one level per tab and one per run of four
    spaces: a tab closes the level count of what precedes it and throws
    away the spaces counted so far; [n] spaces alone give [n / 4] levels;
    the level never exceeds the number of characters. *)
Theorem computeIndent_tabs_and_spaces :
  (forall a b, computeIndent (a ++ Ch.tab :: b) = computeIndent a + 1 + computeIndent b)
  /\ (forall n, computeIndent (List.repeat Ch.space n) = n / 4)
  /\ (forall n, computeIndent (List.repeat Ch.tab n) = n)
  /\ (forall s, computeIndent s <= length s).
Proof.
  unfold computeIndent. repeat split.
  - intros a b. rewrite List.fold_left_app. cbn [List.fold_left].
    destruct (List.fold_left computeIndentStep a (0, 0)) as [ia ca].
    unfold computeIndentStep at 2. rewrite N.eqb_refl.
    rewrite computeIndent_fold. cbn [fst]. lia.
  - intros n. rewrite computeIndent_spaces by lia. reflexivity.
  - intros n.
    assert (H : forall i c,
               fst (List.fold_left computeIndentStep (List.repeat Ch.tab n) (i, c))
               = i + n).
    { induction n as [|n IH]; intros i c; cbn [List.repeat List.fold_left fst];
        [lia|].
      unfold computeIndentStep at 2. rewrite N.eqb_refl, IH. lia. }
    apply (H 0 0).
  - apply computeIndent_le_length.
Qed.

(** ** Segments *)

Lemma dropWhile_weaker_blank (s : jsstring) :
  forallb isWhiteSpace (dropWhile isSpaceOrTab s) = true ->
  forallb isWhiteSpace s = true.
Proof.
  induction s as [|c s IH]; cbn [dropWhile]; [auto|].
  destruct (isSpaceOrTab c) eqn:E; [|auto].
  intros H. cbn [forallb]. rewrite (IH H), andb_true_r.
  unfold isSpaceOrTab in E. apply orb_prop in E as [E | E];
    apply N.eqb_eq in E; subst c; reflexivity.
Qed.

Lemma dropWhile_head {A} (p : A -> bool) (l : list A) :
  match dropWhile p l with
  | [] => True
  | x :: _ => p x = false
  end.
Proof.
  induction l as [|y l IH]; cbn; [exact I|].
  destruct (p y) eqn:E; [exact IH | exact E].
Qed.

Lemma splitLines_no_lf (s : jsstring) :
  forall cur line, ~ List.In Ch.lf cur -> List.In line (splitLines cur s) ->
                   ~ List.In Ch.lf line.
Proof.
  remember (length s) as n eqn:Hn. revert s Hn.
  induction n as [n IH] using lt_wf_ind. intros s Hn cur line Hcur.
  destruct s as [|c r]; [intros [<- | []]; exact Hcur|].
  cbn [splitLines].
  assert (Hsnoc : N.eqb c Ch.lf = false -> ~ List.In Ch.lf (cur ++ [c])).
  { intros E. rewrite List.in_app_iff. intros [H | [H | []]]; [auto|].
    subst c. discriminate. }
  destruct (N.eqb c Ch.lf) eqn:E1.
  - intros [<- | H]; [exact Hcur|].
    eapply (IH (length r)); [subst n; cbn; lia | reflexivity | | exact H].
    intros [].
  - destruct r as [|c' r'].
    + cbn [splitLines]. intros [<- | []]. auto.
    + destruct (N.eqb c Ch.cr && N.eqb c' Ch.lf).
      * intros [<- | H]; [exact Hcur|].
        eapply (IH (length r')); [subst n; cbn; lia | reflexivity | | exact H].
        intros [].
      * intros H.
        eapply (IH (length (c' :: r'))); [subst n; cbn; lia | reflexivity | | exact H].
        auto.
Qed.

Lemma indexedFrom_In {A} (l : list A) (k i : nat) (x : A) :
  List.In (i, x) (indexedFrom k l) -> k <= i < k + length l /\ List.In x l.
Proof.
  revert k. induction l as [|y l IH]; intros k; cbn; [tauto|].
  intros [[= <- <-] | H]; [split; [lia | now left]|].
  apply IH in H. split; [lia | tauto].
Qed.

Lemma splitOn_chars (sep : N) (s : jsstring) :
  forall cur piece x,
    List.In piece (splitOn sep cur s) -> List.In x piece ->
    List.In x cur \/ List.In x s.
Proof.
  induction s as [|c s IH]; intros cur piece x; cbn [splitOn].
  - intros [<- | []]; auto.
  - destruct (N.eqb c sep).
    + intros [<- | H] Hx; [auto|].
      destruct (IH [] _ _ H Hx) as [[] | H']. right. now right.
    + intros H Hx. destruct (IH _ _ _ H Hx) as [H' | H'].
      * apply List.in_app_iff in H' as [H' | [<- | []]]; [auto|].
        right. now left.
      * right. now right.
Qed.

Lemma segment_of_piece (li si : nat) (piece : jsstring) (seg : LogicalSegment) :
  List.In seg (segmentOfPiece li si piece) ->
  Seg.physicalLine seg = li /\ Seg.segmentIndex seg = si
  /\ Seg.raw seg = dropWhile isSpaceOrTab piece
  /\ Seg.indent seg = computeIndent (takeWhile isSpaceOrTab piece)
  /\ forallb isWhiteSpace piece = false.
Proof.
  unfold segmentOfPiece.
  destruct (forallb isWhiteSpace piece); [intros []|].
  destruct (splitCodeAndComment (dropWhile isSpaceOrTab piece)) as [c cm].
  intros [<- | []]. cbn. auto.
Qed.

(** X2. What every segment of a document looks like: its line index is
    below the number of lines, its text is not blank, does not start with
    a space or a tab, holds no line feed, and its indentation is at most
    the number of characters stripped from its front. *)
Theorem collectSegments_segment_shape (text : jsstring) (seg : LogicalSegment) :
  List.In seg (collectSegments text) ->
  Seg.physicalLine seg < lineCount text
  /\ forallb isWhiteSpace (Seg.raw seg) = false
  /\ match Seg.raw seg with
     | c :: _ => isSpaceOrTab c = false
     | [] => False
     end
  /\ ~ List.In Ch.lf (Seg.raw seg)
  /\ exists lead, forallb isSpaceOrTab lead = true
                  /\ Seg.indent seg = computeIndent lead
                  /\ Seg.indent seg <= length lead.
Proof.
  unfold collectSegments, lineCount. rewrite List.in_flat_map.
  intros ([li line] & Hline & H).
  apply indexedFrom_In in Hline as [Hli Hline].
  unfold segmentsOfLine in H. rewrite List.in_flat_map in H.
  destruct H as ([si piece] & Hp & H).
  apply indexedFrom_In in Hp as [_ Hp].
  apply segment_of_piece in H as (-> & _ & Hraw & Hind & Hblank).
  split; [lia|].
  assert (Hnb : forallb isWhiteSpace (Seg.raw seg) = false).
  { rewrite Hraw. destruct (forallb isWhiteSpace (dropWhile isSpaceOrTab piece)) eqn:E;
      [|reflexivity].
    apply dropWhile_weaker_blank in E. congruence. }
  split; [exact Hnb|]. split; [|split].
  - rewrite Hraw in *. pose proof (dropWhile_head isSpaceOrTab piece) as Hh.
    destruct (dropWhile isSpaceOrTab piece); [discriminate | exact Hh].
  - rewrite Hraw. intros Hin. apply dropWhile_incl in Hin.
    assert (Hl : ~ List.In Ch.lf line).
    { eapply splitLines_no_lf; [|exact Hline]. intros []. }
    destruct (splitOn_chars _ _ _ _ _ Hp Hin) as [[] | H]. auto.
  - exists (takeWhile isSpaceOrTab piece).
    destruct (takeWhile_dropWhile isSpaceOrTab piece) as [_ Ht].
    split; [exact Ht|]. split; [exact Hind|].
    rewrite Hind. apply computeIndent_le_length.
Qed.

(** The theorem at the one segment of [do a]. *)
Lemma collectSegments_segment_shape_witness :
  let seg := Seg.mk 0 0 0 (lit "do a") (lit "do a") [] in
  List.In seg (collectSegments (lit "do a"))
  /\ (Seg.physicalLine seg < lineCount (lit "do a")
      /\ forallb isWhiteSpace (Seg.raw seg) = false
      /\ match Seg.raw seg with
         | c :: _ => isSpaceOrTab c = false
         | [] => False
         end
      /\ ~ List.In Ch.lf (Seg.raw seg)
      /\ exists lead, forallb isSpaceOrTab lead = true
                      /\ Seg.indent seg = computeIndent lead
                      /\ Seg.indent seg <= length lead).
Proof.
  split; [vm_compute; left; reflexivity|].
  apply (collectSegments_segment_shape (lit "do a")).
  vm_compute. left. reflexivity.
Defined.

Lemma StronglySorted_app {A} (R : A -> A -> Prop) (l1 l2 : list A) :
  StronglySorted R l1 -> StronglySorted R l2 ->
  (forall a b, List.In a l1 -> List.In b l2 -> R a b) ->
  StronglySorted R (l1 ++ l2).
Proof.
  intros H1 H2 H12. induction H1 as [|a l1 H1 IH Ha]; cbn; [exact H2|].
  constructor.
  - apply IH. intros x y Hx. apply H12. now right.
  - apply List.Forall_app. split; [exact Ha|].
    apply List.Forall_forall. intros y Hy. apply H12; [now left | exact Hy].
Qed.

Lemma flat_map_indexedFrom_sorted {A B} (R : B -> B -> Prop)
  (f : nat -> A -> list B) :
  (forall i x, StronglySorted R (f i x)) ->
  (forall i j x y a b, i < j -> List.In a (f i x) -> List.In b (f j y) -> R a b) ->
  forall l k,
    StronglySorted R (List.flat_map (fun '(i, x) => f i x) (indexedFrom k l)).
Proof.
  intros Hs Hlt. induction l as [|x l IH]; intros k; cbn; [constructor|].
  apply StronglySorted_app; [apply Hs | apply IH|].
  intros a b Ha Hb. apply List.in_flat_map in Hb as ([j y] & Hj & Hb).
  apply indexedFrom_In in Hj as [Hj _].
  apply (Hlt k j x y); [lia | exact Ha | exact Hb].
Qed.

Lemma segmentsOfLine_In (li : nat) (line : jsstring) (seg : LogicalSegment) :
  List.In seg (segmentsOfLine li line) -> Seg.physicalLine seg = li.
Proof.
  unfold segmentsOfLine. rewrite List.in_flat_map.
  intros ([si piece] & _ & H). now apply segment_of_piece in H.
Qed.

Lemma collectSegments_sorted (text : jsstring) :
  StronglySorted segBefore (collectSegments text).
Proof.
  unfold collectSegments, indexed.
  apply (flat_map_indexedFrom_sorted segBefore segmentsOfLine).
  - intros li line. unfold segmentsOfLine, indexed.
    apply (flat_map_indexedFrom_sorted segBefore (segmentOfPiece li)).
    + intros i x. unfold segmentOfPiece.
      destruct (forallb isWhiteSpace x); [constructor|].
      destruct (splitCodeAndComment _). repeat constructor.
    + intros i j x y a b Hij Ha Hb.
      apply segment_of_piece in Ha as (Ha1 & Ha2 & _).
      apply segment_of_piece in Hb as (Hb1 & Hb2 & _).
      right. split; [congruence | lia].
  - intros i j x y a b Hij Ha Hb.
    apply segmentsOfLine_In in Ha, Hb. left. lia.
Qed.

(** X3. The segments of a document come out in reading order: strictly
    increasing by line and, within a line, by position.  So a line index
    and a position name at most one segment. *)
Theorem collectSegments_in_reading_order (text : jsstring) :
  StronglySorted segBefore (collectSegments text)
  /\ forall a b,
      List.In a (collectSegments text) -> List.In b (collectSegments text) ->
      Seg.physicalLine a = Seg.physicalLine b ->
      Seg.segmentIndex a = Seg.segmentIndex b -> a = b.
Proof.
  pose proof (collectSegments_sorted text) as Hs.
  split; [exact Hs|].
  induction Hs as [|s l Hs IH Hall]; intros a b Ha Hb Hl Hi; [destruct Ha|].
  assert (Hirr : forall x y, segBefore x y ->
                   Seg.physicalLine x = Seg.physicalLine y ->
                   Seg.segmentIndex x = Seg.segmentIndex y -> False).
  { intros x y [H | [_ H]] H1 H2; lia. }
  rewrite List.Forall_forall in Hall.
  destruct Ha as [<- | Ha], Hb as [<- | Hb]; [reflexivity | | | now apply IH].
  - exfalso. apply (Hirr s b); auto.
  - exfalso. apply (Hirr s a); auto.
Qed.

(** ** Code and comment *)

Lemma splitCodeAndComment_clean (s : jsstring) :
  noUnquotedHash s -> splitCodeAndComment s = (s, []).
Proof.
  intros Hs. unfold splitCodeAndComment.
  pose proof (splitLoop_spec s [] false false eq_refl noUnquotedHash_nil) as H.
  destruct (splitLoop s [] false false) as [c cm]. cbn [List.app] in H.
  destruct H as [(-> & -> & _) | (E & Hq & _)]; [reflexivity|].
  exfalso. apply (Hs (length c)).
  - rewrite E, List.nth_error_app2, Nat.sub_diag by lia. reflexivity.
  - now rewrite E, List.firstn_app, Nat.sub_diag, List.firstn_all, List.app_nil_r.
Qed.

(** X4. Splitting is stable: the code part of a split holds no comment
    any more, so splitting it again gives it back with an empty comment. *)
Theorem splitCodeAndComment_code_is_stable (raw : jsstring) :
  splitCodeAndComment (fst (splitCodeAndComment raw))
  = (fst (splitCodeAndComment raw), []).
Proof.
  apply splitCodeAndComment_clean. unfold splitCodeAndComment.
  pose proof (splitLoop_spec raw [] false false eq_refl noUnquotedHash_nil) as H.
  destruct (splitLoop raw [] false false) as [c cm]. cbn [fst].
  destruct H as [(_ & _ & H) | (_ & _ & H)]; exact H.
Qed.

(** ** Grammar *)

Lemma filter_inline_keys (rest : list jsstring) (k : jsstring) :
  List.In k (inlineKeysOf rest) -> List.In k INLINE_KEYS.
Proof.
  unfold inlineKeysOf. rewrite List.in_map_iff.
  intros (t & <- & H). apply List.filter_In in H as [_ H]. now apply has_In.
Qed.

(** X5. Whatever the segment, the keys of its grammar come from the three
    key sets: the spec-key from [SPEC_KEYS], the node-key from
    [NODE_KEYS], every inline key from [INLINE_KEYS]. *)
Theorem SegGram_keys_are_keywords (seg : LogicalSegment) (g : Grammar) :
  SegGram seg = Some g ->
  (forall k, speckey g = Some k -> List.In k SPEC_KEYS)
  /\ (forall k, nodekey g = Some k -> List.In k NODE_KEYS)
  /\ (forall k, List.In k (linekey g) -> List.In k INLINE_KEYS).
Proof.
  unfold SegGram. destruct (_ || _); [discriminate|]. intros [= <-].
  generalize (splitWs [] (trim (Seg.code seg))). intros tokens0.
  unfold SegGramTokens.
  set (first := match List.nth_error tokens0 0 with
                | Some t0 => _
                | None => _
                end).
  assert (Hfirst : (forall k, fst (fst (fst first)) = Some k -> List.In k SPEC_KEYS)
                   /\ (forall k, snd (fst (fst first)) = Some k -> List.In k NODE_KEYS)).
  { subst first. destruct (List.nth_error tokens0 0) as [t0|];
      [|split; intros k; discriminate].
    cbv zeta.
    destruct (has SPEC_KEYS _) eqn:E1; cbn [fst snd].
    - split; intros k; [|discriminate]. intros [= <-]. now apply has_In.
    - destruct (has NODE_KEYS _) eqn:E2; cbn [fst snd];
        split; intros k; try discriminate.
      intros [= <-]. now apply has_In. }
  destruct first as [[[speckey1 nodekey1] i] tokens]. cbn [fst snd] in Hfirst.
  destruct Hfirst as [Hs1 Hn1].
  set (second := match List.nth_error tokens i with
                 | Some t => _
                 | None => _
                 end).
  assert (Hsecond : forall k, fst second = Some k -> List.In k SPEC_KEYS).
  { subst second. destruct (List.nth_error tokens i) as [t|]; [|exact Hs1].
    cbv zeta. destruct (has SPEC_KEYS _) eqn:E; cbn [fst]; [|exact Hs1].
    intros k [= <-]. now apply has_In. }
  destruct second as [speckey2 i2]. cbn [fst] in Hsecond.
  set (third := match List.nth_error tokens i2 with
                | Some t => _
                | None => _
                end).
  assert (Hthird : forall k, fst third = Some k -> List.In k NODE_KEYS).
  { subst third. destruct (List.nth_error tokens i2) as [t|]; [|exact Hn1].
    cbv zeta. destruct (has NODE_KEYS _) eqn:E; cbn [fst]; [|exact Hn1].
    intros k [= <-]. now apply has_In. }
  destruct third as [nodekey2 i3]. cbn [fst] in Hthird.
  cbn [speckey nodekey linekey].
  split; [exact Hsecond|]. split; [exact Hthird|].
  intros k. apply filter_inline_keys.
Qed.

(** The theorem at [@else dec a loop]. *)
Lemma SegGram_keys_are_keywords_witness :
  let seg := Seg.mk 0 0 0 [] (lit "@else dec a loop") [] in
  let g := mkGram (Some (lit "else")) (Some (lit "dec")) [lit "loop"] (lit "a") in
  SegGram seg = Some g
  /\ ((forall k, speckey g = Some k -> List.In k SPEC_KEYS)
      /\ (forall k, nodekey g = Some k -> List.In k NODE_KEYS)
      /\ (forall k, List.In k (linekey g) -> List.In k INLINE_KEYS)).
Proof.
  split; [vm_compute; reflexivity|].
  apply (SegGram_keys_are_keywords (Seg.mk 0 0 0 [] (lit "@else dec a loop") [])).
  vm_compute. reflexivity.
Defined.

(** ** Decision labels *)

Lemma dropWhile_fixed {A} (p : A -> bool) (l : list A) :
  match l with
  | [] => True
  | x :: _ => p x = false
  end -> dropWhile p l = l.
Proof. destruct l as [|x l]; cbn; [auto | now intros ->]. Qed.

Lemma trim_rev (s : jsstring) :
  List.rev (trim s) = dropWhile isWhiteSpace (List.rev (trimStart s)).
Proof. unfold trim, trimEnd. apply List.rev_involutive. Qed.

Lemma trim_head (s : jsstring) :
  match trim s with
  | [] => True
  | c :: _ => isWhiteSpace c = false
  end.
Proof.
  unfold trim, trimEnd, trimStart.
  pose proof (dropWhile_head isWhiteSpace s) as H.
  destruct (dropWhile isWhiteSpace s) as [|c r]; [exact I|].
  cbn [List.rev]. rewrite dropWhile_app.
  destruct (forallb isWhiteSpace (List.rev r)).
  - cbn [dropWhile]. rewrite H. cbn. exact H.
  - rewrite List.rev_app_distr. cbn. exact H.
Qed.

Lemma trim_last (s : jsstring) :
  match List.rev (trim s) with
  | [] => True
  | c :: _ => isWhiteSpace c = false
  end.
Proof. rewrite trim_rev. apply dropWhile_head. Qed.

Lemma trim_idempotent (s : jsstring) : trim (trim s) = trim s.
Proof.
  unfold trim at 1. unfold trimStart at 1.
  rewrite (dropWhile_fixed isWhiteSpace (trim s) (trim_head s)).
  unfold trimEnd. rewrite trim_rev, dropWhile_idem, <- trim_rev.
  apply List.rev_involutive.
Qed.

Lemma trim_incl (s : jsstring) (x : N) : List.In x (trim s) -> List.In x s.
Proof.
  unfold trim, trimEnd, trimStart. intros H.
  apply List.in_rev, dropWhile_incl, List.in_rev, dropWhile_incl in H. exact H.
Qed.

Lemma splitCommaLoop_no_comma (s : jsstring) :
  forall cur pending afterSep piece,
    ~ List.In Ch.comma cur -> ~ List.In Ch.comma pending ->
    List.In piece (splitCommaLoop s cur pending afterSep) ->
    ~ List.In Ch.comma piece.
Proof.
  induction s as [|c s IH]; intros cur pending afterSep piece Hc Hp;
    cbn [splitCommaLoop].
  - intros [<- | []]. rewrite List.in_app_iff. tauto.
  - destruct (N.eqb c Ch.comma) eqn:E.
    + intros [<- | H]; [exact Hc|]. eapply IH; [| |exact H]; intros [].
    + assert (Hne : c <> Ch.comma) by (intros ->; discriminate).
      destruct (isWhiteSpace c).
      * destruct afterSep; apply IH; auto.
        rewrite List.in_app_iff. intros [H | [H | []]]; auto.
      * apply IH; [|intros []].
        rewrite !List.in_app_iff. intros [H | [H | [H | []]]]; auto.
Qed.

(** X6. Every label that [splitDecisionLabels] returns is clean: it is
    not empty, holds no comma and has no white space at either end. *)
Theorem splitDecisionLabels_labels_are_clean (text l : jsstring) :
  List.In l (splitDecisionLabels text) -> cleanLabel l.
Proof.
  unfold splitDecisionLabels. intros H.
  apply List.filter_In in H as [H Hne].
  apply List.in_map_iff in H as (p & <- & Hp).
  split; [|split].
  - intros E. rewrite E in Hne. discriminate.
  - intros Hin. apply trim_incl in Hin.
    eapply splitCommaLoop_no_comma; [| |exact Hp|exact Hin]; intros [].
  - apply trim_idempotent.
Qed.

(** The theorem at the second label of [a , b c]. *)
Lemma splitDecisionLabels_labels_are_clean_witness :
  List.In (lit "b c") (splitDecisionLabels (lit "a , b c"))
  /\ cleanLabel (lit "b c").
Proof.
  split; [vm_compute; tauto|].
  apply (splitDecisionLabels_labels_are_clean (lit "a , b c")).
  vm_compute. tauto.
Defined.

Lemma endsOutsideSpace_tail (c c' : N) (l : jsstring) :
  endsOutsideSpace (c :: c' :: l) -> endsOutsideSpace (c' :: l).
Proof.
  unfold endsOutsideSpace. cbn [List.rev].
  destruct (List.rev l ++ [c']) as [|x r] eqn:E; [|auto].
  now destruct (List.rev l).
Qed.

Lemma splitCommaLoop_feed (l : jsstring) :
  forall cur pending s,
    ~ List.In Ch.comma l -> endsOutsideSpace l ->
    splitCommaLoop (l ++ s) cur pending false
    = splitCommaLoop s (cur ++ pending ++ l) [] false.
Proof.
  induction l as [|c l IH]; intros cur pending s Hc He; [destruct He|].
  assert (Hne : N.eqb c Ch.comma = false).
  { apply N.eqb_neq. intros ->. apply Hc. now left. }
  cbn [List.app splitCommaLoop]. rewrite Hne.
  destruct l as [|c' l'].
  - unfold endsOutsideSpace in He. cbn in He. rewrite He. reflexivity.
  - assert (Hc' : ~ List.In Ch.comma (c' :: l')) by (intros H; apply Hc; now right).
    apply endsOutsideSpace_tail in He.
    destruct (isWhiteSpace c).
    + rewrite IH by assumption. now rewrite <- !List.app_assoc.
    + rewrite IH by assumption. now rewrite <- !List.app_assoc.
Qed.

Lemma cleanLabel_shape (l : jsstring) :
  cleanLabel l ->
  ~ List.In Ch.comma l /\ endsOutsideSpace l
  /\ exists c r, l = c :: r /\ isWhiteSpace c = false.
Proof.
  intros (Hne & Hc & Ht). split; [exact Hc|]. split.
  - unfold endsOutsideSpace. pose proof (trim_last l) as H. rewrite Ht in H.
    destruct (List.rev l) eqn:E; [|exact H].
    apply (f_equal (@List.rev N)) in E. rewrite List.rev_involutive in E.
    contradiction.
  - pose proof (trim_head l) as H. rewrite Ht in H.
    destruct l as [|c r]; [contradiction | eauto].
Qed.

Lemma splitCommaLoop_label (l s : jsstring) (afterSep : bool) :
  cleanLabel l ->
  splitCommaLoop (l ++ s) [] [] afterSep = splitCommaLoop s l [] false.
Proof.
  intros H. apply cleanLabel_shape in H as (Hc & He & c & r & -> & Hw).
  assert (Hne : N.eqb c Ch.comma = false).
  { apply N.eqb_neq. intros ->. apply Hc. now left. }
  cbn [List.app splitCommaLoop]. rewrite Hne, Hw.
  destruct r as [|c' r']; [reflexivity|].
  rewrite splitCommaLoop_feed; [reflexivity | | now apply endsOutsideSpace_tail in He].
  intros Hin. apply Hc. now right.
Qed.

Lemma splitCommaLoop_join (labels : list jsstring) :
  labels <> [] -> List.Forall cleanLabel labels ->
  forall afterSep,
    splitCommaLoop (join (lit ", ") labels) [] [] afterSep = labels.
Proof.
  induction labels as [|l ls IH]; [congruence|]. intros _ Hall afterSep.
  inversion Hall as [|? ? Hl Hls]; subst.
  destruct ls as [|l2 ls].
  - cbn [join]. rewrite <- (List.app_nil_r l) at 1.
    rewrite splitCommaLoop_label by exact Hl.
    cbn [splitCommaLoop]. now rewrite List.app_nil_r.
  - change (join (lit ", ") (l :: l2 :: ls))
      with (l ++ lit ", " ++ join (lit ", ") (l2 :: ls)).
    rewrite splitCommaLoop_label by exact Hl.
    change (lit ", " ++ join (lit ", ") (l2 :: ls))
      with (Ch.comma :: Ch.space :: join (lit ", ") (l2 :: ls)).
    cbn [splitCommaLoop]. rewrite N.eqb_refl. f_equal.
    change (N.eqb Ch.space Ch.comma) with false.
    change (isWhiteSpace Ch.space) with true. cbv iota.
    apply IH; [discriminate | exact Hls].
Qed.

(** X7. The label list that the driver writes into the meta of a Decision
    node, joined with comma and space, reads back unchanged: on clean
    labels [splitDecisionLabels] undoes [join]. *)
Theorem splitDecisionLabels_join_round_trip (labels : list jsstring) :
  List.Forall cleanLabel labels ->
  splitDecisionLabels (join (lit ", ") labels) = labels.
Proof.
  intros Hall. unfold splitDecisionLabels.
  destruct labels as [|l ls]; [reflexivity|].
  rewrite splitCommaLoop_join by (discriminate || exact Hall).
  induction Hall as [|x xs (Hne & _ & Ht) _ IH]; [reflexivity|].
  cbn [List.map List.filter]. rewrite Ht.
  destruct x; [contradiction|]. cbn [length Nat.eqb negb]. now rewrite IH.
Qed.

(** The theorem at the labels [yes] and [not yet]. *)
Lemma splitDecisionLabels_join_round_trip_witness :
  List.Forall cleanLabel [lit "yes"; lit "not yet"]
  /\ splitDecisionLabels (join (lit ", ") [lit "yes"; lit "not yet"])
     = [lit "yes"; lit "not yet"].
Proof.
  assert (H : List.Forall cleanLabel [lit "yes"; lit "not yet"]).
  { repeat constructor; try discriminate; try (vm_compute; reflexivity);
      vm_compute; intuition discriminate. }
  split; [exact H|].
  exact (splitDecisionLabels_join_round_trip [lit "yes"; lit "not yet"] H).
Defined.

(** ** Edges of the builder *)

Lemma pushEdge_shape (e : Edge) (gb : GraphBuilder) :
  pushEdge e gb = gb \/ pushEdge e gb = GB.with_edges (GB.edges gb ++ [e]) gb.
Proof. unfold pushEdge. destruct (hasEdge _ _ _ _); auto. Qed.

Lemma pushEdge_nextId (e : Edge) (gb : GraphBuilder) :
  GB.nextId (pushEdge e gb) = GB.nextId gb.
Proof. unfold pushEdge. now destruct (hasEdge _ _ _ _). Qed.

(** X8. [pushEdge] touches nothing but the edge list, which it extends by
    at most the pushed edge, at the end; afterwards the edge is there, and
    pushing it a second time changes nothing. *)
Theorem pushEdge_appends_once (e : Edge) (gb : GraphBuilder) :
  (GB.edges (pushEdge e gb) = GB.edges gb
   \/ GB.edges (pushEdge e gb) = GB.edges gb ++ [e])
  /\ pushEdge e gb = GB.with_edges (GB.edges (pushEdge e gb)) gb
  /\ hasEdge (GB.edges (pushEdge e gb)) (Edge.from e) (Edge.to e) (Edge.label e)
     = true
  /\ pushEdge e (pushEdge e gb) = pushEdge e gb.
Proof.
  assert (Hhas := pushEdge_has e gb).
  split; [|split; [|split; [exact Hhas|]]].
  - destruct (pushEdge_shape e gb) as [-> | ->]; auto.
  - destruct (pushEdge_shape e gb) as [-> | ->]; now destruct gb.
  - unfold pushEdge at 1. now rewrite Hhas.
Qed.

(** ** The annotation string *)

Lemma startsWith_app (p s t : jsstring) :
  startsWith p s = true -> startsWith p (s ++ t) = true.
Proof.
  revert s. induction p as [|a p IH]; intros s; [reflexivity|].
  destruct s as [|b s]; [discriminate|]. cbn.
  intros H. apply andb_prop in H as [-> H]. now rewrite IH.
Qed.

Lemma startsWith_refl (p : jsstring) : startsWith p p = true.
Proof. induction p as [|a p IH]; cbn; [reflexivity|]. now rewrite N.eqb_refl. Qed.

Lemma includes_app_l (p s t : jsstring) :
  includes p s = true -> includes p (s ++ t) = true.
Proof.
  induction s as [|c s IH]; cbn [includes List.app].
  - rewrite orb_false_r. intros H. destruct p; [|discriminate].
    destruct t; reflexivity.
  - intros H. apply orb_prop in H as [H | H].
    + change (c :: s ++ t) with ((c :: s) ++ t). now rewrite startsWith_app.
    + rewrite (IH H). apply orb_true_r.
Qed.

Lemma includes_app_r (p s t : jsstring) :
  includes p t = true -> includes p (s ++ t) = true.
Proof.
  intros H. induction s as [|c s IH]; cbn [includes List.app]; [exact H|].
  rewrite IH. apply orb_true_r.
Qed.

Lemma includes_refl (p : jsstring) : includes p p = true.
Proof. destruct p; cbn [includes]; now rewrite startsWith_refl. Qed.

Lemma appendedMeta_keeps (m : option jsstring) (extra tag : jsstring) :
  includes tag (labelOr m) = true -> includes tag (appendedMeta m extra) = true.
Proof.
  destruct m as [[|c r]|]; cbn [labelOr default appendedMeta].
  - intros H. destruct tag; [|discriminate]. destruct extra; reflexivity.
  - apply includes_app_l.
  - intros H. destruct tag; [|discriminate]. destruct extra; reflexivity.
Qed.

Lemma appendedMeta_adds (m : option jsstring) (extra : jsstring) :
  includes extra (appendedMeta m extra) = true.
Proof.
  destruct m as [[|c r]|]; cbn [appendedMeta]; try apply includes_refl.
  apply includes_app_r, includes_app_r, includes_refl.
Qed.

Lemma find_updateMeta (f : option jsstring -> option jsstring) (id j : nat)
  (nodes : list Node) :
  List.find (fun n => Node.id n =? j) (updateMeta f id nodes)
  = option_map (fun n => if Node.id n =? id then setMeta n (f (Node.meta n)) else n)
      (List.find (fun n => Node.id n =? j) nodes).
Proof.
  unfold updateMeta. induction nodes as [|n nodes IH]; [reflexivity|].
  cbn [List.map List.find].
  assert (E : Node.id (if Node.id n =? id then setMeta n (f (Node.meta n)) else n)
              = Node.id n) by now destruct (Node.id n =? id).
  rewrite E. destruct (Node.id n =? j); [reflexivity | exact IH].
Qed.

Lemma metaOf_appendMeta (id j : nat) (extra : jsstring) (nodes : list Node) :
  metaOf (appendMeta id extra nodes) j
  = match List.find (fun n => Node.id n =? j) nodes with
    | Some n => if j =? id then Some (appendedMeta (Node.meta n) extra)
                else Node.meta n
    | None => None
    end.
Proof.
  unfold metaOf, appendMeta. rewrite find_updateMeta.
  destruct (List.find (fun n => Node.id n =? j) nodes) as [n|] eqn:E; [|reflexivity].
  apply List.find_some in E as [_ E]. apply Nat.eqb_eq in E. subst j.
  cbn. now destruct (Node.id n =? id).
Qed.

Lemma metaOf_appendMeta_keeps (nodes : list Node) (id : nat) (extra : jsstring)
  (j : nat) (tag : jsstring) :
  includes tag (labelOr (metaOf nodes j)) = true ->
  includes tag (labelOr (metaOf (appendMeta id extra nodes) j)) = true.
Proof.
  rewrite metaOf_appendMeta. unfold metaOf.
  destruct (List.find (fun n => Node.id n =? j) nodes) as [n|]; [|auto].
  destruct (j =? id); [|auto]. apply appendedMeta_keeps.
Qed.

Lemma metaOf_appendMeta_adds (nodes : list Node) (id : nat) (extra : jsstring)
  (n : Node) :
  List.In n nodes -> Node.id n = id ->
  includes extra (labelOr (metaOf (appendMeta id extra nodes) id)) = true.
Proof.
  intros Hn Hid. rewrite metaOf_appendMeta.
  destruct (List.find (fun n => Node.id n =? id) nodes) as [m|] eqn:E.
  - rewrite Nat.eqb_refl. apply appendedMeta_adds.
  - exfalso. eapply List.find_none in E; [|exact Hn].
    rewrite Hid, Nat.eqb_refl in E. discriminate.
Qed.

Lemma metaIsLoopOrNext_appendMeta (nodes : list Node) (id : nat) (extra : jsstring)
  (j : nat) :
  metaIsLoopOrNext (metaOf nodes j) = true ->
  metaIsLoopOrNext (metaOf (appendMeta id extra nodes) j) = true.
Proof.
  unfold metaIsLoopOrNext. intros H.
  apply orb_prop in H as [H | H];
    apply (metaOf_appendMeta_keeps nodes id extra) in H; rewrite H;
    [reflexivity | apply orb_true_r].
Qed.

Lemma appendMeta_In (nodes : list Node) (id : nat) (extra : jsstring) (n : Node) :
  List.In n nodes ->
  exists n', List.In n' (appendMeta id extra nodes) /\ Node.id n' = Node.id n.
Proof.
  intros H. unfold appendMeta, updateMeta.
  eexists. split; [apply List.in_map, H|]. now destruct (Node.id n =? id).
Qed.

(** X9. Appending to the annotation of a node never erases a tag: whatever
    text the annotation of any node contained, it still contains; and the
    annotation of the node written to contains the appended text.  In
    particular a node tagged loop-back or forward-jump stays so. *)
Theorem appendMeta_never_erases (nodes : list Node) (id : nat) (extra : jsstring) :
  (forall j tag,
      includes tag (labelOr (metaOf nodes j)) = true ->
      includes tag (labelOr (metaOf (appendMeta id extra nodes) j)) = true)
  /\ (forall n, List.In n nodes -> Node.id n = id ->
                includes extra (labelOr (metaOf (appendMeta id extra nodes) id))
                = true)
  /\ (forall n, isLoopOrNextNode nodes n = true ->
                isLoopOrNextNode (appendMeta id extra nodes) n = true).
Proof.
  split; [|split].
  - intros j tag. apply metaOf_appendMeta_keeps.
  - apply metaOf_appendMeta_adds.
  - intros [n|]; cbn [isLoopOrNextNode]; [|auto].
    apply metaIsLoopOrNext_appendMeta.
Qed.

(** ** Scans of the node list *)

Lemma find_split {A} (p : A -> bool) (l : list A) (x : A) :
  List.find p l = Some x ->
  exists l1 l2, l = l1 ++ x :: l2 /\ p x = true
                /\ forall y, List.In y l1 -> p y = false.
Proof.
  induction l as [|y l IH]; cbn; [discriminate|].
  destruct (p y) eqn:E.
  - intros [= <-]. exists [], l. repeat split; [exact E | intros ? []].
  - intros H. destruct (IH H) as (l1 & l2 & -> & Hx & Hl1).
    exists (y :: l1), l2. repeat split; [exact Hx|].
    intros z [<- | Hz]; auto.
Qed.

Lemma find_none_all {A} (p : A -> bool) (l : list A) :
  List.find p l = None -> forall y, List.In y l -> p y = false.
Proof. intros H y Hy. eapply List.find_none; eauto. Qed.

Lemma findIndex_split {A} (p : A -> bool) (l : list A) (i : nat) :
  findIndex p l = Some i ->
  exists x l2, l = List.firstn i l ++ x :: l2 /\ p x = true
               /\ forall y, List.In y (List.firstn i l) -> p y = false.
Proof.
  unfold findIndex, indexed.
  assert (H : forall k,
             option_map fst (List.find (fun x => p (snd x)) (indexedFrom k l))
             = Some (k + i) ->
             exists x l2, l = List.firstn i l ++ x :: l2 /\ p x = true
                          /\ forall y, List.In y (List.firstn i l) -> p y = false).
  { revert i. induction l as [|y l IH]; intros i k; cbn [indexedFrom List.find];
      [discriminate|].
    cbn [snd]. destruct (p y) eqn:E.
    - cbn. intros [= Hk]. assert (i = 0) as -> by lia.
      exists y, l. repeat split; [exact E | intros ? []].
    - intros H. destruct i as [|i].
      + exfalso.
        destruct (List.find _ (indexedFrom (S k) l)) as [[j z]|] eqn:F;
          [|discriminate].
        apply List.find_some in F as [F _].
        apply indexedFrom_In in F as [F _]. cbn in H. injection H as H. lia.
      + destruct (IH i (S k)) as (x & l2 & Hl & Hx & Hpre).
        { rewrite H. f_equal. lia. }
        exists x, l2. cbn [List.firstn List.app]. split; [now f_equal|].
        split; [exact Hx|]. intros z [<- | Hz]; auto. }
  intros Hi. apply (H 0). exact Hi.
Qed.

Lemma find_rev_split {A} (p : A -> bool) (l : list A) (x : A) :
  List.find p (List.rev l) = Some x ->
  exists l1 l2, l = l1 ++ x :: l2 /\ p x = true
                /\ forall y, List.In y l2 -> p y = false.
Proof.
  intros H. apply find_split in H as (r1 & r2 & Hr & Hx & Hr1).
  exists (List.rev r2), (List.rev r1).
  apply (f_equal (@List.rev A)) in Hr. rewrite List.rev_involutive in Hr.
  rewrite Hr, List.rev_app_distr. cbn [List.rev]. rewrite <- List.app_assoc.
  repeat split; [exact Hx|]. intros y Hy. apply Hr1. now apply List.in_rev.
Qed.

(** X10. The two backward scans never return a sentinel.
    [findLastNonSentinel] returns the last node that is neither [Start]
    nor [End], and nothing when there is none.
    [findPrevSequentialCandidate] returns the nearest such node strictly
    before the first node that carries the id of its argument, and nothing
    when that id is absent or only sentinels precede it. *)
Theorem backward_scans_skip_sentinels (nodes : list Node) (startNode : Node) :
  (forall n, findLastNonSentinel nodes = Some n ->
             exists l1 l2, nodes = l1 ++ n :: l2 /\ isNonSentinel n = true
                           /\ forall m, List.In m l2 -> isNonSentinel m = false)
  /\ (findLastNonSentinel nodes = None ->
      forall m, List.In m nodes -> isNonSentinel m = false)
  /\ (forall n, findPrevSequentialCandidate nodes startNode = Some n ->
                exists l1 l2 s l3,
                  nodes = l1 ++ n :: l2 ++ s :: l3
                  /\ Node.id s = Node.id startNode
                  /\ (forall m, List.In m (l1 ++ n :: l2) ->
                                Node.id m <> Node.id startNode)
                  /\ isNonSentinel n = true
                  /\ forall m, List.In m l2 -> isNonSentinel m = false)
  /\ (findPrevSequentialCandidate nodes startNode = None ->
      (forall m, List.In m nodes -> Node.id m <> Node.id startNode)
      \/ exists l1 s l3,
          nodes = l1 ++ s :: l3 /\ Node.id s = Node.id startNode
          /\ forall m, List.In m l1 ->
                       Node.id m <> Node.id startNode /\ isNonSentinel m = false).
Proof.
  split; [|split; [|split]].
  - intros n H. now apply find_rev_split.
  - intros H m Hm. apply (find_none_all _ _ H). now apply -> List.in_rev.
  - unfold findPrevSequentialCandidate. intros n.
    destruct (findIndex _ nodes) as [idx|] eqn:E; [|discriminate].
    apply findIndex_split in E as (s & l3 & Hn & Hs & Hpre).
    intros H. apply find_rev_split in H as (l1 & l2 & Hf & Hx & Hl2).
    exists l1, l2, s, l3. rewrite Hf in Hn, Hpre.
    rewrite <- List.app_assoc in Hn. cbn [List.app] in Hn.
    split; [exact Hn|]. split; [now apply Nat.eqb_eq in Hs|].
    split; [|auto].
    intros m Hm. apply Hpre in Hm. now apply Nat.eqb_neq in Hm.
  - unfold findPrevSequentialCandidate.
    destruct (findIndex _ nodes) as [idx|] eqn:E.
    + apply findIndex_split in E as (s & l3 & Hn & Hs & Hpre).
      intros H. right. exists (List.firstn idx nodes), s, l3.
      split; [exact Hn|]. split; [now apply Nat.eqb_eq in Hs|].
      intros m Hm. split; [apply Hpre in Hm; now apply Nat.eqb_neq in Hm|].
      apply (find_none_all _ _ H). now apply -> List.in_rev.
    + intros _. left. intros m Hm.
      unfold findIndex in E.
      destruct (List.find _ (indexed nodes)) as [[j z]|] eqn:F; [discriminate|].
      assert (G : forall k l, List.find (fun x : nat * Node => Node.id (snd x) =? Node.id startNode)
                                (indexedFrom k l) = None ->
                              forall y, List.In y l -> Node.id y <> Node.id startNode).
      { clear. intros k l. revert k. induction l as [|y l IH]; intros k; cbn; [tauto|].
        destruct (Node.id y =? Node.id startNode) eqn:E; [discriminate|].
        intros H z [<- | Hz]; [now apply Nat.eqb_neq in E | eapply IH; eauto]. }
      exact (G 0 nodes F m Hm).
Qed.

Lemma fold_left_snoc {A B} (f : B -> A -> B) (l : list A) (x : A) (b : B) :
  List.fold_left f (l ++ [x]) b = f (List.fold_left f l b) x.
Proof. now rewrite List.fold_left_app. Qed.

(** X11. [findNextConnector] returns the connector that lies after the
    given node and is nearest to it by line; among several on that line,
    the first of the list.  It returns nothing exactly when no connector
    lies after the node. *)
Theorem findNextConnector_nearest (nodes : list Node) (node : Node) :
  match findNextConnector nodes node with
  | Some b =>
      exists l1 l2,
        nodes = l1 ++ b :: l2
        /\ laterConnector node b = true
        /\ (forall c, List.In c l1 -> laterConnector node c = true ->
                      Node.line b < Node.line c)
        /\ (forall c, List.In c l2 -> laterConnector node c = true ->
                      Node.line b <= Node.line c)
  | None => forall c, List.In c nodes -> laterConnector node c = false
  end.
Proof.
  unfold findNextConnector.
  induction nodes as [|x nodes IH] using List.rev_ind; [intros c []|].
  rewrite fold_left_snoc.
  assert (Hx : laterConnector node x
               = negb (negb (kind_eqb (Node.kind x) Connector))
                 && negb (Node.line x <=? Node.line node)).
  { unfold laterConnector. rewrite negb_involutive. f_equal.
    destruct (Node.line x <=? Node.line node) eqn:E.
    - apply Nat.leb_le in E. apply Nat.ltb_ge. lia.
    - apply Nat.leb_gt in E. apply Nat.ltb_lt. lia. }
  destruct (negb (kind_eqb (Node.kind x) Connector)) eqn:K.
  { cbn in Hx.
    destruct (List.fold_left _ nodes None) as [b|].
    - destruct IH as (l1 & l2 & -> & Hb & H1 & H2).
      exists l1, (l2 ++ [x]). rewrite <- List.app_assoc. split; [reflexivity|].
      split; [exact Hb|]. split; [exact H1|].
      intros c Hc Hl. apply List.in_app_or in Hc as [Hc | [<- | []]]; [auto|].
      congruence.
    - intros c Hc. apply List.in_app_or in Hc as [Hc | [<- | []]]; auto. }
  destruct (Node.line x <=? Node.line node) eqn:L.
  { cbn in Hx.
    destruct (List.fold_left _ nodes None) as [b|].
    - destruct IH as (l1 & l2 & -> & Hb & H1 & H2).
      exists l1, (l2 ++ [x]). rewrite <- List.app_assoc. split; [reflexivity|].
      split; [exact Hb|]. split; [exact H1|].
      intros c Hc Hl. apply List.in_app_or in Hc as [Hc | [<- | []]]; [auto|].
      congruence.
    - intros c Hc. apply List.in_app_or in Hc as [Hc | [<- | []]]; auto. }
  cbn in Hx.
  destruct (List.fold_left _ nodes None) as [b|].
  - destruct IH as (l1 & l2 & -> & Hb & H1 & H2).
    destruct (Node.line x <? Node.line b) eqn:E.
    + apply Nat.ltb_lt in E.
      exists (l1 ++ b :: l2), []. split; [reflexivity|]. split; [exact Hx|].
      split; [|intros c []].
      intros c Hc Hl. apply List.in_app_or in Hc as [Hc | [<- | Hc]].
      * specialize (H1 c Hc Hl). lia.
      * exact E.
      * specialize (H2 c Hc Hl). lia.
    + apply Nat.ltb_ge in E.
      exists l1, (l2 ++ [x]). rewrite <- List.app_assoc. split; [reflexivity|].
      split; [exact Hb|]. split; [exact H1|].
      intros c Hc Hl. apply List.in_app_or in Hc as [Hc | [<- | []]]; auto.
  - exists nodes, []. split; [reflexivity|]. split; [exact Hx|].
    split; [|intros c []].
    intros c Hc Hl. rewrite (IH c Hc) in Hl. discriminate.
Qed.

Lemma findLastNonSentinel_some (nodes : list Node) (n : Node) :
  findLastNonSentinel nodes = Some n -> List.In n nodes /\ isNonSentinel n = true.
Proof.
  intros H. apply find_rev_split in H as (l1 & l2 & -> & H & _).
  split; [apply List.in_elt | exact H].
Qed.

Lemma findPrevSequentialCandidate_some (nodes : list Node) (s n : Node) :
  findPrevSequentialCandidate nodes s = Some n ->
  List.In n nodes /\ isNonSentinel n = true.
Proof.
  unfold findPrevSequentialCandidate.
  destruct (findIndex _ nodes) as [idx|]; [|discriminate].
  intros H. apply find_rev_split in H as (l1 & l2 & Hf & H & _).
  split; [|exact H].
  rewrite <- (List.firstn_skipn idx nodes), Hf.
  apply List.in_or_app. left. apply List.in_elt.
Qed.

(** X12. [wireSequential] changes nothing but the edge list and
    [lastExecutableNode].  It adds at most one edge, at the end of the
    list: an unlabelled edge into [to], which is then no connector, from
    the start node, from the node last executed, or from a node of the
    arena that is neither [Start] nor [End].  [lastExecutableNode] stays,
    or becomes [to]; the latter only when asked for and [to] carries no
    loop-back or forward-jump tag. *)
Theorem wireSequential_effect (to : Node) (updateLast : bool) (gb : GraphBuilder) :
  let gb' := wireSequential to updateLast gb in
  gb' = GB.with_lastExecutableNode (GB.lastExecutableNode gb')
          (GB.with_edges (GB.edges gb') gb)
  /\ (GB.lastExecutableNode gb' = GB.lastExecutableNode gb
      \/ (updateLast = true
          /\ isLoopOrNextNode (GB.nodes gb) (Some to) = false
          /\ GB.lastExecutableNode gb' = Some to))
  /\ (GB.edges gb' = GB.edges gb
      \/ exists f, GB.edges gb' = GB.edges gb ++ [edge (Node.id f) (Node.id to)]
                   /\ kind_eqb (Node.kind to) Connector = false
                   /\ sequentialOrigin gb f).
Proof.
  cbv zeta. unfold wireSequential.
  set (nodes := GB.nodes gb).
  set (from0 := default startNode (GB.lastExecutableNode gb)).
  assert (H0 : sequentialOrigin gb from0).
  { unfold from0. destruct (GB.lastExecutableNode gb) as [f|] eqn:E; cbn.
    - right. left. exact E.
    - now left. }
  set (afterStart := if Node.id from0 =? Node.id startNode then _ else _).
  assert (H1 : forall from1 f, afterStart = Some from1 -> from1 = Some f ->
                               sequentialOrigin gb f).
  { unfold afterStart. intros from1 f.
    destruct (Node.id from0 =? Node.id startNode);
      [destruct (existsb _ _);
       [destruct (findLastNonSentinel nodes) as [g|] eqn:E; [|discriminate]|]|];
      intros [= <-] [= <-]; auto.
    right. right. now apply findLastNonSentinel_some. }
  destruct afterStart as [from1|].
  2:{ destruct gb. cbn. auto. }
  specialize (H1 from1).
  set (from2 := if isLoopOrNextNode nodes from1 then _ else from1).
  assert (H2 : forall f, from2 = Some f -> sequentialOrigin gb f).
  { unfold from2. intros f. destruct (isLoopOrNextNode nodes from1); [|now apply H1].
    destruct from1 as [g|]; [|discriminate].
    intros H. right. right. now apply findPrevSequentialCandidate_some in H. }
  set (from3 := match from2 with Some f => _ | None => from2 end).
  assert (H3 : forall f, from3 = Some f -> sequentialOrigin gb f).
  { unfold from3. intros f. destruct from2 as [g|]; [|discriminate].
    destruct (kind_eqb (Node.kind g) Decision); [|now apply H2].
    intros H. right. right. now apply findPrevSequentialCandidate_some in H. }
  clearbody from3. clear from2 H2 H1 from1 H0.
  assert (Hl : updateLast && negb (isLoopOrNextNode nodes (Some to)) = true ->
               updateLast = true /\ isLoopOrNextNode nodes (Some to) = false).
  { intros H. apply andb_prop in H as [-> H]. now apply negb_true_iff in H. }
  destruct (updateLast && negb (isLoopOrNextNode nodes (Some to)));
    [specialize (Hl eq_refl); destruct Hl as [Hu Hl]|];
    (destruct (kind_eqb (Node.kind to) Connector) eqn:K;
     [|destruct from3 as [f|];
       [specialize (H3 f eq_refl);
        destruct (pushEdge_shape (edge (Node.id f) (Node.id to)) gb) as [-> | ->]|]]);
    (split; [now destruct gb|]);
    (split; [cbn; auto|]);
    cbn [GB.edges GB.with_edges GB.with_lastExecutableNode]; eauto.
Qed.

(** ** Inline markers *)

Lemma finalizeNode_loop_part (node : Node) (gb : GraphBuilder) (target : Node) :
  exists es,
    (if negb (hasEdge (GB.edges gb) (Node.id node) (Node.id target) None)
     then pushEdge (edge (Node.id node) (Node.id target)) gb else gb)
    = GB.with_edges es gb
    /\ hasEdge es (Node.id node) (Node.id target) None = true
    /\ (es = GB.edges gb
        \/ es = GB.edges gb ++ [edge (Node.id node) (Node.id target)]).
Proof.
  destruct (hasEdge (GB.edges gb) (Node.id node) (Node.id target) None) eqn:E;
    cbn [negb].
  - exists (GB.edges gb). split; [now destruct gb | auto].
  - pose proof (pushEdge_has (edge (Node.id node) (Node.id target)) gb) as Hh.
    destruct (pushEdge_shape (edge (Node.id node) (Node.id target)) gb) as [Hs | Hs];
      rewrite Hs in Hh |- *.
    + exists (GB.edges gb). split; [now destruct gb | auto].
    + eexists. split; [reflexivity | auto].
Qed.

Lemma shape_appendMeta (id : nat) (extra : jsstring) (nodes : list Node) :
  shape (appendMeta id extra nodes) = shape nodes.
Proof. apply shape_updateMeta. Qed.

(** X13. What the inline markers of a line do in [finalizeNode].  Without
    [loop] and [next] the builder is left as it is, and so it is by a
    lone [loop] before any connector.  [loop] after a connector guarantees
    an unlabelled edge from the node back to the last connector, added at
    the end of the list if it was missing.  [next] queues the node behind
    the nodes already waiting.  A marker that took effect leaves the node,
    if it is in the arena, tagged as loop-back or forward-jump.  No other
    edge is added, and ids, kinds and the other fields stay. *)
Theorem finalizeNode_markers (node : Node) (gram : Grammar) (gb : GraphBuilder) :
  let gb' := finalizeNode node gram gb in
  let loops := has (linekey gram) (lit "loop") in
  let nexts := has (linekey gram) (lit "next") in
  (loops = false -> nexts = false -> gb' = gb)
  /\ (loops = true -> GB.lastConnectorLikeNode gb = None -> nexts = false ->
      gb' = gb)
  /\ (forall target, loops = true -> GB.lastConnectorLikeNode gb = Some target ->
        hasEdge (GB.edges gb') (Node.id node) (Node.id target) None = true
        /\ (GB.edges gb' = GB.edges gb
            \/ GB.edges gb' = GB.edges gb ++ [edge (Node.id node) (Node.id target)])
        /\ forall n, List.In n (GB.nodes gb) -> Node.id n = Node.id node ->
                     isLoopOrNextNode (GB.nodes gb') (Some node) = true)
  /\ (loops = false \/ GB.lastConnectorLikeNode gb = None ->
      GB.edges gb' = GB.edges gb)
  /\ GB.pendingNextNodes gb'
     = GB.pendingNextNodes gb ++ (if nexts then [node] else [])
  /\ (nexts = true ->
      forall n, List.In n (GB.nodes gb) -> Node.id n = Node.id node ->
                isLoopOrNextNode (GB.nodes gb') (Some node) = true)
  /\ shape (GB.nodes gb') = shape (GB.nodes gb)
  /\ GB.nextId gb' = GB.nextId gb
  /\ GB.endNodeId gb' = GB.endNodeId gb
  /\ GB.lastExecutableNode gb' = GB.lastExecutableNode gb
  /\ GB.lastConnectorLikeNode gb' = GB.lastConnectorLikeNode gb.
Proof.
  cbv zeta. unfold finalizeNode.
  assert (Hloop : forall n, List.In n (GB.nodes gb) -> Node.id n = Node.id node ->
             metaIsLoopOrNext
               (metaOf (appendMeta (Node.id node) (lit "inline-loop") (GB.nodes gb))
                  (Node.id node)) = true).
  { intros n Hn Hid. unfold metaIsLoopOrNext.
    now rewrite (metaOf_appendMeta_adds _ _ _ n Hn Hid). }
  assert (Hnext : forall nodes n, List.In n nodes -> Node.id n = Node.id node ->
             metaIsLoopOrNext
               (metaOf (appendMeta (Node.id node) (lit "inline-next") nodes)
                  (Node.id node)) = true).
  { intros nodes n Hn Hid. unfold metaIsLoopOrNext.
    rewrite (metaOf_appendMeta_adds _ _ _ n Hn Hid). apply orb_true_r. }
  destruct (GB.lastConnectorLikeNode gb) as [t|] eqn:LC;
    destruct (has (linekey gram) (lit "loop")) eqn:L;
    destruct (has (linekey gram) (lit "next")) eqn:N;
    try (destruct (finalizeNode_loop_part node gb t) as (es & -> & Hh & He));
    unfold gbAppendMeta;
    cbn [GB.nodes GB.edges GB.with_nodes GB.with_pendingNextNodes GB.pendingNextNodes
         GB.nextId GB.endNodeId GB.lastExecutableNode GB.lastConnectorLikeNode
         GB.with_edges isLoopOrNextNode];
    rewrite ?shape_appendMeta.
  all: repeat match goal with |- _ /\ _ => split end.
  all: try reflexivity; try (intros; discriminate); try (intros; congruence).
  all: try (now rewrite List.app_nil_r).
  all: try (now intros [? | ?]).
  all: try (intros target _ [= <-]; split; [exact Hh | split; [exact He|]]).
  all: try (intros _).
  all: intros n Hn Hid.
  all: try (now apply (Hnext _ n)).
  all: try (now apply (Hloop n)).
  all: destruct (appendMeta_In (GB.nodes gb) (Node.id node) (lit "inline-loop") n Hn)
         as (n' & Hn' & Hid').
  all: apply (Hnext _ n'); congruence.
Qed.

(** ** What the fan-in pass adds *)

Lemma feedStep_fold_added (c : Node) (F : gset nat) (P : Edge -> Prop) (W : list Node) :
  (forall n, List.In n W -> Node.id n ∈ F -> metaIsLoopOrNext (Node.meta n) = false ->
             P (edge (Node.id n) (Node.id c))) ->
  forall gb, exists added,
    List.fold_left (feedStep c F) W gb = GB.with_edges (GB.edges gb ++ added) gb
    /\ List.Forall P added.
Proof.
  induction W as [|x W IH]; intros HP gb; cbn [List.fold_left].
  - exists []. rewrite List.app_nil_r. split; [now destruct gb | constructor].
  - assert (Hx : exists a, feedStep c F gb x = GB.with_edges (GB.edges gb ++ a) gb
                           /\ List.Forall P a).
    { unfold feedStep.
      destruct (metaIsLoopOrNext (Node.meta x)) eqn:Hm.
      { exists []. rewrite List.app_nil_r. split; [now destruct gb | constructor]. }
      destruct (bool_decide (Node.id x ∈ F)) eqn:HF; cbn [negb].
      2:{ exists []. rewrite List.app_nil_r. split; [now destruct gb | constructor]. }
      apply bool_decide_eq_true_1 in HF.
      destruct (hasEdge _ _ _ _); cbn [negb].
      { exists []. rewrite List.app_nil_r. split; [now destruct gb | constructor]. }
      destruct (pushEdge_shape (edge (Node.id x) (Node.id c)) gb) as [-> | ->].
      - exists []. rewrite List.app_nil_r. split; [now destruct gb | constructor].
      - eexists. split; [reflexivity|]. constructor; [|constructor].
        apply HP; [now left | exact HF | exact Hm]. }
    destruct Hx as (a & -> & Ha).
    destruct (IH (fun n Hn => HP n (or_intror Hn)) (GB.with_edges (GB.edges gb ++ a) gb))
      as (b & -> & Hb).
    exists (a ++ b). split.
    + destruct gb. cbn. now rewrite List.app_assoc.
    + apply List.Forall_app. auto.
Qed.

Lemma computeConnectorFanin_appends_aux (c : Node) (gb : GraphBuilder) :
  exists (F : gset nat) (gb' : GraphBuilder) (feeds out : list Edge),
    feedersOf c gb = Some F
    /\ computeConnectorFanin c gb = Some gb'
    /\ gb' = GB.with_edges (GB.edges gb ++ feeds ++ out) gb
    /\ List.Forall (faninEdge c gb F) feeds
    /\ (out = []
        \/ exists e, out = [e] /\ fallthroughEdge c gb e
                     /\ forall e', List.In e' (GB.edges gb ++ feeds) ->
                                   Edge.from e' <> Node.id c).
Proof.
  destruct (computeConnectorFanin_feeders_aux c gb) as (gb' & Hgb').
  unfold computeConnectorFanin in Hgb' |- *.
  destruct (feedersOf c gb) as [F|]; [|discriminate].
  destruct (feedStep_fold_added c F (faninEdge c gb F) (faninWindowOf c gb)) with (gb := gb)
    as (feeds & Hfold & Hfeeds).
  { intros n Hn HF Hm. exists n. auto. }
  rewrite Hfold. clear Hgb' gb'.
  unfold connectorFallthrough.
  cbn [GB.edges GB.nodes GB.with_edges].
  destruct (existsb _ (GB.edges gb ++ feeds)) eqn:Hout; cbn [negb].
  { exists F. eexists. exists feeds, []. rewrite List.app_nil_r. repeat split; auto. }
  destruct (List.find _ (GB.nodes gb)) as [nxt|] eqn:Hfind.
  2:{ exists F. eexists. exists feeds, []. rewrite List.app_nil_r.
      repeat split; auto. }
  destruct (pushEdge_shape (edge (Node.id c) (Node.id nxt))
              (GB.with_edges (GB.edges gb ++ feeds) gb)) as [Hp | Hp]; rewrite Hp.
  { exists F. eexists. exists feeds, []. rewrite List.app_nil_r. repeat split; auto. }
  exists F. eexists. exists feeds, [edge (Node.id c) (Node.id nxt)].
  split; [reflexivity|]. split; [reflexivity|].
  split; [destruct gb; cbn; now rewrite <- List.app_assoc|].
  split; [exact Hfeeds|]. right. eexists. split; [reflexivity|]. split.
  - apply List.find_some in Hfind as [Hin Hc].
    apply andb_prop in Hc as [Hc Hline]. apply andb_prop in Hc as [Hc Hind].
    apply andb_prop in Hc as [Hid Hns].
    exists nxt. repeat split; auto.
    + apply negb_true_iff, Nat.eqb_neq in Hid. exact Hid.
    + now apply Nat.eqb_eq in Hind.
    + now apply Nat.ltb_lt in Hline.
  - intros e' He' Hfrom.
    assert (existsb (fun e => Edge.from e =? Node.id c) (GB.edges gb ++ feeds) = true).
    { apply List.existsb_exists. exists e'. split; [exact He'|]. now apply Nat.eqb_eq. }
    congruence.
Qed.

(** X14. The fan-in pass of a connector only appends edges, and leaves
    the rest of the builder alone.  What it appends is, first, edges into
    the connector, each from a node of the window that was left in the
    feeder set and carries no loop-back or forward-jump tag; then at most
    one edge out of the connector, to a later node at the connector's
    indentation, and only when no edge left the connector before. *)
Theorem computeConnectorFanin_appends_only (c : Node) (gb : GraphBuilder) :
  exists (F : gset nat) (gb' : GraphBuilder) (feeds out : list Edge),
    feedersOf c gb = Some F
    /\ computeConnectorFanin c gb = Some gb'
    /\ gb' = GB.with_edges (GB.edges gb ++ feeds ++ out) gb
    /\ List.Forall (faninEdge c gb F) feeds
    /\ (out = []
        \/ exists e, out = [e] /\ fallthroughEdge c gb e
                     /\ forall e', List.In e' (GB.edges gb ++ feeds) ->
                                   Edge.from e' <> Node.id c).
Proof. exact (computeConnectorFanin_appends_aux c gb). Qed.

(** ** The validator and its diagnostics *)

Lemma filter_length_perm {A} (p : A -> bool) (l l' : list A) :
  Permutation l l' -> length (List.filter p l) = length (List.filter p l').
Proof.
  induction 1 as [|x l l' _ IH|x y l|l l' l'' _ IH1 _ IH2]; cbn.
  - reflexivity.
  - destruct (p x); cbn; now rewrite IH.
  - destruct (p x), (p y); reflexivity.
  - now rewrite IH1.
Qed.

Lemma violations_degrees (edges edges' : list Edge) (n : Node) :
  inDeg edges (Node.id n) = inDeg edges' (Node.id n) ->
  outDeg edges (Node.id n) = outDeg edges' (Node.id n) ->
  violations edges n = violations edges' n.
Proof. unfold violations. now intros -> ->. Qed.

Lemma degrees_relabel (f : Edge -> option jsstring) (edges : list Edge) (id : nat) :
  inDeg (List.map (relabel f) edges) id = inDeg edges id
  /\ outDeg (List.map (relabel f) edges) id = outDeg edges id.
Proof.
  unfold inDeg, outDeg.
  induction edges as [|e edges [IHi IHo]]; cbn; [auto|].
  destruct (Edge.to e =? id), (Edge.from e =? id); cbn; auto.
Qed.

(** X15. The validator looks at neither the order nor the labels of the
    edges: it gives the same messages for an edge list and for any
    rearrangement of it under any other labels. *)
Theorem validNodeIO_ignores_order_and_labels (nodes : list Node)
  (edges edges' : list Edge) (f : Edge -> option jsstring) :
  Permutation edges edges' ->
  validNodeIO nodes (List.map (relabel f) edges') = validNodeIO nodes edges.
Proof.
  intros HP. rewrite !validNodeIO_flat_map.
  apply List.flat_map_ext. intros n.
  destruct (degrees_relabel f edges' (Node.id n)) as [Hi Ho].
  apply violations_degrees.
  - rewrite Hi. unfold inDeg. symmetry. now apply filter_length_perm.
  - rewrite Ho. unfold outDeg. symmetry. now apply filter_length_perm.
Qed.

Lemma validNodeIO_ignores_order_and_labels_witness :
  Permutation [edge 0 1; edge 1 2] [edge 1 2; edge 0 1]
  /\ validNodeIO [startNode; chainA]
       (List.map (relabel (fun _ => Some (lit "yes"))) [edge 1 2; edge 0 1])
     = validNodeIO [startNode; chainA] [edge 0 1; edge 1 2].
Proof.
  split; [apply perm_swap|].
  apply validNodeIO_ignores_order_and_labels. apply perm_swap.
Defined.

Lemma violations_length (edges : list Edge) (n : Node) :
  length (violations edges n) <= 2.
Proof.
  unfold violations. destruct (isFunBodyMember n); [cbn; lia|].
  rewrite List.length_map.
  generalize (inDeg edges (Node.id n)) (outDeg edges (Node.id n)). intros i o.
  destruct (Node.kind n); cbn [violated List.filter];
    repeat match goal with
           | |- context [?a <? ?b] =>
               let E := fresh "E" in
               destruct (a <? b) eqn:E;
               [apply Nat.ltb_lt in E | apply Nat.ltb_ge in E]
           end; cbn [length]; lia.
Qed.

Lemma violations_split (edges : list Edge) (n : Node) :
  let i := inDeg edges (Node.id n) in
  let o := outDeg edges (Node.id n) in
  exists ins outs,
    violations edges n = ins ++ outs
    /\ length ins <= 1 /\ length outs <= 1
    /\ List.Forall (fun m => m = boundMessage n i o MinIn
                             \/ m = boundMessage n i o MaxIn) ins
    /\ List.Forall (fun m => m = boundMessage n i o MinOut
                             \/ m = boundMessage n i o MaxOut) outs.
Proof.
  cbv zeta. unfold violations.
  destruct (isFunBodyMember n).
  { exists [], []. repeat split; auto. }
  set (i := inDeg edges (Node.id n)). set (o := outDeg edges (Node.id n)).
  exists (List.map (boundMessage n i o)
            (List.filter (violated (Node.kind n) i o) [MinIn; MaxIn])),
    (List.map (boundMessage n i o)
       (List.filter (violated (Node.kind n) i o) [MinOut; MaxOut])).
  split; [now rewrite <- List.map_app, <- List.filter_app|].
  assert (Hin : length (List.filter (violated (Node.kind n) i o) [MinIn; MaxIn]) <= 1).
  { clearbody i o. destruct (Node.kind n); cbn [violated List.filter];
      repeat match goal with
             | |- context [?a <? ?b] =>
                 let E := fresh "E" in
                 destruct (a <? b) eqn:E;
                 [apply Nat.ltb_lt in E | apply Nat.ltb_ge in E]
             end; cbn [length]; lia. }
  assert (Hout : length (List.filter (violated (Node.kind n) i o) [MinOut; MaxOut]) <= 1).
  { clearbody i o. destruct (Node.kind n); cbn [violated List.filter];
      repeat match goal with
             | |- context [?a <? ?b] =>
                 let E := fresh "E" in
                 destruct (a <? b) eqn:E;
                 [apply Nat.ltb_lt in E | apply Nat.ltb_ge in E]
             end; cbn [length]; lia. }
  rewrite !List.length_map.
  split; [exact Hin|]. split; [exact Hout|]. split.
  - apply List.Forall_forall. intros m Hm.
    apply List.in_map_iff in Hm as (b & <- & Hb).
    apply List.filter_In in Hb as [[<- | [<- | []]] _]; auto.
  - apply List.Forall_forall. intros m Hm.
    apply List.in_map_iff in Hm as (b & <- & Hb).
    apply List.filter_In in Hb as [[<- | [<- | []]] _]; auto.
Qed.

(** X16. A node draws at most two messages from the validator, at most
    one about its inputs and at most one about its outputs: the lower and
    the upper bound of a row are never both violated.  The messages of a
    node list are, node after node, those the validator gives for each
    node alone; for one node they are at most one of the two messages on
    its in-degree followed by at most one of the two on its out-degree.
    So a list of nodes draws at most twice as many messages as it has
    nodes. *)
Theorem validNodeIO_at_most_two_per_node (nodes : list Node) (edges : list Edge) :
  validNodeIO nodes edges
  = List.flat_map (fun n => validNodeIO [n] edges) nodes
  /\ (forall n,
        let i := inDeg edges (Node.id n) in
        let o := outDeg edges (Node.id n) in
        exists ins outs,
          validNodeIO [n] edges = ins ++ outs
          /\ length ins <= 1 /\ length outs <= 1
          /\ List.Forall (fun m => m = boundMessage n i o MinIn
                                   \/ m = boundMessage n i o MaxIn) ins
          /\ List.Forall (fun m => m = boundMessage n i o MinOut
                                   \/ m = boundMessage n i o MaxOut) outs)
  /\ (forall n, length (validNodeIO [n] edges) <= 2)
  /\ length (validNodeIO nodes edges) <= 2 * length nodes.
Proof.
  assert (H1 : forall n, validNodeIO [n] edges = violations edges n).
  { intros n. rewrite validNodeIO_flat_map. cbn [List.flat_map].
    apply List.app_nil_r. }
  split; [|split; [|split]].
  - rewrite validNodeIO_flat_map. apply List.flat_map_ext. intros n.
    symmetry. apply H1.
  - intros n. cbv zeta. rewrite H1. apply violations_split.
  - intros n. rewrite H1. apply violations_length.
  - rewrite validNodeIO_flat_map.
    induction nodes as [|n nodes IH]; cbn [List.flat_map length]; [lia|].
    rewrite List.length_app. pose proof (violations_length edges n). lia.
Qed.

Lemma lit_String (a : ascii) (s : string) :
  lit (String a s) = N_of_ascii a :: lit s.
Proof. reflexivity. Qed.

Lemma parseInt_digits (d : Decimal.uint) :
  forall acc,
    List.fold_left (fun acc c => 10 * acc + N.to_nat (c - 48))
      (lit (NilEmpty.string_of_uint d)) acc
    = Nat.of_uint_acc d acc.
Proof.
  induction d; intros acc; cbn [NilEmpty.string_of_uint Nat.of_uint_acc];
    [reflexivity|..];
    rewrite lit_String; cbn [List.fold_left]; rewrite IHd, Nat.tail_mul_spec;
    f_equal; cbn; lia.
Qed.

Lemma digits_are_digits (d : Decimal.uint) :
  List.forallb isDigit (lit (NilEmpty.string_of_uint d)) = true.
Proof.
  induction d; cbn [NilEmpty.string_of_uint]; [reflexivity|..];
    rewrite lit_String; cbn [List.forallb]; rewrite IHd; reflexivity.
Qed.

Lemma to_uint_not_nil (n : nat) : Nat.to_uint n <> Decimal.Nil.
Proof.
  intros H. pose proof (DecimalNat.Unsigned.of_to n) as E. rewrite H in E.
  cbn in E. subst n. discriminate.
Qed.

Lemma toString_digits (n : nat) :
  toString n = lit (NilEmpty.string_of_uint (Nat.to_uint n)).
Proof.
  unfold toString, NilZero.string_of_uint.
  pose proof (to_uint_not_nil n). now destruct (Nat.to_uint n).
Qed.

Lemma parseInt_toString (n : nat) : parseInt (toString n) = n.
Proof.
  unfold parseInt. rewrite toString_digits, parseInt_digits.
  apply DecimalNat.Unsigned.of_to.
Qed.

Lemma toString_isDigit (n : nat) : List.forallb isDigit (toString n) = true.
Proof. rewrite toString_digits. apply digits_are_digits. Qed.

Lemma toString_not_nil (n : nat) : toString n <> [].
Proof.
  rewrite toString_digits. pose proof (to_uint_not_nil n).
  destruct (Nat.to_uint n); [congruence|..]; cbn [NilEmpty.string_of_uint];
    rewrite lit_String; discriminate.
Qed.

Lemma takeWhile_all {A} (p : A -> bool) (l r : list A) :
  List.forallb p l = true ->
  takeWhile p (l ++ r) = l ++ takeWhile p r.
Proof.
  induction l as [|x l IH]; cbn; [reflexivity|].
  intros H. apply andb_prop in H as [-> H]. now rewrite IH.
Qed.

Lemma matchLine_skip (pre rest : jsstring) :
  List.forallb (fun c => negb (N.eqb c 76)) pre = true ->
  matchLine (pre ++ rest) = matchLine rest.
Proof.
  induction pre as [|c pre IH]; cbn [List.forallb List.app matchLine]; [reflexivity|].
  intros H. apply andb_prop in H as [Hc H]. apply negb_true_iff in Hc.
  rewrite Hc. now apply IH.
Qed.

Lemma forallb_weaken {A} (p q : A -> bool) (l : list A) :
  (forall x, p x = true -> q x = true) ->
  List.forallb p l = true -> List.forallb q l = true.
Proof.
  intros H. induction l as [|x l IH]; cbn; [reflexivity|].
  intros E. apply andb_prop in E as [E1 E2]. now rewrite (H x E1), IH.
Qed.

Lemma isDigit_not_L (c : N) : isDigit c = true -> negb (N.eqb c 76) = true.
Proof.
  unfold isDigit. intros H. apply andb_prop in H as [_ H]. apply N.leb_le in H.
  apply negb_true_iff, N.eqb_neq. lia.
Qed.

(** The line of a validator message is found again by the pattern. *)
Lemma matchLine_nodeInfo (n : Node) (rest : jsstring) :
  matchLine (nodeInfo n ++ Ch.space :: rest) = Some (toString (Node.line n + 1)).
Proof.
  unfold nodeInfo.
  change (lit "] L") with (lit "] " ++ [76%N]).
  rewrite <- !List.app_assoc.
  rewrite matchLine_skip by reflexivity.
  unfold padStart. rewrite <- !List.app_assoc.
  rewrite matchLine_skip
    by (apply List.forallb_forall; intros x Hx; apply List.repeat_spec in Hx;
        now subst x).
  rewrite matchLine_skip
    by (apply (forallb_weaken isDigit); [apply isDigit_not_L | apply toString_isDigit]).
  rewrite matchLine_skip by reflexivity.
  rewrite matchLine_skip by (now destruct (Node.kind n)).
  rewrite matchLine_skip by reflexivity.
  cbn [List.app matchLine]. rewrite N.eqb_refl.
  rewrite takeWhile_all by apply toString_isDigit.
  cbn [takeWhile]. change (isDigit Ch.space) with false. cbn iota.
  rewrite List.app_nil_r.
  pose proof (toString_not_nil (Node.line n + 1)).
  now destruct (toString (Node.line n + 1)).
Qed.

Lemma diagnosticOf_boundMessage (lineCount : nat) (n : Node) (i o : nat) (b : Bound) :
  diagnosticOf lineCount (boundMessage n i o b)
  = Some (lineDiagnostic (Node.line n) (boundMessage n i o b)).
Proof.
  unfold diagnosticOf.
  assert (H : matchLine (boundMessage n i o b) = Some (toString (Node.line n + 1))).
  { destruct b; cbn [boundMessage]; unfold tooFew, tooMany;
      apply (matchLine_nodeInfo n). }
  rewrite H, parseInt_toString, Nat.add_1_r. reflexivity.
Qed.

Lemma createDiagnostics_fold (lineCount : nat) (f : jsstring -> Diagnostic)
  (errors : list jsstring) :
  (forall e, List.In e errors -> diagnosticOf lineCount e = Some (f e)) ->
  forall acc,
    List.fold_left
      (fun diagnostics error =>
         match diagnostics, diagnosticOf lineCount error with
         | Some ds, Some d => Some (ds ++ [d])
         | _, _ => None
         end) errors (Some acc)
    = Some (acc ++ List.map f errors).
Proof.
  induction errors as [|e errors IH]; intros H acc; cbn [List.fold_left List.map].
  - now rewrite List.app_nil_r.
  - rewrite (H e (or_introl eq_refl)), IH by (intros; apply H; now right).
    now rewrite <- List.app_assoc.
Qed.

Lemma createDiagnostics_validNodeIO (lineCount : nat) (nodes : list Node)
  (edges : list Edge) :
  createDiagnostics lineCount (validNodeIO nodes edges)
  = Some (List.flat_map
            (fun n => List.map (lineDiagnostic (Node.line n)) (violations edges n))
            nodes).
Proof.
  rewrite validNodeIO_flat_map. unfold createDiagnostics.
  enough (H : forall acc,
             List.fold_left
               (fun diagnostics error =>
                  match diagnostics, diagnosticOf lineCount error with
                  | Some ds, Some d => Some (ds ++ [d])
                  | _, _ => None
                  end) (List.flat_map (violations edges) nodes) (Some acc)
             = Some (acc ++ List.flat_map
                       (fun n => List.map (lineDiagnostic (Node.line n))
                                   (violations edges n)) nodes))
    by apply (H []).
  induction nodes as [|n nodes IH]; intros acc; cbn [List.flat_map List.fold_left].
  - now rewrite List.app_nil_r.
  - rewrite List.fold_left_app.
    rewrite (createDiagnostics_fold lineCount (lineDiagnostic (Node.line n))).
    + rewrite IH. now rewrite <- List.app_assoc.
    + intros e He. unfold violations in He.
      destruct (isFunBodyMember n); [destruct He|].
      apply List.in_map_iff in He as (b & <- & _).
      apply diagnosticOf_boundMessage.
Qed.

(** X17. Turning the validator's messages into diagnostics never fails,
    whatever the document, and puts every message on the line of the node
    it is about: the line number written into the message is read back
    unchanged. *)
Theorem createDiagnostics_marks_node_lines (lineCount : nat) (nodes : list Node)
  (edges : list Edge) :
  createDiagnostics lineCount (validNodeIO nodes edges)
  = Some (List.flat_map
            (fun n => List.map (lineDiagnostic (Node.line n)) (violations edges n))
            nodes).
Proof. apply createDiagnostics_validNodeIO. Qed.

(** X26. Validating a document never ends in the parse-error diagnostic:
    on every text, with any line count, the parser returns a graph and
    the diagnostics handed over are those of the validator's messages on
    that graph, one per message, each on the line of its node. *)
Theorem validateDocument_never_parse_error (lineCount : nat) (text : jsstring) :
  exists g,
    parseivx text = Done g
    /\ validateDocument lineCount text
       = Diagnosed
           (List.flat_map
              (fun n => List.map (lineDiagnostic (Node.line n))
                          (violations (Graph.edges g) n))
              (Graph.nodes g))
    /\ (validateDocument lineCount text = Diagnosed []
        <-> validNodeIO (Graph.nodes g) (Graph.edges g) = []).
Proof.
  destruct (parseivx_wellFormed text) as (g & E & _).
  exists g. split; [exact E|].
  unfold validateDocument, buildGraph. rewrite E, createDiagnostics_validNodeIO.
  split; [reflexivity|].
  rewrite validNodeIO_flat_map. split.
  - intros [= H]. induction (Graph.nodes g) as [|n l IH]; [reflexivity|].
    cbn [List.flat_map] in H |- *. apply List.app_eq_nil in H as [H1 H2].
    rewrite (IH H2), List.app_nil_r.
    destruct (violations (Graph.edges g) n); [reflexivity | discriminate].
  - intros H. f_equal. induction (Graph.nodes g) as [|n l IH]; [reflexivity|].
    cbn [List.flat_map] in H |- *. apply List.app_eq_nil in H as [H1 H2].
    now rewrite H1, (IH H2).
Qed.

(** X18. [createDiagnostics] in general.  When it returns, it returns one
    diagnostic per message, in order and with the message unchanged, each
    on a single line or on the whole document, from column 0 to column
    1000.  It fails only on a message whose number after [L] is 0, or, in
    a document without lines, on a message without such a number. *)
Theorem createDiagnostics_shape (lineCount : nat) (errors : list jsstring) :
  match createDiagnostics lineCount errors with
  | Some ds =>
      List.map message ds = errors
      /\ List.Forall
           (fun d => startCharacter (range d) = 0
                     /\ endCharacter (range d) = 1000
                     /\ (startLine (range d) = endLine (range d)
                         \/ (startLine (range d) = 0
                             /\ endLine (range d) = lineCount - 1))) ds
  | None =>
      exists e, List.In e errors
                /\ ((exists digits, matchLine e = Some digits /\ parseInt digits = 0)
                    \/ (matchLine e = None /\ lineCount = 0))
  end.
Proof.
  unfold createDiagnostics.
  induction errors as [|e errors IH] using List.rev_ind; cbn [List.fold_left].
  - split; constructor.
  - rewrite fold_left_snoc.
    destruct (List.fold_left _ errors (Some [])) as [ds|].
    + destruct IH as [Hm Hr]. unfold diagnosticOf.
      destruct (matchLine e) as [digits|] eqn:M.
      * destruct (parseInt digits) as [|l] eqn:P.
        -- exists e. split; [apply List.in_or_app; right; now left|].
           left. now exists digits.
        -- rewrite List.map_app, Hm. split; [reflexivity|].
           apply List.Forall_app. split; [exact Hr|].
           constructor; [cbn; auto | constructor].
      * destruct lineCount as [|l].
        -- exists e. split; [apply List.in_or_app; right; now left | auto].
        -- rewrite List.map_app, Hm. split; [reflexivity|].
           apply List.Forall_app. split; [exact Hr|].
           constructor; [cbn; rewrite Nat.sub_0_r; auto | constructor].
    + destruct IH as (e' & He' & H). exists e'.
      split; [apply List.in_or_app; now left | exact H].
Qed.

(** ** Editing a line *)

Lemma splitAtSlashes_spec (s : jsstring) :
  s = fst (splitAtSlashes s) ++ snd (splitAtSlashes s)
  /\ (snd (splitAtSlashes s) = []
      \/ startsWith (lit "//") (snd (splitAtSlashes s)) = true).
Proof.
  induction s as [|c s [IH1 IH2]]; [cbn; auto|].
  cbn [splitAtSlashes].
  destruct (startsWith (lit "//") (c :: s)) eqn:E; [cbn [fst snd]; auto|].
  destruct (splitAtSlashes s) as [b cm]. cbn [fst snd] in *.
  split; [now rewrite IH1 at 1 | exact IH2].
Qed.

Lemma splitAtSlashes_recompose (p cm : jsstring) :
  ~ List.In 47%N p ->
  cm = [] \/ startsWith (lit "//") cm = true ->
  splitAtSlashes (p ++ cm) = (p, cm).
Proof.
  intros Hp Hcm. induction p as [|x p IH]; cbn [List.app].
  - destruct cm as [|c r]; [reflexivity|].
    destruct Hcm as [Hcm | Hcm]; [discriminate|].
    cbn [splitAtSlashes]. now rewrite Hcm.
  - cbn [splitAtSlashes].
    assert (Hx : N.eqb 47 x = false).
    { apply N.eqb_neq. intros <-. apply Hp. now left. }
    assert (E : startsWith (lit "//") (x :: p ++ cm) = false).
    { change (startsWith (lit "//") (x :: p ++ cm))
        with (N.eqb 47 x && startsWith [47%N] (p ++ cm)).
      now rewrite Hx. }
    rewrite E, IH; [reflexivity|]. intros H. apply Hp. now right.
Qed.

Lemma takeWhile_stop {A} (p : A -> bool) (l : list A) :
  match l with
  | [] => True
  | x :: _ => p x = false
  end -> takeWhile p l = [].
Proof. destruct l as [|x l]; cbn; [auto | now intros ->]. Qed.

Lemma dropWhile_all {A} (p : A -> bool) (l r : list A) :
  List.forallb p l = true -> dropWhile p (l ++ r) = dropWhile p r.
Proof. intros H. now rewrite dropWhile_app, H. Qed.

Lemma isListMark_not_space (c : N) : isListMark c = true -> isWhiteSpace c = false.
Proof.
  unfold isListMark. intros H.
  apply orb_prop in H as [H | H]; [apply orb_prop in H as [H | H]|];
    apply N.eqb_eq in H; subst c; reflexivity.
Qed.

Lemma isWhiteSpace_not_mark (c : N) : isWhiteSpace c = true -> isListMark c = false.
Proof.
  intros H. destruct (isListMark c) eqn:E; [|reflexivity].
  apply isListMark_not_space in E. congruence.
Qed.

Lemma editPrefix_of_parts (w1 m w2 t : jsstring) :
  List.forallb isWhiteSpace w1 = true ->
  List.forallb isListMark m = true ->
  List.forallb isWhiteSpace w2 = true ->
  (m = [] -> w2 = []) ->
  headOutside isWhiteSpace t -> headOutside isListMark t ->
  editPrefix (w1 ++ m ++ w2 ++ t) = (w1 ++ m ++ w2, t).
Proof.
  intros H1 Hm H2 Hmw Ht1 Ht2. unfold editPrefix.
  assert (Hw2t : headOutside isListMark (w2 ++ t)).
  { destruct w2 as [|c w2]; [exact Ht2|]. cbn in H2 |- *.
    apply andb_prop in H2 as [H2 _]. now apply isWhiteSpace_not_mark. }
  assert (Hmt : headOutside isWhiteSpace (m ++ w2 ++ t)).
  { destruct m as [|c m]; [rewrite (Hmw eq_refl); exact Ht1|]. cbn in Hm |- *.
    apply andb_prop in Hm as [Hm _]. now apply isListMark_not_space. }
  rewrite (takeWhile_all _ w1 _ H1), (takeWhile_stop _ _ Hmt), List.app_nil_r.
  rewrite (dropWhile_all _ w1 _ H1), (dropWhile_fixed _ _ Hmt).
  rewrite (takeWhile_all _ m _ Hm), (takeWhile_stop _ _ Hw2t), List.app_nil_r.
  rewrite (dropWhile_all _ m _ Hm), (dropWhile_fixed _ _ Hw2t).
  rewrite (takeWhile_all _ w2 _ H2), (takeWhile_stop _ _ Ht1), List.app_nil_r.
  rewrite (dropWhile_all _ w2 _ H2), (dropWhile_fixed _ _ Ht1).
  reflexivity.
Qed.

Lemma editPrefix_parts (s : jsstring) :
  exists w1 m w2,
    fst (editPrefix s) = w1 ++ m ++ w2
    /\ s = w1 ++ m ++ w2 ++ snd (editPrefix s)
    /\ List.forallb isWhiteSpace w1 = true
    /\ List.forallb isListMark m = true
    /\ List.forallb isWhiteSpace w2 = true
    /\ (m = [] -> w2 = [])
    /\ headOutside isWhiteSpace (snd (editPrefix s)).
Proof.
  unfold editPrefix. cbn [fst snd].
  set (s1 := dropWhile isWhiteSpace s).
  set (s2 := dropWhile isListMark s1).
  destruct (takeWhile_dropWhile isWhiteSpace s) as [E1 F1].
  destruct (takeWhile_dropWhile isListMark s1) as [E2 F2].
  destruct (takeWhile_dropWhile isWhiteSpace s2) as [E3 F3].
  fold s1 in E1. fold s2 in E2.
  exists (takeWhile isWhiteSpace s), (takeWhile isListMark s1),
    (takeWhile isWhiteSpace s2).
  split; [reflexivity|]. split; [now rewrite <- E3, <- E2|].
  split; [exact F1|]. split; [exact F2|]. split; [exact F3|]. split.
  - intros Hm. rewrite Hm in E2. cbn in E2.
    apply takeWhile_stop. rewrite <- E2. apply dropWhile_head.
  - apply dropWhile_head.
Qed.

Lemma rewriteSegment_parts (lineText : jsstring) :
  exists w1 m w2 comment,
    lineText = (w1 ++ m ++ w2) ++ editableText lineText ++ comment
    /\ List.forallb isWhiteSpace w1 = true
    /\ List.forallb isListMark m = true
    /\ List.forallb isWhiteSpace w2 = true
    /\ (m = [] -> w2 = [])
    /\ (comment = [] \/ startsWith (lit "//") comment = true)
    /\ headOutside isWhiteSpace (editableText lineText)
    /\ forall segmentIndex newText,
         rewriteSegment lineText segmentIndex newText
         = if existsb isLineTerminator (editableText lineText) then None
           else Some ((w1 ++ m ++ w2) ++ newText ++ comment).
Proof.
  unfold rewriteSegment, editableText.
  destruct (splitAtSlashes_spec lineText) as [Hs Hc].
  destruct (splitAtSlashes lineText) as [b cm]. cbn [fst snd] in *.
  destruct (editPrefix_parts b) as (w1 & m & w2 & Hp & Hb & H1 & Hm & H2 & Hmw & Hh).
  destruct (editPrefix b) as [prefix rest]. cbn [fst snd] in *.
  exists w1, m, w2, cm. subst prefix.
  split; [rewrite Hs, Hb at 1; now rewrite <- !List.app_assoc|].
  repeat (split; [assumption|]). reflexivity.
Qed.

Lemma prefix_chars (w1 m w2 : jsstring) :
  List.forallb isWhiteSpace w1 = true ->
  List.forallb isListMark m = true ->
  List.forallb isWhiteSpace w2 = true ->
  List.forallb (fun c => isWhiteSpace c || isListMark c) (w1 ++ m ++ w2) = true.
Proof.
  intros H1 Hm H2. rewrite !List.forallb_app.
  rewrite (forallb_weaken isWhiteSpace _ w1), (forallb_weaken isListMark _ m),
    (forallb_weaken isWhiteSpace _ w2); auto; intros x ->; auto using orb_true_r.
Qed.

(** X19. An edit of a line keeps what stands in front of the text and the
    comment behind it, and replaces everything between them.  The line is
    a prefix of white space and list marks, then the editable text, then
    the comment, which is empty or begins with two slashes; the edit
    returns the prefix, the new text and the comment, whatever segment of
    the line it was asked to rewrite.  It is refused only when the
    editable text holds a line terminator.  Writing back the editable
    text gives back the line. *)
Theorem rewriteSegment_replaces_editable_text (lineText : jsstring) :
  exists prefix comment,
    lineText = prefix ++ editableText lineText ++ comment
    /\ List.forallb (fun c => isWhiteSpace c || isListMark c) prefix = true
    /\ (comment = [] \/ startsWith (lit "//") comment = true)
    /\ headOutside isWhiteSpace (editableText lineText)
    /\ (forall segmentIndex newText,
          rewriteSegment lineText segmentIndex newText
          = if existsb isLineTerminator (editableText lineText) then None
            else Some (prefix ++ newText ++ comment))
    /\ (forall segmentIndex,
          existsb isLineTerminator (editableText lineText) = false ->
          rewriteSegment lineText segmentIndex (editableText lineText)
          = Some lineText).
Proof.
  destruct (rewriteSegment_parts lineText)
    as (w1 & m & w2 & comment & Hl & H1 & Hm & H2 & _ & Hc & Hh & Hr).
  exists (w1 ++ m ++ w2), comment.
  split; [exact Hl|]. split; [now apply prefix_chars|].
  split; [exact Hc|]. split; [exact Hh|]. split; [exact Hr|].
  intros i Ht. rewrite Hr, Ht. now rewrite <- Hl.
Qed.

(** X20. After an edit with a plain text, the line reads as edited: its
    editable text is the text written, and a further edit gives the same
    line as if it had been made on the original. *)
Theorem rewriteSegment_last_edit_wins (lineText : jsstring) (i : nat)
  (t1 edited : jsstring) :
  rewriteSegment lineText i t1 = Some edited ->
  plainText t1 ->
  editableText edited = t1
  /\ forall j t2, rewriteSegment edited j t2 = rewriteSegment lineText i t2.
Proof.
  intros Hedit (Hslash & Hterm & Hws & Hmark).
  destruct (rewriteSegment_parts lineText)
    as (w1 & m & w2 & comment & Hl & H1 & Hm & H2 & Hmw & Hc & Hh & Hr).
  rewrite Hr in Hedit.
  destruct (existsb isLineTerminator (editableText lineText)) eqn:Hold;
    [discriminate|].
  injection Hedit as <-.
  assert (Hno : ~ List.In 47%N ((w1 ++ m ++ w2) ++ t1)).
  { intros H. apply List.in_app_or in H as [H | H]; [|auto].
    pose proof (prefix_chars w1 m w2 H1 Hm H2) as Hp.
    rewrite List.forallb_forall in Hp. apply Hp in H. discriminate. }
  assert (Hsplit : splitAtSlashes ((w1 ++ m ++ w2) ++ t1 ++ comment)
                   = ((w1 ++ m ++ w2) ++ t1, comment)).
  { rewrite List.app_assoc. now apply splitAtSlashes_recompose. }
  assert (Hpre : editPrefix ((w1 ++ m ++ w2) ++ t1) = (w1 ++ m ++ w2, t1)).
  { rewrite <- !List.app_assoc. now apply editPrefix_of_parts. }
  split.
  - unfold editableText. rewrite Hsplit. cbn [fst snd]. now rewrite Hpre.
  - intros j t2. rewrite Hr. unfold rewriteSegment.
    rewrite Hsplit. cbv beta iota. rewrite Hpre. cbv beta iota.
    now rewrite Hterm.
Qed.

Lemma rewriteSegment_last_edit_wins_witness :
  rewriteSegment (lit "  - old text // note") 0 (lit "new")
  = Some (lit "  - new// note")
  /\ plainText (lit "new")
  /\ editableText (lit "  - new// note") = lit "new"
  /\ forall j t2, rewriteSegment (lit "  - new// note") j t2
                  = rewriteSegment (lit "  - old text // note") 0 t2.
Proof.
  assert (H1 : rewriteSegment (lit "  - old text // note") 0 (lit "new")
               = Some (lit "  - new// note")) by reflexivity.
  assert (H2 : plainText (lit "new")).
  { unfold plainText. cbn. repeat split; try reflexivity.
    intros [H | [H | [H | []]]]; discriminate. }
  split; [exact H1|]. split; [exact H2|].
  exact (rewriteSegment_last_edit_wins _ 0 _ _ H1 H2).
Defined.

(** * Invariants of a whole run *)

(** ** The arena *)

Lemma cores_shape (l l' : list Node) : cores l' = cores l -> shape l' = shape l.
Proof.
  intros H. unfold shape.
  assert (E : forall x, List.map (fun n => (Node.id n, Node.kind n)) x
                        = List.map (fun n => (Node.id n, Node.kind n)) (cores x)).
  { intros x. unfold cores. rewrite List.map_map. reflexivity. }
  now rewrite (E l), (E l'), H.
Qed.

Lemma cores_updateMeta (f : option jsstring -> option jsstring) (id : nat)
  (nodes : list Node) :
  cores (updateMeta f id nodes) = cores nodes.
Proof.
  unfold cores, updateMeta. rewrite List.map_map. apply List.map_ext.
  intros n. now destruct (Node.id n =? id).
Qed.

Lemma hasStatement_cores (l l' new : list Node) :
  cores l' = cores l ++ new -> hasStatement l -> hasStatement l'.
Proof.
  unfold hasStatement. intros H Hl.
  assert (E : forall x, existsb isNonSentinel x = existsb isNonSentinel (cores x)).
  { intros x. unfold cores. induction x as [|n x IH]; cbn; [reflexivity|].
    now rewrite IH. }
  rewrite E, H, List.existsb_app, <- E, Hl. reflexivity.
Qed.

Lemma hasStatement_same (l l' : list Node) :
  cores l' = cores l -> hasStatement l -> hasStatement l'.
Proof.
  intros H. apply (hasStatement_cores l l' []). now rewrite List.app_nil_r.
Qed.

Lemma hasStatement_In (l : list Node) (n : Node) :
  List.In n l -> isNonSentinel n = true -> hasStatement l.
Proof. intros H1 H2. apply List.existsb_exists. eauto. Qed.

Lemma gbOk_In (g : GraphBuilder) (n : Node) :
  gbOk g -> List.In n (GB.nodes g) ->
  Node.id n < GB.nextId g /\ (Node.kind n <> Start -> 1 <= Node.id n).
Proof.
  intros [Hids (rest & Hk & Hrest) _] Hn.
  apply List.In_nth_error in Hn as (i & Hi).
  pose proof (ids_are_positions _ _ Hids i n Hi) as Hid.
  assert (Hlen : length (GB.nodes g) = GB.nextId g).
  { apply (f_equal (@length nat)) in Hids.
    unfold shape in Hids. now rewrite !List.length_map, List.length_seq in Hids. }
  split.
  - rewrite Hid, <- Hlen. apply List.nth_error_Some. congruence.
  - intros Hkind. destruct i as [|i]; [|lia]. exfalso. apply Hkind.
    destruct (GB.nodes g) as [|n0 tl]; [discriminate|].
    cbn in Hi. injection Hi as ->. cbn in Hk. now injection Hk.
Qed.

Lemma gbOk_nextId (g : GraphBuilder) : gbOk g -> 1 <= GB.nextId g.
Proof.
  intros [Hids (rest & Hk & _) _].
  destruct (GB.nodes g) as [|n0 tl]; [discriminate|].
  destruct (GB.nextId g); [discriminate | lia].
Qed.

Lemma isNonSentinel_kind (n : Node) :
  isNonSentinel n = true -> Node.kind n <> Start /\ Node.kind n <> End.
Proof. unfold isNonSentinel. destruct (Node.kind n); cbn; intros H; now split. Qed.

Lemma gbOk_statement (g : GraphBuilder) (n : Node) :
  gbOk g -> List.In n (GB.nodes g) -> isNonSentinel n = true ->
  refOk (GB.nextId g) n.
Proof.
  intros Hg Hn Hs. destruct (gbOk_In g n Hg Hn) as [H1 H2].
  split; [apply H2; now apply isNonSentinel_kind | exact H1].
Qed.

(** ** Edges and the nodes held by the builder *)

Lemma outDeg_app (es1 es2 : list Edge) (id : nat) :
  outDeg (es1 ++ es2) id = outDeg es1 id + outDeg es2 id.
Proof. unfold outDeg. now rewrite List.filter_app, List.length_app. Qed.

Lemma inDeg_app (es1 es2 : list Edge) (id : nat) :
  inDeg (es1 ++ es2) id = inDeg es1 id + inDeg es2 id.
Proof. unfold inDeg. now rewrite List.filter_app, List.length_app. Qed.

Lemma outDeg_zero (edges : list Edge) (id : nat) :
  existsb (fun e => Edge.from e =? id) edges = false <-> outDeg edges id = 0.
Proof.
  unfold outDeg. induction edges as [|e edges IH]; cbn; [tauto|].
  destruct (Edge.from e =? id); cbn; [split; [discriminate | lia] | exact IH].
Qed.

Lemma outDeg_single (e : Edge) (id : nat) :
  outDeg [e] id = if Edge.from e =? id then 1 else 0.
Proof. unfold outDeg. cbn. now destruct (Edge.from e =? id). Qed.

Lemma gbRefs_pushEdge (e : Edge) (g : GraphBuilder) :
  gbRefs g -> edgeOk (GB.nextId g) e ->
  (Edge.from e = 0 -> outDeg (GB.edges g) 0 = 0 /\ hasStatement (GB.nodes g)) ->
  gbRefs (pushEdge e g).
Proof.
  intros Hg He H0.
  destruct (pushEdge_shape e g) as [-> | ->]; [exact Hg|].
  destruct Hg as [H1 H2 H3 H4 H5 H6].
  split; cbn [GB.edges GB.nodes GB.nextId GB.with_edges GB.lastExecutableNode
              GB.lastConnectorLikeNode GB.pendingNextNodes]; auto.
  - apply List.Forall_app. split; [exact H1 | now constructor].
  - rewrite outDeg_app, outDeg_single.
    destruct (Edge.from e =? 0) eqn:E; [|lia].
    apply Nat.eqb_eq in E. destruct (H0 E). lia.
  - rewrite outDeg_app, outDeg_single.
    destruct (Edge.from e =? 0) eqn:E.
    + apply Nat.eqb_eq in E. intros _. now destruct (H0 E).
    + rewrite Nat.add_0_r. exact H3.
Qed.

Lemma gbRefs_nodes (g : GraphBuilder) (nodes : list Node) :
  gbRefs g -> cores nodes = cores (GB.nodes g) -> gbRefs (GB.with_nodes nodes g).
Proof.
  intros [H1 H2 H3 H4 H5 H6] Hc. split; cbn; auto.
  intros H. eapply hasStatement_same; [exact Hc | auto].
Qed.

Lemma gbRefs_gbAppendMeta (n : Node) (extra : jsstring) (g : GraphBuilder) :
  gbRefs g -> gbRefs (gbAppendMeta n extra g).
Proof. intros H. apply gbRefs_nodes; [exact H | apply cores_updateMeta]. Qed.

Lemma gbRefs_gbSetMeta (n : Node) (m : jsstring) (g : GraphBuilder) :
  gbRefs g -> gbRefs (gbSetMeta n m g).
Proof. intros H. apply gbRefs_nodes; [exact H | apply cores_updateMeta]. Qed.

Lemma gbRefs_lastExecutableNode (o : option Node) (g : GraphBuilder) :
  gbRefs g -> (forall n, o = Some n -> refOk (GB.nextId g) n) ->
  gbRefs (GB.with_lastExecutableNode o g).
Proof. intros [H1 H2 H3 H4 H5 H6] Ho. split; cbn; auto. Qed.

Lemma gbRefs_lastConnectorLikeNode (o : option Node) (g : GraphBuilder) :
  gbRefs g -> (forall n, o = Some n -> refOk (GB.nextId g) n) ->
  gbRefs (GB.with_lastConnectorLikeNode o g).
Proof. intros [H1 H2 H3 H4 H5 H6] Ho. split; cbn; auto. Qed.

Lemma gbRefs_pendingNextNodes (l : list Node) (g : GraphBuilder) :
  gbRefs g -> List.Forall (refOk (GB.nextId g)) l ->
  gbRefs (GB.with_pendingNextNodes l g).
Proof. intros [H1 H2 H3 H4 H5 H6] Ho. split; cbn; auto. Qed.

Lemma refOk_mono (k k' : nat) (n : Node) : k <= k' -> refOk k n -> refOk k' n.
Proof. unfold refOk. lia. Qed.

Lemma edgeOk_mono (k k' : nat) (e : Edge) : k <= k' -> edgeOk k e -> edgeOk k' e.
Proof. unfold edgeOk. lia. Qed.

Lemma gbRefs_append (g : GraphBuilder) (n : Node) :
  gbRefs g ->
  gbRefs (GB.with_nodes (GB.nodes g ++ [n]) (GB.with_nextId (S (GB.nextId g)) g)).
Proof.
  intros [H1 H2 H3 H4 H5 H6]. split; cbn.
  - eapply List.Forall_impl; [|exact H1]. intros e. apply edgeOk_mono. lia.
  - exact H2.
  - intros H. apply (hasStatement_cores (GB.nodes g) _ [core n]); [|auto].
    unfold cores. now rewrite List.map_app.
  - intros m Hm. eapply refOk_mono; [|eauto]. lia.
  - intros m Hm. eapply refOk_mono; [|eauto]. lia.
  - eapply List.Forall_impl; [|exact H6]. intros e. apply refOk_mono. lia.
Qed.

Lemma wireSequential_source (to : Node) (updateLast : bool) (gb : GraphBuilder) :
  let gb' := wireSequential to updateLast gb in
  gb' = GB.with_lastExecutableNode (GB.lastExecutableNode gb')
          (GB.with_edges (GB.edges gb') gb)
  /\ (GB.lastExecutableNode gb' = GB.lastExecutableNode gb
      \/ GB.lastExecutableNode gb' = Some to)
  /\ (GB.edges gb' = GB.edges gb
      \/ exists f, gb' = GB.with_lastExecutableNode (GB.lastExecutableNode gb')
                           (pushEdge (edge (Node.id f) (Node.id to)) gb)
                   /\ sequentialSource gb f).
Proof.
  cbv zeta. unfold wireSequential.
  set (nodes := GB.nodes gb).
  set (from0 := default startNode (GB.lastExecutableNode gb)).
  set (afterStart := if Node.id from0 =? Node.id startNode then _ else _).
  assert (H1 : forall from1 f, afterStart = Some from1 -> from1 = Some f ->
                               sequentialSource gb f).
  { unfold afterStart. intros from1 f.
    destruct (Node.id from0 =? Node.id startNode) eqn:E0.
    - destruct (existsb _ _) eqn:Ex.
      + destruct (findLastNonSentinel nodes) as [g|] eqn:E; [|discriminate].
        intros [= <-] [= <-]. right. right. now apply findLastNonSentinel_some.
      + intros [= <-] [= <-]. left. split.
        * now apply Nat.eqb_eq in E0.
        * now apply outDeg_zero.
    - intros [= <-] [= <-]. right. left. unfold from0 in *.
      destruct (GB.lastExecutableNode gb); [reflexivity | discriminate]. }
  destruct afterStart as [from1|].
  2:{ split; [now destruct gb | auto]. }
  specialize (H1 from1).
  set (from2 := if isLoopOrNextNode nodes from1 then _ else from1).
  assert (H2 : forall f, from2 = Some f -> sequentialSource gb f).
  { unfold from2. intros f. destruct (isLoopOrNextNode nodes from1); [|now apply H1].
    destruct from1 as [g|]; [|discriminate].
    intros H. right. right. now apply findPrevSequentialCandidate_some in H. }
  set (from3 := match from2 with Some f => _ | None => from2 end).
  assert (H3 : forall f, from3 = Some f -> sequentialSource gb f).
  { unfold from3. intros f. destruct from2 as [g|]; [|discriminate].
    destruct (kind_eqb (Node.kind g) Decision); [|now apply H2].
    intros H. right. right. now apply findPrevSequentialCandidate_some in H. }
  clearbody from3. clear from2 H2 H1 from1.
  destruct (updateLast && negb (isLoopOrNextNode nodes (Some to)));
    (destruct (kind_eqb (Node.kind to) Connector) eqn:K;
     [|destruct from3 as [f|]; [specialize (H3 f eq_refl)|]]);
    (split; [unfold pushEdge; try destruct (hasEdge _ _ _ _); now destruct gb|]);
    (split; [unfold pushEdge; try destruct (hasEdge _ _ _ _); cbn; auto|]).
  all: try (left; reflexivity).
  all: right; exists f; (split; [|exact H3]).
  all: unfold pushEdge; destruct (hasEdge _ _ _ _); now destruct gb.
Qed.

Lemma gbRefs_wireSequential (to : Node) (u : bool) (g : GraphBuilder) :
  gbOk g -> gbRefs g -> refOk (GB.nextId g) to -> hasStatement (GB.nodes g) ->
  gbRefs (wireSequential to u g).
Proof.
  intros Hok Hg Hto Hns.
  destruct (wireSequential_source to u g) as (Hshape & Hlast & Hedges).
  assert (Hl : forall n, GB.lastExecutableNode (wireSequential to u g) = Some n ->
                         refOk (GB.nextId g) n).
  { intros n Hn. destruct Hlast as [Hlast | Hlast]; rewrite Hlast in Hn.
    - now apply (r_lastExec g Hg).
    - now injection Hn as <-. }
  destruct Hedges as [He | (f & Hf & Hsrc)].
  - rewrite Hshape, He. apply gbRefs_lastExecutableNode; [|exact Hl].
    now destruct g.
  - rewrite Hf. apply gbRefs_lastExecutableNode.
    2:{ intros n Hn. rewrite pushEdge_nextId. now apply Hl. }
    apply gbRefs_pushEdge; [exact Hg | |].
    + split; [|exact Hto]. cbn.
      destruct Hsrc as [[H0 _] | [Hsrc | [Hin Hs]]].
      * rewrite H0. now apply gbOk_nextId.
      * apply (r_lastExec g Hg) in Hsrc. apply Hsrc.
      * apply (gbOk_statement g f Hok Hin Hs).
    + cbn. intros H0.
      destruct Hsrc as [[_ Hout] | [Hsrc | [Hin Hs]]].
      * auto.
      * apply (r_lastExec g Hg) in Hsrc. unfold refOk in Hsrc. lia.
      * pose proof (gbOk_statement g f Hok Hin Hs) as H. unfold refOk in H. lia.
Qed.

Lemma gbSame_refl (g : GraphBuilder) : gbSame g g.
Proof. now split. Qed.

Lemma gbSame_trans (g1 g2 g3 : GraphBuilder) :
  gbSame g1 g2 -> gbSame g2 g3 -> gbSame g1 g3.
Proof. intros [A1 B1] [A2 B2]. split; congruence. Qed.

Lemma gbSame_pushEdge (e : Edge) (g : GraphBuilder) : gbSame g (pushEdge e g).
Proof. unfold pushEdge. destruct (hasEdge _ _ _ _); now split. Qed.

Lemma gbSame_gbAppendMeta (n : Node) (extra : jsstring) (g : GraphBuilder) :
  gbSame g (gbAppendMeta n extra g).
Proof. split; [apply cores_updateMeta | reflexivity]. Qed.

Lemma gbSame_gbSetMeta (n : Node) (m : jsstring) (g : GraphBuilder) :
  gbSame g (gbSetMeta n m g).
Proof. split; [apply cores_updateMeta | reflexivity]. Qed.

Lemma gbSame_finalizeNode (n : Node) (gram : Grammar) (g : GraphBuilder) :
  gbSame g (finalizeNode n gram g).
Proof.
  unfold finalizeNode.
  repeat match goal with
         | |- context [if ?b then _ else _] => destruct b
         | |- context [match ?x with _ => _ end] => destruct x
         end;
    repeat first [ apply gbSame_refl
                 | eapply gbSame_trans; [|apply gbSame_gbAppendMeta]
                 | eapply gbSame_trans; [|apply gbSame_pushEdge]
                 | now split ].
Qed.

Lemma gbSame_wireSequential (to : Node) (u : bool) (g : GraphBuilder) :
  gbSame g (wireSequential to u g).
Proof.
  destruct (wireSequential_source to u g) as (-> & _). now split.
Qed.

Lemma gbSame_computeConnectorFanin (c : Node) (g g' : GraphBuilder) :
  computeConnectorFanin c g = Some g' -> gbSame g g'.
Proof.
  destruct (computeConnectorFanin_appends_aux c g)
    as (F & g'' & feeds & out & _ & -> & -> & _).
  intros [= <-]. now split.
Qed.

Lemma gbRefs_finalizeNode (n : Node) (gram : Grammar) (g : GraphBuilder) :
  gbRefs g -> refOk (GB.nextId g) n -> gbRefs (finalizeNode n gram g).
Proof.
  intros Hg Hn. unfold finalizeNode.
  set (gb1 := match GB.lastConnectorLikeNode g with Some _ => _ | None => g end).
  assert (H1 : gbRefs gb1 /\ GB.nextId gb1 = GB.nextId g).
  { unfold gb1. destruct (GB.lastConnectorLikeNode g) as [t|] eqn:Et; [|auto].
    destruct (has (linekey gram) (lit "loop")); [|auto].
    split; [|now destruct (negb _); [rewrite <- (pushEdge_nextId
                (edge (Node.id n) (Node.id t)) g)|]].
    apply gbRefs_gbAppendMeta. destruct (negb _); [|exact Hg].
    apply gbRefs_pushEdge; [exact Hg | |].
    - split; [apply Hn | apply (r_lastConn g Hg t Et)].
    - cbn. unfold refOk in Hn. lia. }
  clearbody gb1. destruct H1 as [H1 Hid].
  destruct (has (linekey gram) (lit "next")); [|exact H1].
  apply gbRefs_gbAppendMeta, gbRefs_pendingNextNodes; [exact H1|].
  apply List.Forall_app. split; [apply (r_pending gb1 H1)|].
  constructor; [now rewrite Hid | constructor].
Qed.

Lemma gbRefs_edges_app (g : GraphBuilder) (added : list Edge) :
  gbRefs g ->
  List.Forall (fun e => edgeOk (GB.nextId g) e /\ 1 <= Edge.from e) added ->
  gbRefs (GB.with_edges (GB.edges g ++ added) g).
Proof.
  intros [H1 H2 H3 H4 H5 H6] Ha.
  assert (H0 : outDeg added 0 = 0).
  { unfold outDeg. induction Ha as [|e l [_ He] _ IH]; [reflexivity|].
    cbn. destruct (Edge.from e =? 0) eqn:E; [apply Nat.eqb_eq in E; lia | exact IH]. }
  split; cbn [GB.edges GB.nodes GB.nextId GB.with_edges GB.lastExecutableNode
              GB.lastConnectorLikeNode GB.pendingNextNodes]; auto.
  - apply List.Forall_app. split; [exact H1|].
    eapply List.Forall_impl; [|exact Ha]. now intros e [He _].
  - rewrite outDeg_app. lia.
  - rewrite outDeg_app, H0, Nat.add_0_r. exact H3.
Qed.

Lemma faninWindowOf_statement (c : Node) (g : GraphBuilder) (n : Node) :
  List.In n (faninWindowOf c g) ->
  List.In n (GB.nodes g) /\ isNonSentinel n = true.
Proof.
  unfold faninWindowOf. intros H. apply List.filter_In in H as [Hn H].
  split; [exact Hn|]. unfold inFaninWindow in H.
  repeat (apply andb_prop in H as [H ?]). assumption.
Qed.

Lemma gbRefs_computeConnectorFanin (c : Node) (g g' : GraphBuilder) :
  gbOk g -> gbRefs g -> refOk (GB.nextId g) c ->
  computeConnectorFanin c g = Some g' -> gbRefs g'.
Proof.
  intros Hok Hg Hc.
  destruct (computeConnectorFanin_appends_aux c g)
    as (F & g'' & feeds & out & _ & -> & -> & Hfeeds & Hout).
  intros [= <-]. apply gbRefs_edges_app; [exact Hg|].
  apply List.Forall_app. split.
  - eapply List.Forall_impl; [|exact Hfeeds].
    intros e (n & Hn & _ & _ & ->).
    apply faninWindowOf_statement in Hn as [Hn Hs].
    pose proof (gbOk_statement g n Hok Hn Hs) as Hr.
    unfold edgeOk, refOk in *. cbn. lia.
  - destruct Hout as [-> | (e & -> & (n & Hn & _ & Hs & _ & _ & ->) & _)];
      constructor; [|constructor].
    pose proof (gbOk_statement g n Hok Hn Hs) as Hr.
    unfold edgeOk, refOk in *. cbn. lia.
Qed.

Lemma gbRefs_makeNode (kind : NodeKind) (seg : LogicalSegment) (text : jsstring)
  (g : GraphBuilder) :
  gbOk g -> gbRefs g ->
  gbRefs (snd (makeNode kind seg text g))
  /\ refOk (GB.nextId (snd (makeNode kind seg text g))) (fst (makeNode kind seg text g)).
Proof.
  intros Hok Hg. split.
  - apply (gbRefs_append g _ Hg).
  - pose proof (gbOk_nextId g Hok). unfold refOk. cbn. lia.
Qed.

Lemma findNextConnector_some (nodes : list Node) (node b : Node) :
  findNextConnector nodes node = Some b ->
  List.In b nodes /\ Node.kind b = Connector.
Proof.
  unfold findNextConnector.
  induction nodes as [|x nodes IH] using List.rev_ind; [discriminate|].
  rewrite fold_left_snoc, List.in_app_iff.
  assert (Hx : negb (kind_eqb (Node.kind x) Connector) = false ->
               Node.kind x = Connector).
  { destruct (Node.kind x); cbn; congruence. }
  destruct (negb (kind_eqb (Node.kind x) Connector)); [intros H; tauto|].
  destruct (Node.line x <=? Node.line node); [intros H; tauto|].
  destruct (List.fold_left _ nodes None) as [b0|].
  - destruct (Node.line x <? Node.line b0); intros [= <-]; [|tauto].
    split; [right; now left | auto].
  - intros [= <-]. split; [right; now left | auto].
Qed.

Lemma gbRefs_resolvePending (g : GraphBuilder) (n : Node) :
  gbOk g -> gbRefs g -> refOk (GB.nextId g) n -> gbRefs (resolvePending g n).
Proof.
  intros Hok Hg Hn. unfold resolvePending.
  destruct (findNextConnector (GB.nodes g) n) as [b|] eqn:E; [|exact Hg].
  destruct (negb _); [|exact Hg].
  apply findNextConnector_some in E as [Hin Hk].
  destruct (gbOk_In g b Hok Hin) as [H1 H2].
  apply gbRefs_pushEdge; [exact Hg | |].
  - unfold edgeOk, refOk in *. cbn. rewrite Hk in H2.
    split; [lia | split; [apply H2; discriminate | lia]].
  - cbn. unfold refOk in Hn. lia.
Qed.

Lemma filter_head_In {A} (p : A -> bool) (l : list A) (x : A) (r : list A) :
  List.filter p l = x :: r -> List.In x l /\ p x = true.
Proof.
  intros H. apply List.filter_In. rewrite H. now left.
Qed.

Lemma gbRefs_wireStart (g : GraphBuilder) :
  gbOk g -> gbRefs g -> gbRefs (wireStart g).
Proof.
  intros Hok Hg. unfold wireStart.
  destruct (List.filter isNonSentinel (GB.nodes g)) as [|first r] eqn:E; [exact Hg|].
  apply filter_head_In in E as [Hin Hs].
  destruct (existsb _ (GB.edges g)) eqn:Ex; cbn [negb]; [exact Hg|].
  pose proof (gbOk_statement g first Hok Hin Hs) as Hr.
  apply gbRefs_pushEdge; [exact Hg | |].
  - unfold edgeOk, refOk in *. cbn. lia.
  - intros _. split; [now apply outDeg_zero | now apply (hasStatement_In _ first)].
Qed.

Lemma gbRefs_wireLeadingConnector (g : GraphBuilder) :
  gbOk g -> gbRefs g -> gbRefs (wireLeadingConnector g).
Proof.
  intros Hok Hg. unfold wireLeadingConnector.
  destruct (List.filter isNonSentinel (GB.nodes g)) as [|first [|second r]] eqn:E;
    try exact Hg.
  destruct (_ && _); [|exact Hg].
  assert (H1 : List.In first (List.filter isNonSentinel (GB.nodes g)))
    by (rewrite E; now left).
  assert (H2 : List.In second (List.filter isNonSentinel (GB.nodes g)))
    by (rewrite E; right; now left).
  apply List.filter_In in H1 as [H1 S1]. apply List.filter_In in H2 as [H2 S2].
  pose proof (gbOk_statement g first Hok H1 S1) as R1.
  pose proof (gbOk_statement g second Hok H2 S2) as R2.
  apply gbRefs_pushEdge; [exact Hg | |].
  - unfold edgeOk, refOk in *. cbn. lia.
  - cbn. unfold refOk in R1. lia.
Qed.

(** ** The driver *)

Lemma wp_conj {A} (m : M A) (Q1 Q2 : A -> Driver -> Prop) (s : Driver) :
  wp m Q1 s -> wp m Q2 s -> wp m (fun a s' => Q1 a s' /\ Q2 a s') s.
Proof. unfold wp. destruct (m s) as [[a s']|]; auto. Qed.

Lemma use_spec {A} (P : Driver -> Prop) (m : M A) (Q : A -> Driver -> Driver -> Prop)
  (R : A -> Driver -> Prop) (s : Driver) :
  spec P m Q -> Inv2 s -> P s ->
  (forall a s', Inv2 s' -> Q a s s' -> R a s') -> wp m R s.
Proof.
  intros Hm Hs HP HR. eapply wp_mono; [apply (Hm s Hs HP)|].
  intros a s' [H1 H2]. now apply HR.
Qed.

Lemma ctxOk_mono (k k' : nat) (c : DecisionContext) :
  k <= k' -> ctxOk k c -> ctxOk k' c.
Proof.
  intros Hk [H1 H2]. split; [now apply (refOk_mono k)|].
  eapply List.Forall_impl; [|exact H2]. intros kv. now apply refOk_mono.
Qed.

Lemma funRefsOk_mono (k k' : nat) (f : FunContext) :
  k <= k' -> funRefsOk k f -> funRefsOk k' f.
Proof.
  intros Hk [H1 H2]. split; [now apply (refOk_mono k)|].
  intros i Hi. specialize (H2 i Hi). lia.
Qed.

Lemma stackOk_mono (k k' : nat) (l : list DecisionContext) :
  k <= k' -> List.Forall (ctxOk k) l -> List.Forall (ctxOk k') l.
Proof.
  intros Hk H. eapply List.Forall_impl; [|exact H]. intros c. now apply ctxOk_mono.
Qed.

Lemma funStackOk_mono (k k' : nat) (l : list FunContext) :
  k <= k' -> List.Forall (funRefsOk k) l -> List.Forall (funRefsOk k') l.
Proof.
  intros Hk H. eapply List.Forall_impl; [|exact H]. intros c. now apply funRefsOk_mono.
Qed.

(** A step of the builder that makes no node, lifted to the driver. *)
Lemma spec_onGB (P : Driver -> Prop) (f : GraphBuilder -> GraphBuilder) :
  (forall g, gbStep g (f g)) ->
  (forall g, gbSame g (f g)) ->
  (forall s, Inv2 s -> P s -> gbRefs (f (Drv.gb s))) ->
  spec P (onGB f) (fun _ s s' => keeps s s').
Proof.
  intros Hstep Hsame Hrefs s Hs HP.
  destruct (Hsame (Drv.gb s)) as [Hc Hn].
  destruct Hs as [[Hok Hfun] Hg Hd Hf Hst].
  split; [|now split].
  split; cbn.
  - split; [|exact Hfun]. eapply gbStep_ok; [apply Hstep | exact Hok].
  - apply Hrefs; [now split | exact HP].
  - unfold nid. cbn. now rewrite Hn.
  - unfold nid. cbn. now rewrite Hn.
  - intros H. eapply hasStatement_same; [exact Hc | now apply Hst].
Qed.

Lemma spec_pushEdge (e : Edge) :
  spec (fun s => edgeOk (nid s) e /\ 1 <= Edge.from e) (onGB (pushEdge e))
    (fun _ s s' => keeps s s').
Proof.
  apply spec_onGB; [auto with gb | apply gbSame_pushEdge|].
  intros s Hs [He H1]. apply gbRefs_pushEdge; [apply Hs | exact He | lia].
Qed.

Lemma spec_gbAppendMeta (n : Node) (extra : jsstring) :
  spec (fun _ => True) (onGB (gbAppendMeta n extra)) (fun _ s s' => keeps s s').
Proof.
  apply spec_onGB; [auto with gb | apply gbSame_gbAppendMeta|].
  intros s Hs _. apply gbRefs_gbAppendMeta, Hs.
Qed.

Lemma spec_gbSetMeta (n : Node) (m : jsstring) :
  spec (fun _ => True) (onGB (gbSetMeta n m)) (fun _ s s' => keeps s s').
Proof.
  apply spec_onGB; [auto with gb | apply gbSame_gbSetMeta|].
  intros s Hs _. apply gbRefs_gbSetMeta, Hs.
Qed.

Lemma spec_finalizeNode (n : Node) (gram : Grammar) :
  spec (fun s => refOk (nid s) n) (onGB (finalizeNode n gram))
    (fun _ s s' => keeps s s').
Proof.
  apply spec_onGB; [auto with gb | apply gbSame_finalizeNode|].
  intros s Hs Hn. apply gbRefs_finalizeNode; [apply Hs | exact Hn].
Qed.

Lemma spec_wireSequential (n : Node) (u : bool) :
  spec (fun s => refOk (nid s) n /\ hasStatement (arena s))
    (onGB (wireSequential n u)) (fun _ s s' => keeps s s').
Proof.
  apply spec_onGB; [auto with gb | apply gbSame_wireSequential|].
  intros s Hs [Hn Hst].
  apply gbRefs_wireSequential; [apply Hs | apply Hs | exact Hn | exact Hst].
Qed.

Lemma spec_lastConnectorLikeNode (o : option Node) :
  spec (fun s => forall n, o = Some n -> refOk (nid s) n)
    (onGB (GB.with_lastConnectorLikeNode o)) (fun _ s s' => keeps s s').
Proof.
  apply spec_onGB; [auto with gb | intros; now split|].
  intros s Hs Ho. apply gbRefs_lastConnectorLikeNode; [apply Hs | exact Ho].
Qed.

Lemma spec_setLastExecutableNode (o : option Node) :
  spec (fun s => forall n, o = Some n -> refOk (nid s) n)
    (setLastExecutableNode o) (fun _ s s' => keeps s s').
Proof.
  apply spec_onGB; [auto with gb | intros; now split|].
  intros s Hs Ho. apply gbRefs_lastExecutableNode; [apply Hs | exact Ho].
Qed.

Lemma keeps_refl (s : Driver) : keeps s s.
Proof. now split. Qed.

Lemma spec_setCurrentBranchIndex (i : option nat) :
  spec (fun _ => True) (setCurrentBranchIndex i) (fun _ s s' => keeps s s').
Proof.
  intros s [[Hok Hfun] Hg Hd Hf Hst] _. split; [|now split].
  split; auto. now split.
Qed.

Lemma spec_setLastNode (n : option Node) :
  spec (fun _ => True) (setLastNode n) (fun _ s s' => keeps s s').
Proof.
  intros s [[Hok Hfun] Hg Hd Hf Hst] _. split; [|now split].
  split; auto. now split.
Qed.

Lemma spec_setDecisionStack (d : list DecisionContext) :
  spec (fun s => List.Forall (ctxOk (nid s)) d /\ (d <> [] -> hasStatement (arena s)))
    (setDecisionStack d) (fun _ s s' => keeps s s').
Proof.
  intros s [[Hok Hfun] Hg Hd Hf Hst] [H1 H2]. split; [|now split].
  split; auto. now split.
Qed.

Lemma spec_replaceTopDecision (c : DecisionContext) :
  spec (fun s => ctxOk (nid s) c /\ hasStatement (arena s))
    (replaceTopDecision c) (fun _ s s' => keeps s s').
Proof.
  intros s [[Hok Hfun] Hg Hd Hf Hst] [H1 H2]. split; [|now split].
  split; auto; [now split|].
  cbn. constructor; [exact H1|].
  destruct (Drv.decisionStack s); [constructor | now inversion Hd].
Qed.

Lemma spec_pushDecision (c : DecisionContext) :
  spec (fun s => ctxOk (nid s) c /\ hasStatement (arena s))
    (pushDecision c) (fun _ s s' => keeps s s').
Proof.
  intros s [[Hok Hfun] Hg Hd Hf Hst] [H1 H2]. split; [|now split].
  split; auto; [now split|].
  cbn. now constructor.
Qed.

Lemma spec_setFunStack (f : list FunContext) :
  spec (fun s => List.Forall funOk f /\ List.Forall (funRefsOk (nid s)) f)
    (setFunStack f) (fun _ s s' => keeps s s').
Proof.
  intros s [[Hok Hfun] Hg Hd Hf Hst] [H1 H2]. split; [|now split].
  split; auto. now split.
Qed.

Lemma spec_replaceTopFun (c : FunContext) :
  spec (fun s => funOk c /\ funRefsOk (nid s) c)
    (replaceTopFun c) (fun _ s s' => keeps s s').
Proof.
  intros s [[Hok Hfun] Hg Hd Hf Hst] [H1 H2]. split; [|now split].
  split; auto.
  - split; [exact Hok|]. cbn. constructor; [exact H1|].
    destruct (Drv.funStack s); [constructor | now inversion Hfun].
  - cbn. constructor; [exact H2|].
    destruct (Drv.funStack s); [constructor | now inversion Hf].
Qed.

Lemma spec_pushFun (c : FunContext) :
  spec (fun s => funOk c /\ funRefsOk (nid s) c)
    (pushFun c) (fun _ s s' => keeps s s').
Proof.
  intros s [[Hok Hfun] Hg Hd Hf Hst] [H1 H2]. split; [|now split].
  split; auto.
  - split; [exact Hok|]. cbn. now constructor.
  - cbn. now constructor.
Qed.

Lemma spec_makeNodeM (kind : NodeKind) (seg : LogicalSegment) (text : jsstring) :
  kind <> Start ->
  spec (fun _ => True) (makeNodeM kind seg text)
    (fun n s s' => makes seg kind n s s').
Proof.
  intros Hk s [[Hok Hfun] Hg Hd Hf Hst] _.
  pose proof (gbOk_nextId _ Hok) as H1.
  unfold wp, makeNodeM, makeNode. cbv zeta. split.
  - split.
    + split; [|exact Hfun]. now apply (gbOk_makeNode kind seg text).
    + apply (gbRefs_append _ _ Hg).
    + eapply stackOk_mono; [|exact Hd]. unfold nid. cbn. lia.
    + eapply funStackOk_mono; [|exact Hf]. unfold nid. cbn. lia.
    + intros H. eapply (hasStatement_cores (arena s)); [|now apply Hst].
      unfold arena, cores. cbn. now rewrite List.map_app.
  - unfold makes, arena, nid, cores. cbn. rewrite List.map_app.
    repeat split; auto.
Qed.

Lemma spec_computeConnectorFaninM (c : Node) :
  spec (fun s => refOk (nid s) c) (computeConnectorFaninM c)
    (fun _ s s' => keeps s s').
Proof.
  intros s [[Hok Hfun] Hg Hd Hf Hst] Hc.
  unfold wp, computeConnectorFaninM.
  destruct (computeConnectorFanin_feeders_aux c (Drv.gb s)) as (g' & E).
  rewrite E.
  destruct (gbSame_computeConnectorFanin _ _ _ E) as [Hcores Hn].
  split; [|now split].
  split; cbn.
  - split; [|exact Hfun].
    eapply gbStep_ok; [eapply gbStep_computeConnectorFanin, E | exact Hok].
  - eapply gbRefs_computeConnectorFanin; eauto.
  - unfold nid. cbn. now rewrite Hn.
  - unfold nid. cbn. now rewrite Hn.
  - intros H. eapply hasStatement_same; [exact Hcores | now apply Hst].
Qed.

Lemma head_ctxOk (s : Driver) (c : DecisionContext) :
  Inv2 s -> List.head (Drv.decisionStack s) = Some c ->
  ctxOk (nid s) c /\ hasStatement (arena s).
Proof.
  intros Hs E. destruct (Drv.decisionStack s) as [|c' r] eqn:Es; [discriminate|].
  injection E as ->. split.
  - pose proof (i_dec s Hs) as H. rewrite Es in H. now inversion H.
  - apply (i_statement s Hs). now rewrite Es.
Qed.

Lemma head_funRefsOk (s : Driver) (f : FunContext) :
  Inv2 s -> List.head (Drv.funStack s) = Some f ->
  funRefsOk (nid s) f /\ funOk f.
Proof.
  intros Hs E. destruct (Drv.funStack s) as [|f' r] eqn:Es; [discriminate|].
  injection E as ->. split.
  - pose proof (i_fun s Hs) as H. rewrite Es in H. now inversion H.
  - destruct (i_base s Hs) as [_ H]. rewrite Es in H. now inversion H.
Qed.

Create HintDb spec.
#[local] Hint Resolve spec_pushEdge spec_gbAppendMeta spec_gbSetMeta
  spec_finalizeNode spec_wireSequential spec_lastConnectorLikeNode
  spec_setLastExecutableNode spec_setCurrentBranchIndex spec_setLastNode
  spec_setDecisionStack spec_replaceTopDecision spec_pushDecision
  spec_setFunStack spec_replaceTopFun spec_pushFun spec_computeConnectorFaninM
  : spec.
#[local] Hint Extern 1 (spec _ (makeNodeM _ _ _) _) =>
  apply spec_makeNodeM; congruence : spec.

(** Opening the relations between the states of a run, and carrying what
    is known of an earlier state over to the next one. *)
Ltac unrel :=
  repeat match goal with
         | H : keeps _ _ |- _ => destruct H as [? ?]
         | H : makes _ _ _ _ _ |- _ => destruct H as (? & ? & ? & ? & ? & ?)
         | H : _ /\ _ |- _ => destruct H
         | H : exists _, _ |- _ => destruct H
         end.

Ltac carry s s' :=
  repeat match goal with
         | H : ctxOk (nid s) ?c |- _ =>
             lazymatch goal with
             | _ : ctxOk (nid s') c |- _ => fail
             | _ => assert (ctxOk (nid s') c)
                      by (apply (ctxOk_mono (nid s)); [lia | exact H])
             end
         | H : funRefsOk (nid s) ?c |- _ =>
             lazymatch goal with
             | _ : funRefsOk (nid s') c |- _ => fail
             | _ => assert (funRefsOk (nid s') c)
                      by (apply (funRefsOk_mono (nid s)); [lia | exact H])
             end
         | H : List.Forall (ctxOk (nid s)) ?l |- _ =>
             lazymatch goal with
             | _ : List.Forall (ctxOk (nid s')) l |- _ => fail
             | _ => assert (List.Forall (ctxOk (nid s')) l)
                      by (apply (stackOk_mono (nid s)); [lia | exact H])
             end
         | H : List.Forall (funRefsOk (nid s)) ?l |- _ =>
             lazymatch goal with
             | _ : List.Forall (funRefsOk (nid s')) l |- _ => fail
             | _ => assert (List.Forall (funRefsOk (nid s')) l)
                      by (apply (funStackOk_mono (nid s)); [lia | exact H])
             end
         | H : hasStatement (arena s) |- _ =>
             lazymatch goal with
             | _ : hasStatement (arena s') |- _ => fail
             | _ => assert (hasStatement (arena s'))
                      by (first [ eapply hasStatement_same; [eassumption | exact H]
                                | eapply hasStatement_cores; [eassumption | exact H] ])
             end
         end.

Ltac open_refs :=
  repeat match goal with
         | H : ctxOk _ _ |- _ => destruct H as [? ?]
         | H : funRefsOk _ _ |- _ => destruct H as [? ?]
         end.

Lemma new_statement (l l' : list Node) (n : Node) :
  cores l' = cores l ++ [core n] ->
  Node.kind n <> Start -> Node.kind n <> End -> hasStatement l'.
Proof.
  intros H H1 H2. unfold hasStatement.
  assert (E : forall x, existsb isNonSentinel x = existsb isNonSentinel (cores x)).
  { intros x. unfold cores. induction x as [|m x IH]; cbn; [reflexivity|].
    now rewrite IH. }
  rewrite E, H, List.existsb_app. cbn. unfold isNonSentinel. cbn.
  destruct (Node.kind n); try congruence; cbn; apply orb_true_r.
Qed.

Ltac new_stmt s' :=
  try match goal with
      | H : cores (arena s') = cores (arena _) ++ [core ?n] |- _ =>
          lazymatch goal with
          | _ : hasStatement (arena s') |- _ => fail
          | _ => assert (hasStatement (arena s'))
                   by (apply (new_statement _ _ n H); congruence)
          end
      end.

Ltac arith :=
  open_refs;
  repeat match goal with
         | |- context [default _ ?o] =>
             let E := fresh "E" in destruct o eqn:E; cbn [from_option id]
         end;
  repeat match goal with
         | H : forall i, Some ?n = Some i -> _ |- _ => specialize (H n eq_refl)
         | H : forall b t, mapGet ?m b = Some t -> _, E : mapGet ?m ?b = Some ?t |- _ =>
             specialize (H b t E)
         end;
  unfold refOk, edgeOk in *; cbv beta in *;
  cbn [from_option id fst snd Edge.from Edge.to edge DC.header FC.header
       attachedLast] in *;
  lia.

Lemma mapSet_Forall {V} (P : nat * V -> Prop) (m : list (nat * V)) (k : nat) (v : V) :
  List.Forall P m -> P (k, v) -> List.Forall P (mapSet m k v).
Proof.
  intros Hm Hv. induction Hm as [|[k' v'] m H1 H2 IH]; cbn [mapSet].
  - now constructor.
  - destruct (k' =? k); constructor; auto.
Qed.

Lemma mapGet_Forall {V} (Q : V -> Prop) (m : list (nat * V)) (k : nat) (v : V) :
  List.Forall (fun kv => Q (snd kv)) m -> mapGet m k = Some v -> Q v.
Proof.
  unfold mapGet. intros Hm H.
  destruct (List.find _ m) as [[k' v']|] eqn:E; [|discriminate].
  injection H as <-. apply List.find_some in E as [E _].
  rewrite List.Forall_forall in Hm. exact (Hm _ E).
Qed.

Ltac side :=
  cbv beta;
  repeat match goal with |- _ /\ _ => split end;
  try exact I; try assumption; try (intros; discriminate);
  try solve [arith];
  try solve [intros ? [= <-]; arith];
  try solve [intros _; eexists; reflexivity];
  try solve [apply funOk_new];
  try solve [intros _; assumption];
  try solve [let n := fresh "n" in
             let Hx := fresh "Hx" in
             intros n Hx;
             match goal with
             | H : forall m, _ = Some m -> refOk _ m |- _ => specialize (H n Hx)
             end; arith];
  try solve [split; cbn [FC.header FC.lastBodyNodeId];
             [arith | intros ? [= <-]; arith]];
  try solve [split; cbn [DC.header DC.tails];
             [arith | first [ constructor
                            | apply mapSet_Forall; [open_refs; assumption | arith]
                            | open_refs; assumption ]]].

(** The end of a proof of [spec]. *)
Ltac fin :=
  (split; [assumption|]);
  repeat match goal with
         | |- _ /\ _ => split
         | |- keeps _ _ => split
         | |- makes _ _ _ _ _ => unfold makes
         end;
  try congruence; try lia; try (intros; discriminate);
  try solve [arith]; try solve [intros ? [= <-]; arith].

Ltac hstep :=
  lazymatch goal with
  | |- wp (mbind _ _) _ _ => apply wp_bind
  | |- wp (mret _) _ _ => apply wp_ret
  | |- wp skip _ _ => apply wp_ret
  | |- wp (gets _) _ _ => apply wp_gets
  | |- wp inFun _ _ => apply wp_gets
  | |- wp currentDecision _ _ => apply wp_gets
  | |- wp (assertSome (Some _)) _ _ => apply wp_ret
  | |- wp (assertSome (List.head (Drv.decisionStack ?s))) _ _ =>
      let E := fresh "E" in
      destruct (List.head (Drv.decisionStack s)) eqn:E;
      [let H := fresh in
       assert (H := head_ctxOk s _ ltac:(eassumption) E); destruct H;
       apply wp_ret
      |exfalso; cbn [andb] in *; discriminate]
  | |- wp (if ?b then _ else _) _ _ => destruct b eqn:?
  | |- wp (match List.head (Drv.decisionStack ?s) with _ => _ end) _ _ =>
      let E := fresh "E" in
      destruct (List.head (Drv.decisionStack s)) eqn:E;
      [let H := fresh in
       assert (H := head_ctxOk s _ ltac:(eassumption) E); destruct H|]
  | |- wp (match List.head (Drv.funStack ?s) with _ => _ end) _ _ =>
      let E := fresh "E" in
      destruct (List.head (Drv.funStack s)) eqn:E;
      [let H := fresh in
       assert (H := head_funRefsOk s _ ltac:(eassumption) E); destruct H|]
  | |- wp (match ?x with _ => _ end) _ _ => destruct x eqn:?
  | |- wp ?m ?R ?s =>
      eapply (use_spec _ m _ R s);
      [solve [eauto with spec] | eassumption | side
      |let a := fresh "a" in
       let s' := fresh "s" in
       intros a s' ? ?; cbv beta in *; unrel; carry s s'; new_stmt s']
  end.

Ltac hgo := repeat (cbv beta zeta; hstep).

(** The end of a part that makes no node, or makes the node [n]. *)
Ltac done_keeps :=
  split; [assumption | unfold keeps; split; [congruence | lia]].
Ltac done_makes :=
  split; [assumption
         | unfold makes; repeat split; try congruence; try lia].

Lemma spec_registerInFun (node : Node) :
  spec (fun s => refOk (nid s) node) (registerInFun node)
    (fun _ s s' => keeps s s').
Proof.
  intros s Hs Hn. unfold registerInFun. hgo.
  all: done_keeps.
Qed.
#[local] Hint Resolve spec_registerInFun : spec.

Lemma spec_createExecutableNode (kind : NodeKind) (seg : LogicalSegment)
  (text : jsstring) (gram : Grammar) (skipFunRegister : bool) :
  kind <> Start ->
  spec (fun _ => True) (createExecutableNode kind seg text gram skipFunRegister)
    (fun n s s' => makes seg kind n s s').
Proof.
  intros Hk s Hs _. unfold createExecutableNode. hgo.
  all: done_makes.
Qed.
#[local] Hint Extern 1 (spec _ (createExecutableNode _ _ _ _ _) _) =>
  apply spec_createExecutableNode; congruence : spec.

Lemma lastTail_refOk (k : nat) (top : DecisionContext) :
  ctxOk k top ->
  refOk k (default (DC.header top)
             (List.last (List.map (fun kv => Some (snd kv)) (DC.tails top)) None)).
Proof.
  intros [Hh Ht].
  induction (DC.tails top) as [|kv l IH]; [exact Hh|].
  inversion Ht as [|? ? H1 H2]; subst.
  destruct l as [|kv' l']; [exact H1 | now apply IH].
Qed.

Lemma spec_popObsoleteLoop (seg : LogicalSegment) (speckey : option jsstring)
  (stack : list DecisionContext) :
  spec (fun s => List.Forall (ctxOk (nid s)) stack
                 /\ (stack <> [] -> hasStatement (arena s)))
    (popObsoleteLoop seg speckey stack) (fun _ s s' => keeps s s').
Proof.
  induction stack as [|top rest IH]; intros s Hs [Hst Hns]; cbn [popObsoleteLoop].
  - hgo. done_keeps.
  - assert (Htop : ctxOk (nid s) top) by now inversion Hst.
    assert (Hrest : List.Forall (ctxOk (nid s)) rest) by now inversion Hst.
    assert (Hstm : hasStatement (arena s)) by now apply Hns.
    pose proof (lastTail_refOk _ _ Htop) as Hlast.
    hgo.
    all: done_keeps.
Qed.
#[local] Hint Resolve spec_popObsoleteLoop : spec.

Lemma spec_popObsoleteDecisions (seg : LogicalSegment) (speckey : option jsstring) :
  spec (fun _ => True) (popObsoleteDecisions seg speckey)
    (fun _ s s' => keeps s s').
Proof.
  intros s Hs _. unfold popObsoleteDecisions. apply wp_bind, wp_gets.
  eapply use_spec; [apply spec_popObsoleteLoop | exact Hs |
                    | intros ? ? ? ?; cbv beta in *; unrel].
  - split; [apply Hs | apply Hs].
  - done_keeps.
Qed.
#[local] Hint Resolve spec_popObsoleteDecisions : spec.

Lemma spec_attachElseNodeToDecision (ctx : DecisionContext) (node : Node) :
  spec (fun s => ctxOk (nid s) ctx /\ refOk (nid s) node /\ hasStatement (arena s))
    (attachElseNodeToDecision ctx node)
    (fun res s s' => keeps s s'
                     /\ forall n, attachedLast res = Some n -> refOk (nid s') n).
Proof.
  intros s Hs (Hc & Hn & Hst). unfold attachElseNodeToDecision. hgo.
  all: fin.
Qed.

Lemma spec_attachThenNodeToDecision (ctx : DecisionContext) (node : Node)
  (cbi : option nat) :
  spec (fun s => ctxOk (nid s) ctx /\ refOk (nid s) node /\ hasStatement (arena s))
    (attachThenNodeToDecision ctx node cbi)
    (fun res s s' => keeps s s'
                     /\ forall n, attachedLast res = Some n -> refOk (nid s') n).
Proof.
  intros s Hs (Hc & Hn & Hst). unfold attachThenNodeToDecision.
  assert (Htails : forall b t, mapGet (DC.tails ctx) b = Some t -> refOk (nid s) t).
  { intros b t. apply mapGet_Forall, Hc. }
  hgo.
  all: try fin.
  all: cbn [attachedLast]; let m := fresh "m" in
       let Hm := fresh "Hm" in
       intros m Hm;
       match goal with H : Inv2 ?s' |- refOk (nid ?s') _ =>
         apply (r_lastExec _ (i_refs _ H) m Hm) end.
Qed.
#[local] Hint Resolve spec_attachElseNodeToDecision spec_attachThenNodeToDecision
  : spec.

Lemma spec_wireIntoDecisionIfAny (node : Node) (seg : LogicalSegment)
  (speckey : option jsstring) :
  spec (fun s => refOk (nid s) node) (wireIntoDecisionIfAny node seg speckey)
    (fun _ s s' => keeps s s').
Proof.
  intros s Hs Hn. unfold wireIntoDecisionIfAny. hgo.
  all: fin.
Qed.

Lemma spec_wireSequentialUnlessInFun (node : Node) :
  spec (fun s => refOk (nid s) node /\ hasStatement (arena s))
    (wireSequentialUnlessInFun node) (fun _ s s' => keeps s s').
Proof.
  intros s Hs [Hn Hst]. unfold wireSequentialUnlessInFun. hgo.
  all: fin.
Qed.
#[local] Hint Resolve spec_wireIntoDecisionIfAny spec_wireSequentialUnlessInFun
  : spec.

Lemma spec_handleExecutableNode (kind : NodeKind) (seg : LogicalSegment)
  (gram : Grammar) (text : jsstring) (speckey : option jsstring) :
  kind <> Start -> kind <> End ->
  spec (fun _ => True) (handleExecutableNode kind seg gram text speckey)
    (fun n s s' => makes seg kind n s s').
Proof.
  intros Hk1 Hk2 s Hs _. unfold handleExecutableNode. hgo.
  all: fin.
Qed.
#[local] Hint Extern 1 (spec _ (handleExecutableNode _ _ _ _ _) _) =>
  apply spec_handleExecutableNode;
  repeat match goal with |- context [if ?b then _ else _] => destruct b end;
  congruence : spec.

Lemma spec_handleBareElseThen (seg : LogicalSegment) (gram : Grammar) :
  spec (fun _ => True) (handleBareElseThen seg gram)
    (fun _ s s' => exists n, makes seg Process n s s').
Proof.
  intros s Hs _. unfold handleBareElseThen. hgo.
  all: try (split; [assumption | eexists; unfold makes; repeat split;
                                 try eassumption; try congruence; try lia]).
  destruct (_ && _); [|assumption].
  destruct H2 as [Hh Ht]. now split.
Qed.
#[local] Hint Resolve spec_handleBareElseThen : spec.

Lemma spec_closeFun (seg : LogicalSegment) :
  spec (fun _ => True) (closeFun seg)
    (fun closed s s' =>
       if (closed : bool)
       then keeps s s' \/ exists n, makes seg Process n s s'
       else keeps s s').
Proof.
  intros s Hs _. unfold closeFun. apply wp_bind, wp_gets.
  destruct (Drv.funStack s) as [|funCtx rest] eqn:E; [hgo; fin|].
  assert (Hc : funOk funCtx /\ List.Forall funOk rest).
  { destruct (i_base s Hs) as [_ H]. rewrite E in H. now inversion H. }
  assert (Hr : funRefsOk (nid s) funCtx /\ List.Forall (funRefsOk (nid s)) rest).
  { pose proof (i_fun s Hs) as H. rewrite E in H. now inversion H. }
  destruct Hc as [Hc Hcrest]. destruct Hr as [Hr Hrrest].
  cbv zeta. destruct (negb _); [hgo; fin|].
  destruct (0 <? length (FC.bodyNodeIds funCtx)) eqn:Eb.
  - assert (Hsome : is_Some (FC.lastBodyNodeId funCtx)).
    { apply Hc. apply Nat.ltb_lt in Eb. destruct (FC.bodyNodeIds funCtx);
        [cbn in Eb; lia | discriminate]. }
    destruct Hsome as [lastBodyId El].
    assert (Hl : 1 <= lastBodyId < nid s) by (apply Hr, El).
    rewrite El. hgo.
    all: try (split; [assumption|]; right; eexists; unfold makes; repeat split;
              try eassumption; try congruence; try lia).
    all: arith.
  - hgo. split; [assumption|]. left. split; [congruence | lia].
Qed.
#[local] Hint Resolve spec_closeFun : spec.

Lemma spec_handleFunOpen (seg : LogicalSegment) (gram : Grammar) :
  spec (fun _ => True) (handleFunOpen seg gram)
    (fun _ s s' => exists n, makes seg Process n s s').
Proof.
  intros s Hs _. unfold handleFunOpen. hgo.
  all: try (split; [assumption | eexists; unfold makes; repeat split;
                                 try eassumption; try congruence; try lia]).
Qed.
#[local] Hint Resolve spec_handleFunOpen : spec.

Lemma arena_refOk (s : Driver) (n : Node) :
  Inv2 s -> List.In n (arena s) -> isNonSentinel n = true -> refOk (nid s) n.
Proof.
  intros Hs. apply gbOk_statement. apply (i_base s Hs).
Qed.

Lemma spec_handleEnd (seg : LogicalSegment) (gram : Grammar) :
  spec (fun _ => True) (handleEnd seg gram)
    (fun _ s s' => exists n, makes seg End n s s').
Proof.
  intros s Hs _. unfold handleEnd. hgo.
  all: try (split; [assumption | eexists; unfold makes; repeat split;
                                 try eassumption; try congruence; try lia]).
  intros n Hn. apply findPrevSequentialCandidate_some in Hn as [Hin Hns].
  now apply arena_refOk.
Qed.

Lemma spec_handleDecision (seg : LogicalSegment) (gram : Grammar) :
  spec (fun _ => True) (handleDecision seg gram)
    (fun _ s s' => exists n, makes seg Decision n s s').
Proof.
  intros s Hs _. unfold handleDecision. hgo.
  all: try (split; [assumption | eexists; unfold makes; repeat split;
                                 try eassumption; try congruence; try lia]).
Qed.

Lemma spec_handleConnector (seg : LogicalSegment) (gram : Grammar) :
  spec (fun _ => True) (handleConnector seg gram)
    (fun _ s s' => exists n, makes seg Connector n s s').
Proof.
  intros s Hs _. unfold handleConnector. hgo.
  all: try (split; [assumption | eexists; unfold makes; repeat split;
                                 try eassumption; try congruence; try lia]).
Qed.
#[local] Hint Resolve spec_handleEnd spec_handleDecision spec_handleConnector : spec.

Lemma spec_dispatch (seg : LogicalSegment) (gram : Grammar) :
  spec (fun _ => True) (dispatch seg gram)
    (fun _ s s' => exists kind n, makes seg kind n s s').
Proof.
  intros s Hs _. unfold dispatch. hgo.
  all: split; [assumption | eexists; eexists; unfold makes; repeat split;
                            try eassumption; try congruence; try lia].
Qed.
#[local] Hint Resolve spec_dispatch : spec.

Lemma spec_step (seg : LogicalSegment) :
  spec (fun _ => True) (step seg)
    (fun _ s s' => keeps s s' \/ exists kind n, makes seg kind n s s').
Proof.
  intros s Hs _. unfold step. hgo.
  all: split; [assumption|].
  all: try match goal with
           | H : keeps _ _ \/ _ |- _ => destruct H as [H | H]
           end.
  all: unrel.
  all: try (left; split; [congruence | lia]).
  all: right; eexists; eexists; unfold makes; repeat split;
       try eassumption; try congruence; try lia.
Qed.

Lemma nodePos_core (n : Node) : nodePos (core n) = nodePos n.
Proof. reflexivity. Qed.

Lemma spec_forEach (segs : list LogicalSegment) :
  spec (fun _ => True) (forEach segs step)
    (fun _ s s' =>
       exists new, cores (arena s') = cores (arena s) ++ new
                   /\ List.map nodePos new `sublist_of` List.map segPos segs).
Proof.
  induction segs as [|seg segs IH]; intros s Hs _; cbn [forEach].
  - apply wp_ret. split; [exact Hs|]. exists []. now rewrite List.app_nil_r.
  - apply wp_bind.
    eapply use_spec; [apply spec_step | exact Hs | exact I|].
    intros [] s1 H1 Hstep. cbv beta in Hstep.
    eapply use_spec; [apply IH | exact H1 | exact I|].
    intros [] s2 H2 (new & Hnew & Hsub). split; [exact H2|].
    destruct Hstep as [[Hc _] | (kind & n & Hc & _ & _ & _ & Hpos & _)].
    + exists new. split; [congruence|]. cbn [List.map]. now apply sublist_cons.
    + exists (core n :: new). split.
      * rewrite Hnew, Hc, <- List.app_assoc. reflexivity.
      * cbn [List.map]. rewrite nodePos_core, Hpos. now apply sublist_skip.
Qed.

(** ** Finalisation *)

Lemma Inv2_initialDriver : Inv2 initialDriver.
Proof.
  split; cbn.
  - apply Inv_initialDriver.
  - split; cbn; try constructor; try discriminate; lia.
  - constructor.
  - constructor.
  - intros H. now elim H.
Qed.

Lemma mainLoop_sound (text : jsstring) :
  exists s new,
    forEach (collectSegments text) step initialDriver = Done (tt, s)
    /\ Inv2 s
    /\ cores (arena s) = core startNode :: new
    /\ List.map nodePos new `sublist_of` List.map segPos (collectSegments text).
Proof.
  destruct (wp_done _ _ _ (spec_forEach (collectSegments text) initialDriver
                             Inv2_initialDriver I))
    as ([] & s & E & Hs & new & Hnew & Hsub).
  exists s, new. auto.
Qed.

Lemma edgeOk_inDeg_start (k : nat) (edges : list Edge) :
  List.Forall (edgeOk k) edges -> inDeg edges 0 = 0.
Proof.
  unfold inDeg. induction 1 as [|e l [_ He] _ IH]; [reflexivity|]. cbn.
  destruct (Edge.to e =? 0) eqn:E; [apply Nat.eqb_eq in E; lia | exact IH].
Qed.

Lemma edgeOk_degrees_fresh (k : nat) (edges : list Edge) :
  List.Forall (edgeOk k) edges -> inDeg edges k = 0 /\ outDeg edges k = 0.
Proof.
  unfold inDeg, outDeg. induction 1 as [|e l [He1 He2] _ [IH1 IH2]]; [auto|]. cbn.
  destruct (Edge.to e =? k) eqn:E1; [apply Nat.eqb_eq in E1; lia|].
  destruct (Edge.from e =? k) eqn:E2; [apply Nat.eqb_eq in E2; lia|]. auto.
Qed.

Lemma pushEdge_outDeg (e : Edge) (g : GraphBuilder) (id : nat) :
  outDeg (GB.edges g) id <= outDeg (GB.edges (pushEdge e g)) id.
Proof.
  destruct (pushEdge_shape e g) as [-> | ->]; [lia|].
  cbn [GB.edges GB.with_edges]. rewrite outDeg_app. lia.
Qed.

Lemma resolvePending_fold (l : list Node) :
  forall g, gbOk g -> gbRefs g -> List.Forall (refOk (GB.nextId g)) l ->
            let g' := List.fold_left resolvePending l g in
            gbOk g' /\ gbRefs g' /\ gbSame g g'.
Proof.
  induction l as [|n l IH]; intros g Hok Hg Hl; cbn [List.fold_left].
  - split; [exact Hok | split; [exact Hg | apply gbSame_refl]].
  - inversion Hl as [|? ? Hn Hl']; subst.
    assert (Hs : gbSame g (resolvePending g n)).
    { unfold resolvePending. destruct (findNextConnector _ _); [|apply gbSame_refl].
      destruct (negb _); [apply gbSame_pushEdge | apply gbSame_refl]. }
    destruct (IH (resolvePending g n)) as (H1 & H2 & H3).
    + eapply gbStep_ok; [|exact Hok]. apply gbStep_resolvePending, gbStep_refl.
    + now apply gbRefs_resolvePending.
    + destruct Hs as [_ ->]. exact Hl'.
    + split; [exact H1 | split; [exact H2 | eapply gbSame_trans; eauto]].
Qed.

Lemma gbSame_wireStart (g : GraphBuilder) : gbSame g (wireStart g).
Proof.
  unfold wireStart. destruct (List.filter _ _); [apply gbSame_refl|].
  destruct (negb _); [apply gbSame_pushEdge | apply gbSame_refl].
Qed.

Lemma gbSame_wireLeadingConnector (g : GraphBuilder) :
  gbSame g (wireLeadingConnector g).
Proof.
  unfold wireLeadingConnector.
  destruct (List.filter _ _) as [|? [|? ?]]; try apply gbSame_refl.
  destruct (_ && _); [apply gbSame_pushEdge | apply gbSame_refl].
Qed.

Lemma wireStart_exit (g : GraphBuilder) :
  hasStatement (GB.nodes g) -> 1 <= outDeg (GB.edges (wireStart g)) 0.
Proof.
  intros Hst. unfold wireStart.
  destruct (List.filter isNonSentinel (GB.nodes g)) as [|first r] eqn:E.
  - exfalso. apply List.existsb_exists in Hst as (x & Hx & Hs).
    assert (H : List.In x (List.filter isNonSentinel (GB.nodes g)))
      by now apply List.filter_In.
    now rewrite E in H.
  - destruct (existsb _ (GB.edges g)) eqn:Ex; cbn [negb].
    + destruct (outDeg (GB.edges g) 0) eqn:Eo; [|lia].
      apply outDeg_zero in Eo. cbn in Ex. congruence.
    + destruct (pushEdge_shape (edge (Node.id startNode) (Node.id first)) g)
        as [Hp | Hp]; rewrite Hp.
      * pose proof (pushEdge_has (edge (Node.id startNode) (Node.id first)) g) as Hh.
        rewrite Hp in Hh. unfold hasEdge in Hh.
        apply List.existsb_exists in Hh as (e & He & Hh).
        apply andb_prop in Hh as [Hh _]. apply andb_prop in Hh as [Hh _].
        assert (existsb (fun e => Edge.from e =? Node.id startNode) (GB.edges g)
                = true) by (apply List.existsb_exists; eauto).
        congruence.
      * cbn [GB.edges GB.with_edges]. rewrite outDeg_app, outDeg_single. cbn. lia.
Qed.

Lemma wireLeadingConnector_exit (g : GraphBuilder) (id : nat) :
  outDeg (GB.edges g) id <= outDeg (GB.edges (wireLeadingConnector g)) id.
Proof.
  unfold wireLeadingConnector.
  destruct (List.filter _ _) as [|? [|? ?]]; try lia.
  destruct (_ && _); [apply pushEdge_outDeg | lia].
Qed.

Lemma last_map_Some {A} (l : list A) :
  l <> [] -> exists z, List.last (List.map Some l) None = Some z /\ List.In z l.
Proof.
  intros H. destruct (List.exists_last H) as (l' & z & ->).
  exists z. rewrite List.map_app. cbn [List.map]. rewrite List.last_last.
  split; [reflexivity | apply List.in_or_app; right; now left].
Qed.

Lemma inDeg_single (e : Edge) (id : nat) :
  inDeg [e] id = if Edge.to e =? id then 1 else 0.
Proof. unfold inDeg. cbn. now destruct (Edge.to e =? id). Qed.

(** The node from which the last edge starts, and the edge itself. *)
Lemma synthesizeEnd_sound (g : GraphBuilder) :
  gbOk g -> gbRefs g ->
  (hasStatement (GB.nodes g) -> 1 <= outDeg (GB.edges g) 0) ->
  exists endN ft,
    Graph.nodes (synthesizeEnd g) = GB.nodes g ++ [endN]
    /\ Node.id endN = GB.nextId g
    /\ Graph.edges (synthesizeEnd g) = GB.edges g ++ [edge (Node.id ft) (GB.nextId g)]
    /\ Node.id ft < GB.nextId g
    /\ outDeg (GB.edges g) 0 + (if Node.id ft =? 0 then 1 else 0) = 1.
Proof.
  intros Hok Hg Hexit.
  pose proof (gbOk_nextId g Hok) as Hk.
  unfold synthesizeEnd.
  set (ex := List.filter (fun n => negb (kind_eqb (Node.kind n) End)) (GB.nodes g)).
  assert (Hft : exists z, List.last (List.map Some ex) None = Some z
                          /\ Node.id z < GB.nextId g
                          /\ outDeg (GB.edges g) 0 + (if Node.id z =? 0 then 1 else 0)
                             = 1).
  { destruct Hok as [Hids (kinds & Hkinds & Hns) Hnd].
    pose proof (gbOk_In g) as HIn.
    specialize (fun n => HIn n (Build_gbOk g Hids (ex_intro _ kinds (conj Hkinds Hns)) Hnd)).
    unfold ex. destruct (GB.nodes g) as [|n0 rest] eqn:En; [discriminate|].
    cbn in Hkinds. injection Hkinds as Hk0 Hkr.
    assert (Hid0 : Node.id n0 = 0).
    { cbn in Hids. destruct (GB.nextId g); [discriminate|]. cbn in Hids.
      now injection Hids. }
    assert (Hrest : forall x, List.In x rest -> Node.kind x <> Start).
    { intros x Hx Hs. apply Hns. rewrite <- Hkr, <- Hs.
      apply List.in_map_iff. exists (Node.id x, Node.kind x). split; [reflexivity|].
      unfold shape. apply List.in_map_iff. now exists x. }
    cbn [List.filter]. rewrite Hk0. cbn [kind_eqb negb].
    destruct (List.filter (fun n => negb (kind_eqb (Node.kind n) End)) rest)
      as [|y ys] eqn:Ef.
    - exists n0. split; [reflexivity|]. rewrite Hid0. split; [lia|].
      cbn [Nat.eqb].
      destruct (outDeg (GB.edges g) 0) as [|[|d]] eqn:Eo; [reflexivity | exfalso |].
      + assert (Hst : hasStatement (GB.nodes g))
          by (apply (r_statement g Hg); lia).
        rewrite En in Hst.
        apply List.existsb_exists in Hst as (x & [<- | Hx] & Hs).
        * unfold isNonSentinel in Hs. rewrite Hk0 in Hs. discriminate.
        * assert (H : List.In x (List.filter
                                   (fun n => negb (kind_eqb (Node.kind n) End)) rest)).
          { apply List.filter_In. split; [exact Hx|].
            apply isNonSentinel_kind in Hs as [_ Hs].
            destruct (Node.kind x); try reflexivity. congruence. }
          now rewrite Ef in H.
      + pose proof (r_start g Hg). lia.
    - destruct (last_map_Some (y :: ys)) as (z & Hz & Hin); [discriminate|].
      exists z. cbn [List.map] in Hz |- *. cbn [List.last] in Hz |- *.
      split; [exact Hz|].
      rewrite <- Ef in Hin. apply List.filter_In in Hin as [Hin Hp].
      destruct (HIn z (or_intror Hin)) as [H1 H2].
      specialize (H2 (Hrest z Hin)). split; [exact H1|].
      assert (Hs : isNonSentinel z = true).
      { unfold isNonSentinel. rewrite Hp.
        pose proof (Hrest z Hin). destruct (Node.kind z); try reflexivity.
        congruence. }
      assert (Hst : hasStatement (GB.nodes g)).
      { rewrite En. apply (hasStatement_In _ z); [now right | exact Hs]. }
      rewrite <- En in Hexit. specialize (Hexit Hst).
      pose proof (r_start g Hg).
      destruct (Node.id z =? 0) eqn:E0; [apply Nat.eqb_eq in E0; lia | lia]. }
  destruct Hft as (z & -> & Hz1 & Hz2).
  cbn [createImplicitEnd].
  eexists. exists z. cbn [Graph.nodes Graph.edges].
  rewrite pushEdge_nodes. cbn [GB.nodes GB.with_nodes GB.with_endNodeId Node.id].
  split; [reflexivity|]. split; [reflexivity|].
  split; [|split; [exact Hz1 | exact Hz2]].
  unfold pushEdge. cbn [GB.edges GB.with_nodes GB.with_endNodeId GB.with_nextId
                         GB.with_edges Edge.from Edge.to Edge.label edge].
  assert (Hno : hasEdge (GB.edges g) (Node.id z) (GB.nextId g) None = false).
  { unfold hasEdge. apply not_true_is_false. intros H.
    apply List.existsb_exists in H as (e & He & H).
    apply andb_prop in H as [H _]. apply andb_prop in H as [_ H].
    apply Nat.eqb_eq in H.
    pose proof (r_edges g Hg) as Hall. rewrite List.Forall_forall in Hall.
    specialize (Hall e He). unfold edgeOk in Hall. lia. }
  now rewrite Hno.
Qed.

Lemma finalize_sound (g : GraphBuilder) :
  gbOk g -> gbRefs g ->
  exists nodes' endN,
    Graph.nodes (finalize g) = nodes' ++ [endN]
    /\ cores nodes' = cores (GB.nodes g)
    /\ Node.id endN = GB.nextId g
    /\ List.Forall (edgeOk (S (GB.nextId g))) (Graph.edges (finalize g))
    /\ inDeg (Graph.edges (finalize g)) 0 = 0
    /\ outDeg (Graph.edges (finalize g)) 0 = 1
    /\ inDeg (Graph.edges (finalize g)) (GB.nextId g) = 1
    /\ outDeg (Graph.edges (finalize g)) (GB.nextId g) = 0.
Proof.
  intros Hok Hg. unfold finalize.
  destruct (resolvePending_fold (GB.pendingNextNodes g) g Hok Hg (r_pending g Hg))
    as (Hok1 & Hg1 & Hs1).
  set (g1 := List.fold_left resolvePending (GB.pendingNextNodes g) g) in *.
  assert (Hok2 : gbOk (wireStart g1))
    by (eapply gbStep_ok; [apply gbStep_wireStart, gbStep_refl | exact Hok1]).
  pose proof (gbRefs_wireStart g1 Hok1 Hg1) as Hg2.
  pose proof (gbSame_wireStart g1) as Hs2.
  set (g2 := wireStart g1) in *.
  assert (Hok3 : gbOk (wireLeadingConnector g2))
    by (eapply gbStep_ok; [apply gbStep_wireLeadingConnector, gbStep_refl | exact Hok2]).
  pose proof (gbRefs_wireLeadingConnector g2 Hok2 Hg2) as Hg3.
  pose proof (gbSame_wireLeadingConnector g2) as Hs3.
  assert (Hexit : hasStatement (GB.nodes (wireLeadingConnector g2)) ->
                  1 <= outDeg (GB.edges (wireLeadingConnector g2)) 0).
  { intros Hst. pose proof (wireLeadingConnector_exit g2 0) as Hle.
    assert (Hst1 : hasStatement (GB.nodes g1)).
    { eapply hasStatement_same; [|exact Hst].
      destruct Hs2 as [Hs2 _], Hs3 as [Hs3 _]. congruence. }
    pose proof (wireStart_exit g1 Hst1). fold g2 in H. lia. }
  set (g3 := wireLeadingConnector g2) in *.
  assert (Hs : gbSame g g3)
    by (eapply gbSame_trans; [eapply gbSame_trans|]; eassumption).
  destruct Hs as [Hc Hn].
  destruct (synthesizeEnd_sound g3 Hok3 Hg3 Hexit)
    as (endN & ft & -> & Hid & -> & Hft & Hout).
  rewrite Hn in *.
  pose proof (r_edges g3 Hg3) as He. rewrite Hn in He.
  destruct (edgeOk_degrees_fresh _ _ He) as [Hi0 Ho0].
  pose proof (gbOk_nextId g Hok) as Hk.
  exists (GB.nodes g3), endN.
  split; [reflexivity|]. split; [exact Hc|]. split; [exact Hid|].
  rewrite !inDeg_app, !outDeg_app, !inDeg_single, !outDeg_single.
  cbn [Edge.from Edge.to edge].
  rewrite (edgeOk_inDeg_start _ _ He), Hi0, Ho0, Nat.eqb_refl.
  replace (GB.nextId g =? 0) with false by (symmetry; apply Nat.eqb_neq; lia).
  replace (Node.id ft =? GB.nextId g) with false
    by (symmetry; apply Nat.eqb_neq; lia).
  split; [|auto].
  apply List.Forall_app. split.
  - eapply List.Forall_impl; [|exact He]. intros e. apply edgeOk_mono. lia.
  - constructor; [|constructor]. unfold edgeOk. cbn. lia.
Qed.

Lemma parseivx_sound (text : jsstring) :
  exists g new endN n0,
    parseivx text = Done g
    /\ wellFormed g
    /\ Graph.nodes g = n0 :: new ++ [endN]
    /\ core n0 = core startNode
    /\ List.map nodePos new `sublist_of` List.map segPos (collectSegments text)
    /\ List.Forall (edgeOk (length (Graph.nodes g))) (Graph.edges g)
    /\ inDeg (Graph.edges g) 0 = 0
    /\ outDeg (Graph.edges g) 0 = 1
    /\ inDeg (Graph.edges g) (Node.id endN) = 1
    /\ outDeg (Graph.edges g) (Node.id endN) = 0.
Proof.
  destruct (mainLoop_sound text) as (s & new & E & Hs & Hnew & Hsub).
  pose proof (i_base s Hs) as [Hok _].
  destruct (finalize_sound (Drv.gb s) Hok (i_refs s Hs))
    as (nodes' & endN & Hn & Hc & Hid & He & H1 & H2 & H3 & H4).
  assert (Hlen : length (Graph.nodes (finalize (Drv.gb s))) = S (GB.nextId (Drv.gb s))).
  { rewrite Hn, List.length_app. cbn [length].
    destruct Hok as [Hids _ _]. apply (f_equal (@length nat)) in Hids.
    unfold shape in Hids. rewrite !List.length_map, List.length_seq in Hids.
    apply (f_equal (@length Node)) in Hc. unfold cores in Hc.
    rewrite !List.length_map in Hc. lia. }
  unfold arena in Hnew. rewrite <- Hc in Hnew.
  destruct nodes' as [|n0 mid]; [discriminate|].
  assert (Hn0 : core n0 = core startNode)
    by (apply (f_equal (fun l => List.hd (core startNode) l)) in Hnew; exact Hnew).
  assert (Hmid : cores mid = new)
    by (apply (f_equal (@List.tl _)) in Hnew; exact Hnew).
  exists (finalize (Drv.gb s)), mid, endN, n0.
  unfold parseivx. rewrite E.
  split; [reflexivity|]. split; [now apply finalize_wellFormed|].
  split; [exact Hn|]. split; [exact Hn0|]. split.
  - replace (List.map nodePos mid) with (List.map nodePos new); [exact Hsub|].
    rewrite <- Hmid. unfold cores. rewrite List.map_map. reflexivity.
  - rewrite Hlen, Hid. auto 10.
Qed.

Lemma StronglySorted_sublist {A} (R : A -> A -> Prop) (l1 l2 : list A) :
  l1 `sublist_of` l2 -> StronglySorted R l2 -> StronglySorted R l1.
Proof.
  induction 1 as [|x l1 l2 Hsub IH|x l1 l2 Hsub IH]; intros Hs.
  - constructor.
  - apply StronglySorted_inv in Hs as [Hs Hx]. constructor; [now apply IH|].
    rewrite List.Forall_forall in Hx |- *. intros y Hy. apply Hx.
    apply list_elem_of_In. eapply elem_of_sublist; [|exact Hsub].
    now apply list_elem_of_In.
  - apply StronglySorted_inv in Hs as [Hs _]. now apply IH.
Qed.

Lemma StronglySorted_map_inv {A B} (f : A -> B) (R1 : A -> A -> Prop)
  (R2 : B -> B -> Prop) (l : list A) :
  (forall x y, R2 (f x) (f y) -> R1 x y) ->
  StronglySorted R2 (List.map f l) -> StronglySorted R1 l.
Proof.
  intros HR. induction l as [|x l IH]; cbn; intros Hs; [constructor|].
  apply StronglySorted_inv in Hs as [Hs Hx]. constructor; [now apply IH|].
  rewrite List.Forall_forall in Hx |- *. intros y Hy. apply HR, Hx.
  now apply List.in_map.
Qed.

Lemma StronglySorted_map {A B} (f : A -> B) (R1 : A -> A -> Prop)
  (R2 : B -> B -> Prop) (l : list A) :
  (forall x y, R1 x y -> R2 (f x) (f y)) ->
  StronglySorted R1 l -> StronglySorted R2 (List.map f l).
Proof.
  intros HR. induction 1 as [|x l Hs IH Hx]; cbn; constructor; [exact IH|].
  rewrite List.Forall_forall in Hx |- *. intros y Hy.
  apply List.in_map_iff in Hy as (z & <- & Hz). now apply HR, Hx.
Qed.

(** X21. In the graph of any text every edge joins two nodes of the
    graph: its source and its target are ids of nodes, each found at the
    position that is its id; and no edge enters the [Start] node. *)
Theorem parseivx_edges_join_nodes (text : jsstring) :
  exists g,
    parseivx text = Done g
    /\ forall e, List.In e (Graph.edges g) ->
         exists a b,
           List.nth_error (Graph.nodes g) (Edge.from e) = Some a
           /\ Node.id a = Edge.from e
           /\ List.nth_error (Graph.nodes g) (Edge.to e) = Some b
           /\ Node.id b = Edge.to e
           /\ Node.kind b <> Start.
Proof.
  destruct (parseivx_sound text)
    as (g & new & endN & n0 & E & Hwf & Hn & _ & _ & He & _).
  exists g. split; [exact E|]. intros e Hin.
  rewrite List.Forall_forall in He. destruct (He e Hin) as [H1 [H2 H3]].
  destruct (List.nth_error (Graph.nodes g) (Edge.from e)) as [a|] eqn:Ea;
    [|apply List.nth_error_None in Ea; lia].
  destruct (List.nth_error (Graph.nodes g) (Edge.to e)) as [b|] eqn:Eb;
    [|apply List.nth_error_None in Eb; lia].
  exists a, b. destruct Hwf as [(m0 & mid & mE & Hm & _ & _ & Hrest & _) Hids _ _].
  split; [reflexivity|]. split; [now apply Hids|].
  split; [reflexivity|]. split; [now apply Hids|].
  apply Hrest. rewrite Hm in Eb.
  destruct (Edge.to e) as [|i]; [lia|]. cbn in Eb.
  now apply List.nth_error_In in Eb.
Qed.

(** X22. In the graph of any text the [Start] node has no incoming edge
    and exactly one outgoing edge, so the validator has nothing to say
    about it. *)
Theorem parseivx_start_has_one_exit (text : jsstring) :
  exists g n0 rest,
    parseivx text = Done g
    /\ Graph.nodes g = n0 :: rest
    /\ Node.kind n0 = Start
    /\ inDeg (Graph.edges g) (Node.id n0) = 0
    /\ outDeg (Graph.edges g) (Node.id n0) = 1
    /\ violations (Graph.edges g) n0 = [].
Proof.
  destruct (parseivx_sound text)
    as (g & new & endN & n0 & E & Hwf & Hn & Hc & _ & _ & Hi & Ho & _).
  assert (Hid : Node.id n0 = 0) by exact (f_equal Node.id Hc).
  assert (Hk : Node.kind n0 = Start) by exact (f_equal Node.kind Hc).
  exists g, n0, (new ++ [endN]). rewrite Hid.
  split; [exact E|]. split; [exact Hn|]. split; [exact Hk|].
  split; [exact Hi|]. split; [exact Ho|].
  apply violations_nil. intros _. rewrite Hk, Hid, Hi, Ho. now split.
Qed.

(** X23. In the graph of any text the [End] node made at the end, the
    last node of the graph and the one recorded as its end, has exactly
    one incoming edge and no outgoing edge, so the validator has nothing
    to say about it. *)
Theorem parseivx_implicit_end_has_one_entry (text : jsstring) :
  exists g front endN,
    parseivx text = Done g
    /\ Graph.nodes g = front ++ [endN]
    /\ Node.kind endN = End
    /\ Graph.endNodeId g = Some (Node.id endN)
    /\ inDeg (Graph.edges g) (Node.id endN) = 1
    /\ outDeg (Graph.edges g) (Node.id endN) = 0
    /\ violations (Graph.edges g) endN = [].
Proof.
  destruct (parseivx_sound text)
    as (g & new & endN & n0 & E & Hwf & Hn & _ & _ & _ & _ & _ & Hi & Ho).
  destruct Hwf as [(m0 & mid & mE & Hm & _ & _ & _ & Hk & Hend) _ _ _].
  assert (HE : mE = endN).
  { rewrite Hn in Hm.
    change (n0 :: new ++ [endN]) with ((n0 :: new) ++ [endN]) in Hm.
    change (m0 :: mid ++ [mE]) with ((m0 :: mid) ++ [mE]) in Hm.
    apply List.app_inj_tail in Hm as [_ Hm]. now symmetry. }
  subst mE.
  exists g, (n0 :: new), endN.
  split; [exact E|]. split; [exact Hn|]. split; [exact Hk|].
  split; [exact Hend|]. split; [exact Hi|]. split; [exact Ho|].
  apply violations_nil. intros _. rewrite Hk, Hi, Ho. now split.
Qed.

(** X24. The nodes of the graph of any text, between the [Start] node and
    the [End] node made at the end, follow the segments of the text: each
    comes from a segment of its own, whose line, position and indentation
    it carries, and they stand in the order of the segments.  So they are
    in reading order, and the graph has at most two nodes more than the
    text has segments. *)
Theorem parseivx_nodes_follow_segments (text : jsstring) :
  exists g n0 mid endN,
    parseivx text = Done g
    /\ Graph.nodes g = n0 :: mid ++ [endN]
    /\ List.map nodePos mid `sublist_of` List.map segPos (collectSegments text)
    /\ StronglySorted nodeBefore mid
    /\ length (Graph.nodes g) <= length (collectSegments text) + 2.
Proof.
  destruct (parseivx_sound text)
    as (g & new & endN & n0 & E & _ & Hn & _ & Hsub & _).
  exists g, n0, new, endN.
  split; [exact E|]. split; [exact Hn|]. split; [exact Hsub|]. split.
  - apply (StronglySorted_map_inv nodePos nodeBefore posBefore);
      [intros x y H; exact H|].
    apply (StronglySorted_sublist _ _ _ Hsub).
    apply (StronglySorted_map segPos segBefore posBefore);
      [intros x y H; exact H | apply collectSegments_sorted].
  - apply sublist_length in Hsub. rewrite !List.length_map in Hsub.
    rewrite Hn. cbn [length]. rewrite List.length_app. cbn [length]. lia.
Qed.

(** ** Line ends *)

Lemma splitLines_toCRLF (t : jsstring) :
  ~ List.In Ch.cr t ->
  forall cur, splitLines cur (toCRLF t) = splitLines cur t.
Proof.
  induction t as [|c r IH]; intros Hcr cur; [reflexivity|].
  assert (Hr : ~ List.In Ch.cr r) by (intros H; apply Hcr; now right).
  assert (Hc : N.eqb c Ch.cr = false)
    by (apply N.eqb_neq; intros ->; apply Hcr; now left).
  unfold toCRLF. cbn [List.flat_map]. fold (toCRLF r).
  destruct (N.eqb c Ch.lf) eqn:E.
  - apply N.eqb_eq in E. subst c.
    cbn [List.app]. rewrite splitLines_at_crlf, splitLines_at_lf.
    f_equal. now apply IH.
  - cbn [List.app].
    rewrite !splitLines_ordinary; try exact E;
      try (intros; rewrite Hc; reflexivity).
    now apply IH.
Qed.

(** X25. Line ends do not matter: a text without carriage returns gives
    the same segments, the same graph and the same validation messages
    when its line feeds are written as carriage return and line feed. *)
Theorem parseivx_ignores_line_ends (t : jsstring) :
  ~ List.In Ch.cr t ->
  collectSegments (toCRLF t) = collectSegments t
  /\ parseivx (toCRLF t) = parseivx t
  /\ buildGraph (toCRLF t) = buildGraph t.
Proof.
  intros Hcr.
  assert (H : collectSegments (toCRLF t) = collectSegments t).
  { unfold collectSegments. now rewrite splitLines_toCRLF. }
  assert (H' : parseivx (toCRLF t) = parseivx t)
    by (unfold parseivx; now rewrite H).
  split; [exact H|]. split; [exact H'|].
  unfold buildGraph. now rewrite H'.
Qed.

Lemma parseivx_ignores_line_ends_witness :
  ~ List.In Ch.cr chainText
  /\ collectSegments (toCRLF chainText) = collectSegments chainText
  /\ parseivx (toCRLF chainText) = parseivx chainText
  /\ buildGraph (toCRLF chainText) = buildGraph chainText.
Proof.
  assert (H : ~ List.In Ch.cr chainText).
  { intros H. vm_compute in H. repeat destruct H as [H | H]; try discriminate H.
    exact H. }
  split; [exact H|]. exact (parseivx_ignores_line_ends chainText H).
Defined.

(** ** Forward jumps *)

Lemma joined_app (es1 es2 : list Edge) (a b : nat) :
  joined (es1 ++ es2) a b = joined es1 a b || joined es2 a b.
Proof. apply List.existsb_app. Qed.

Lemma joined_pushEdge (e : Edge) (g : GraphBuilder) (a b : nat) :
  joined (GB.edges g) a b = true -> joined (GB.edges (pushEdge e g)) a b = true.
Proof.
  intros H. destruct (pushEdge_shape e g) as [-> | ->]; [exact H|].
  cbn [GB.edges GB.with_edges]. now rewrite joined_app, H.
Qed.

Lemma joined_pushed (a b : nat) (g : GraphBuilder) :
  joined (GB.edges (pushEdge (edge a b) g)) a b = true.
Proof.
  pose proof (pushEdge_has (edge a b) g) as H. unfold hasEdge in H.
  apply List.existsb_exists in H as (e & He & H).
  apply andb_prop in H as [H _].
  apply List.existsb_exists. exists e. split; [exact He | exact H].
Qed.

Lemma resolvePending_nodes (g : GraphBuilder) (n : Node) :
  GB.nodes (resolvePending g n) = GB.nodes g.
Proof.
  unfold resolvePending. destruct (findNextConnector _ _); [|reflexivity].
  destruct (negb _); [apply pushEdge_nodes | reflexivity].
Qed.

Lemma resolvePending_keeps (g : GraphBuilder) (n : Node) (a b : nat) :
  joined (GB.edges g) a b = true -> joined (GB.edges (resolvePending g n)) a b = true.
Proof.
  intros H. unfold resolvePending. destruct (findNextConnector _ _); [|exact H].
  destruct (negb _); [now apply joined_pushEdge | exact H].
Qed.

Lemma resolvePending_joins (g : GraphBuilder) (n c : Node) :
  findNextConnector (GB.nodes g) n = Some c ->
  joined (GB.edges (resolvePending g n)) (Node.id n) (Node.id c) = true.
Proof.
  intros H. unfold resolvePending. rewrite H.
  fold (joined (GB.edges g) (Node.id n) (Node.id c)).
  destruct (joined (GB.edges g) (Node.id n) (Node.id c)) eqn:E; cbn [negb];
    [exact E | apply joined_pushed].
Qed.

Lemma resolvePending_fold_joins (l : list Node) (n c : Node) :
  forall g,
    findNextConnector (GB.nodes g) n = Some c ->
    List.In n l \/ joined (GB.edges g) (Node.id n) (Node.id c) = true ->
    joined (GB.edges (List.fold_left resolvePending l g)) (Node.id n) (Node.id c)
    = true.
Proof.
  induction l as [|x l IH]; intros g Hc H; cbn [List.fold_left].
  - destruct H as [[] | H]. exact H.
  - apply IH; [now rewrite resolvePending_nodes|].
    destruct H as [[-> | H] | H]; [right | now left | right].
    + now apply resolvePending_joins.
    + now apply resolvePending_keeps.
Qed.

Lemma finalize_keeps (g : GraphBuilder) (a b : nat) :
  joined (GB.edges (List.fold_left resolvePending (GB.pendingNextNodes g) g)) a b
  = true ->
  joined (Graph.edges (finalize g)) a b = true.
Proof.
  intros H. unfold finalize, synthesizeEnd.
  destruct (match List.last _ None with Some n => _ | None => _ end) as [ft lbl].
  cbn [createImplicitEnd Graph.edges].
  apply joined_pushEdge.
  cbn [GB.edges GB.with_endNodeId GB.with_nodes GB.with_nextId].
  unfold wireLeadingConnector.
  destruct (List.filter _ _) as [|? [|? ?]];
    try destruct (_ && _); try apply joined_pushEdge;
    unfold wireStart;
    (destruct (List.filter _ _); [exact H|]);
    (destruct (negb _); [now apply joined_pushEdge | exact H]).
Qed.

(** X27. Forward jumps are resolved at the end: for every node that waits
    with a [next] marker and has a connector after it, the finished graph
    has an edge from the node to the connector that [findNextConnector]
    names, the nearest one after it. *)
Theorem finalize_resolves_forward_jumps (gb : GraphBuilder) (n c : Node) :
  List.In n (GB.pendingNextNodes gb) ->
  findNextConnector (GB.nodes gb) n = Some c ->
  joined (Graph.edges (finalize gb)) (Node.id n) (Node.id c) = true.
Proof.
  intros Hn Hc. apply finalize_keeps.
  apply resolvePending_fold_joins; [exact Hc | now left].
Qed.

Lemma finalize_resolves_forward_jumps_witness :
  List.In chainA (GB.pendingNextNodes (GB.with_pendingNextNodes [chainA] chainBuilder))
  /\ findNextConnector (GB.nodes (GB.with_pendingNextNodes [chainA] chainBuilder)) chainA
     = Some chainConnector
  /\ joined (Graph.edges (finalize (GB.with_pendingNextNodes [chainA] chainBuilder)))
       (Node.id chainA) (Node.id chainConnector) = true.
Proof.
  assert (H1 : List.In chainA
                 (GB.pendingNextNodes (GB.with_pendingNextNodes [chainA] chainBuilder)))
    by now left.
  assert (H2 : findNextConnector
                 (GB.nodes (GB.with_pendingNextNodes [chainA] chainBuilder)) chainA
               = Some chainConnector) by reflexivity.
  split; [exact H1|]. split; [exact H2|].
  exact (finalize_resolves_forward_jumps _ _ _ H1 H2).
Defined.
